(** * Combat and wave-encounter layer of the Phaser 3 dungeon demo

    A shallow embedding of [src/Enemy.js], [src/Player.js], the health
    display of [UI.js], the combat, breakable-item and wave parts of
    [src/GameScene.js] and the light of [src/SpriteItem.js], followed by
    the properties of that layer.

    Conventions of the embedding:
    - world coordinates and velocities are JavaScript numbers computed with
      [Math.cos]/[Math.sin]; they are idealised as real numbers ([R]);
    - timestamps ([Date.getTime()], [scene.time.now]) and delays are
      milliseconds, kept in [Z]; counters are [Z] or [nat];
    - a JavaScript object that is shared by reference (an enemy held by the
      scene array, by colliders and by pending callbacks) lives in a store
      [gmap ref _] and is named by its reference;
    - calls into the host engine that the game never reads back (sprites
      added, effects played, camera shakes) are emitted as commands, and
      [delayedCall]/tween completions are emitted as scheduled callbacks. *)

From Stdlib Require Import ZArith List Reals Lra Lia String Bool.
From stdpp Require Import gmap strings list fin_maps.

Local Open Scope Z_scope.

(** ** Host engine interface *)

(** Identity of an enemy object. *)
Definition ref := nat.

(** Sprites an enemy may be told to chase. *)
Inductive sprite :=
| ThePlayer
| AnEnemy (r : ref).

(** The four strings stored in [attackDirection] / [currentDirection]. *)
Inductive direction := DLeft | DRight | DUp | DDown.

(** Fire-and-forget calls into the presentation layer. *)
Inductive effect :=
| AddSprite (r : ref) (texture : string) (frame : option string)
| AddBody (r : ref)
| DeathExplosion (x y : R)
| SlashEffect (x y : R) (angle : Z) (flipX : bool)
| HitEffect (x y : R)
| ItemExplosion (worldX worldY : R)
| CameraShake (duration : Z) (intensity : R)
| DisplayWaveCounter (wave maxWaves : nat)
| ShowGameWon
| ShowGameOver
| PlayerFall
| ConsoleLog (msg : string).

(** Callbacks the game hands to [time.delayedCall], [time.addEvent] and
    [tweens.add ... onComplete]. *)
Inductive callback :=
| EnemyDestroy (r : ref)        (* Enemy.die: tween onComplete, this.destroy() *)
| EnemyClearStun (r : ref)      (* Player.hitEnemy: enemy.stunned = false *)
| EnemyClearTint (r : ref)      (* Player.hitEnemy: enemy.clearTint() *)
| AttackComplete (baseAngle : Z) (* Player.attack: tween onComplete *)
| KnockbackEnd                  (* Player.knockback: isKnockedBack = false *)
| PlayerClearTint               (* GameScene.playerHit: player.clearTint() *)
| InvincibilityFlash            (* GameScene.damagePlayer: alpha toggle *)
| InvincibilityEnd              (* GameScene.damagePlayer: playerInvincible = false *)
| PlayerDeathComplete           (* GameScene.playerDeath: showGameOver() *)
| TileTintReset (key : Z * Z) (originalTint : Z)
| NextWave.                     (* destroy handler: this.startNextWave() *)

(** What a method asks of the engine while it runs. [Schedule d cb] stands
    for a one-shot [delayedCall(d, cb)] or a tween of duration [d] whose
    [onComplete] is [cb]; [ScheduleRepeat d n cb] for
    [addEvent({delay: d, repeat: n, callback: cb})]. *)
Inductive cmd :=
| Emit (e : effect)
| Schedule (delay : Z) (cb : callback)
| ScheduleRepeat (delay : Z) (repeat : nat) (cb : callback).

(** Result of code that may [throw]: the commands issued before the
    exception stay issued. *)
Inductive outcome (A : Type) :=
| Return (a : A) (cmds : list cmd)
| Throw (msg : string) (cmds : list cmd).
Arguments Return {A} a cmds.
Arguments Throw {A} msg cmds.

Definition is_throw {A} (o : outcome A) : bool :=
  match o with Throw _ _ => true | Return _ _ => false end.

(** JavaScript [a || d] on an optional number: [undefined] and [0] are falsy. *)
Definition num_or (a : option R) (d : R) : R :=
  match a with
  | Some v => if Req_dec_T v 0 then d else v
  | None => d
  end.

(** A JavaScript number in code where [NaN] can arise: a real, or [NaN]. *)
Inductive number :=
| Num (r : R)
| NaN.

(** [ToNumber] of an argument that may have been left out: [undefined]
    converts to [NaN]. *)
Definition to_number (a : option R) : number :=
  match a with
  | Some r => Num r
  | None => NaN
  end.

(** An arithmetic operator or [Math] function of one and of two numbers:
    [NaN] in any operand gives [NaN] ([+], [*], [Math.sin], and also
    [Math.min] and [Math.max]). *)
Definition num_map (f : R -> R) (a : number) : number :=
  match a with
  | Num r => Num (f r)
  | NaN => NaN
  end.

Definition num_map2 (f : R -> R -> R) (a b : number) : number :=
  match a, b with
  | Num r1, Num r2 => Num (f r1 r2)
  | _, _ => NaN
  end.

(** JavaScript truthiness of an optional string: [undefined] and the empty
    string are falsy. *)
Definition truthy_string (a : option string) : bool :=
  match a with
  | Some s => negb (String.eqb s EmptyString)
  | None => false
  end.

(** ** Enemy.js *)
Module Enemy.

Record AnimKeys := mkAnimKeys {
  idleLeft : string;
  idleRight : string;
  runLeft : string;
  runRight : string
}.

(** The loose [config] bag of the constructor. *)
Record Config := mkConfig {
  texture : option string;
  frame : option string;
  scale : option R;
  bodySizeFactor : option R;
  bodySizeFactorY : option R;
  drag : option R;
  maxVelocity : option R;
  cspeed : option R;
  ctarget : option sprite;
  anims : option AnimKeys
}.

Record t := mk {
  oid : ref;
  x : R;
  y : R;
  velocity : R * R;
  bodyEnable : bool;
  speed : R;
  currentDirection : direction;
  target : option sprite;
  animKeys : AnimKeys;
  stunned : bool;
  hitsToKill : Z;
  hitsTaken : Z;
  lastHitTime : Z;
  hitCooldown : Z;
  isDying : bool;
  tint : option Z
}.

Definition set_velocity (v : R * R) (e : t) : t :=
  mk (oid e) (x e) (y e) v (bodyEnable e) (speed e) (currentDirection e)
     (target e) (animKeys e) (stunned e) (hitsToKill e) (hitsTaken e)
     (lastHitTime e) (hitCooldown e) (isDying e) (tint e).

Definition set_bodyEnable (b : bool) (e : t) : t :=
  mk (oid e) (x e) (y e) (velocity e) b (speed e) (currentDirection e)
     (target e) (animKeys e) (stunned e) (hitsToKill e) (hitsTaken e)
     (lastHitTime e) (hitCooldown e) (isDying e) (tint e).

Definition set_stunned (b : bool) (e : t) : t :=
  mk (oid e) (x e) (y e) (velocity e) (bodyEnable e) (speed e)
     (currentDirection e) (target e) (animKeys e) b (hitsToKill e)
     (hitsTaken e) (lastHitTime e) (hitCooldown e) (isDying e) (tint e).

Definition set_hitsTaken (n : Z) (e : t) : t :=
  mk (oid e) (x e) (y e) (velocity e) (bodyEnable e) (speed e)
     (currentDirection e) (target e) (animKeys e) (stunned e) (hitsToKill e)
     n (lastHitTime e) (hitCooldown e) (isDying e) (tint e).

Definition set_lastHitTime (n : Z) (e : t) : t :=
  mk (oid e) (x e) (y e) (velocity e) (bodyEnable e) (speed e)
     (currentDirection e) (target e) (animKeys e) (stunned e) (hitsToKill e)
     (hitsTaken e) n (hitCooldown e) (isDying e) (tint e).

Definition set_isDying (b : bool) (e : t) : t :=
  mk (oid e) (x e) (y e) (velocity e) (bodyEnable e) (speed e)
     (currentDirection e) (target e) (animKeys e) (stunned e) (hitsToKill e)
     (hitsTaken e) (lastHitTime e) (hitCooldown e) b (tint e).

Definition set_tint (c : option Z) (e : t) : t :=
  mk (oid e) (x e) (y e) (velocity e) (bodyEnable e) (speed e)
     (currentDirection e) (target e) (animKeys e) (stunned e) (hitsToKill e)
     (hitsTaken e) (lastHitTime e) (hitCooldown e) (isDying e) c.

(** Position, velocity and facing follow [update()] and the physics
    engine (chase steering is driven by positions the model leaves
    open). *)
Definition set_motion (px py : R) (v : R * R) (facing : direction) (e : t)
  : t :=
  mk (oid e) px py v (bodyEnable e) (speed e) facing (target e) (animKeys e)
     (stunned e) (hitsToKill e) (hitsTaken e) (lastHitTime e) (hitCooldown e)
     (isDying e) (tint e).

Definition msg_texture : string :=
  "Enemy requires a 'texture' property in the config.".

Definition msg_anims : string :=
  "Enemy requires an 'anims' object in the config with idleLeft, idleRight, runLeft, and runRight keys.".

(** [new Enemy(scene, x, y, config)]; [self] is the identity of the object
    being built. The texture check runs before anything else; the anims
    check runs after the sprite and its body were handed to the scene.
    The calls that only configure the engine's sprite and body (scale,
    world bounds, body size, damping, drag, maximal velocity) are not
    recorded. *)
Definition constructor (self : ref) (px py : R) (config : option Config)
  : outcome t :=
  match config with
  | None => Throw msg_texture []
  | Some c =>
    if negb (truthy_string (texture c)) then Throw msg_texture []
    else
      let added :=
        [Emit (AddSprite self (default EmptyString (texture c)) (frame c));
         Emit (AddBody self)] in
      match anims c with
      | None => Throw msg_anims added
      | Some keys =>
        Return
          {| oid := self; x := px; y := py;
             velocity := (0, 0)%R;
             bodyEnable := true;
             speed := num_or (cspeed c) 150;
             currentDirection := DRight;
             target := ctarget c;
             animKeys := keys;
             stunned := false;
             hitsToKill := 3;
             hitsTaken := 0;
             lastHitTime := 0;
             hitCooldown := 500;
             isDying := false;
             tint := None |}
          added
      end
  end.

(** [die()]: the body is disabled at once, the explosion is played at the
    current position, and the fade-out tween (500ms) destroys the sprite
    when it completes. *)
Definition die (e : t) : t * list cmd :=
  (set_bodyEnable false e,
   [Emit (DeathExplosion (x e) (y e)); Schedule 500 (EnemyDestroy (oid e))]).

(** [takeDamage(damage)]; [currentTime] is what [new Date().getTime()]
    returns during the call. *)
Definition takeDamage (damage : Z) (currentTime : Z) (e : t)
  : bool * t * list cmd :=
  if isDying e then (false, e, [])
  else if currentTime - lastHitTime e <? hitCooldown e then (false, e, [])
  else
    let e1 := set_lastHitTime currentTime e in
    let e2 := set_hitsTaken (hitsTaken e1 + 1) e1 in
    if hitsToKill e2 <=? hitsTaken e2 then
      let e3 := set_isDying true e2 in
      let '(e4, cmds) := die e3 in
      (true, e4, cmds)
    else (false, e2, []).

(** Replaying a list of [takeDamage] calls, each with its clock reading. *)
Definition after_call (e : t) (call : Z * Z) : t :=
  snd (fst (takeDamage (fst call) (snd call) e)).

Definition after_calls (calls : list (Z * Z)) (e : t) : t :=
  fold_left after_call calls e.

(** A call is accepted when it moved the hit counter. *)
Definition accepted (e : t) (call : Z * Z) : bool :=
  negb (hitsTaken (after_call e call) =? hitsTaken e).

(** Clock reading of the most recent accepted call of a replay, if any. *)
Fixpoint last_accepted (calls : list (Z * Z)) (e : t) (seen : option Z)
  : option Z :=
  match calls with
  | [] => seen
  | c :: rest =>
    last_accepted rest (after_call e c)
      (if accepted e c then Some (snd c) else seen)
  end.

End Enemy.

(** ** Player.js *)
Module Player.

Record t := mk {
  x : R;
  y : R;
  velocity : R * R;
  currentDirection : direction;
  attackDirection : direction;
  isAttacking : bool;
  isKnockedBack : bool;
  knockbackDuration : Z;
  swordVisible : bool;
  swordAngle : Z;
  swordFlipX : bool;
  hitboxEnable : bool;          (* swordHitbox.body.enable *)
  attackDuration : Z;
  attackDamage : Z;
  knockbackForce : R;
  tint : option Z;
  alpha : R
}.

Definition set_velocity (v : R * R) (p : t) : t :=
  mk (x p) (y p) v (currentDirection p) (attackDirection p) (isAttacking p)
     (isKnockedBack p) (knockbackDuration p) (swordVisible p) (swordAngle p)
     (swordFlipX p) (hitboxEnable p) (attackDuration p) (attackDamage p)
     (knockbackForce p) (tint p) (alpha p).

Definition set_isKnockedBack (b : bool) (p : t) : t :=
  mk (x p) (y p) (velocity p) (currentDirection p) (attackDirection p)
     (isAttacking p) b (knockbackDuration p) (swordVisible p) (swordAngle p)
     (swordFlipX p) (hitboxEnable p) (attackDuration p) (attackDamage p)
     (knockbackForce p) (tint p) (alpha p).

Definition set_tint (c : option Z) (p : t) : t :=
  mk (x p) (y p) (velocity p) (currentDirection p) (attackDirection p)
     (isAttacking p) (isKnockedBack p) (knockbackDuration p) (swordVisible p)
     (swordAngle p) (swordFlipX p) (hitboxEnable p) (attackDuration p)
     (attackDamage p) (knockbackForce p) c (alpha p).

Definition set_alpha (a : R) (p : t) : t :=
  mk (x p) (y p) (velocity p) (currentDirection p) (attackDirection p)
     (isAttacking p) (isKnockedBack p) (knockbackDuration p) (swordVisible p)
     (swordAngle p) (swordFlipX p) (hitboxEnable p) (attackDuration p)
     (attackDamage p) (knockbackForce p) (tint p) a.

(** The sword sprite and its hitbox, as [attack()] and its tween
    completion set them together with [isAttacking]. *)
Definition set_swing (attacking visible : bool) (angle : Z) (flip : bool)
    (enable : bool) (p : t) : t :=
  mk (x p) (y p) (velocity p) (currentDirection p) (attackDirection p)
     attacking (isKnockedBack p) (knockbackDuration p) visible angle flip
     enable (attackDuration p) (attackDamage p) (knockbackForce p) (tint p)
     (alpha p).

(** Position, facing and attack direction follow the cursor keys and the
    physics engine ([update()] is driven by input the model leaves
    open). *)
Definition set_motion (px py : R) (v : R * R) (facing attack : direction)
    (p : t) : t :=
  mk px py v facing attack (isAttacking p) (isKnockedBack p)
     (knockbackDuration p) (swordVisible p) (swordAngle p) (swordFlipX p)
     (hitboxEnable p) (attackDuration p) (attackDamage p) (knockbackForce p)
     (tint p) (alpha p).

(** [new Player(scene, x, y)]. *)
Definition constructor (px py : R) : t :=
  {| x := px; y := py;
     velocity := (0, 0)%R;
     currentDirection := DRight;
     attackDirection := DRight;
     isAttacking := false;
     isKnockedBack := false;
     knockbackDuration := 300;
     swordVisible := false;
     swordAngle := 0;
     swordFlipX := false;
     hitboxEnable := false;
     attackDuration := 200;
     attackDamage := 10;
     knockbackForce := 200;
     tint := None;
     alpha := 1 |}.

(** The per-direction table of [attack()]:
    (baseAngle, flipX, slashOffsetX, slashOffsetY, slashAngle). *)
Definition swing (d : direction) : Z * bool * R * R * Z :=
  match d with
  | DRight => (0, false, 20%R, 0%R, 0)
  | DLeft => (0, true, (-20)%R, 0%R, 0)
  | DUp => (-90, false, 0%R, (-20)%R, -90)
  | DDown => (90, false, 0%R, 20%R, 90)
  end.

(** [attack()]. *)
Definition attack (p : t) : t * list cmd :=
  if isAttacking p then (p, [])
  else
    let '(baseAngle, flipX, slashOffsetX, slashOffsetY, slashAngle) :=
      swing (attackDirection p) in
    let startAngle := baseAngle - 60 in
    (set_swing true true startAngle flipX true p,
     [Emit (SlashEffect (x p + slashOffsetX)%R (y p + slashOffsetY)%R
              slashAngle flipX);
      Schedule (attackDuration p) (AttackComplete baseAngle)]).

(** [onComplete] of the swing tween. *)
Definition attackComplete (baseAngle : Z) (p : t) : t :=
  set_swing false false baseAngle (swordFlipX p) false p.

(** [hitEnemy(enemy)]; [currentTime] is the wall clock read by the
    enemy's [takeDamage]. The player itself is not modified. *)
Definition hitEnemy (currentTime : Z) (p : t) (enemy : Enemy.t)
  : bool * Enemy.t * list cmd :=
  if negb (isAttacking p) then (false, enemy, [])
  else
    let '(knockbackX, knockbackY) :=
      match attackDirection p with
      | DRight => (knockbackForce p, 0)
      | DLeft => (- knockbackForce p, 0)
      | DUp => (0, - knockbackForce p)
      | DDown => (0, knockbackForce p)
      end%R in
    let e1 := Enemy.set_velocity (knockbackX, knockbackY) enemy in
    let '(e2, c1) :=
      if negb (Enemy.stunned e1)
      then (Enemy.set_stunned true e1,
            [Schedule 500 (EnemyClearStun (Enemy.oid e1))])
      else (e1, []) in
    let e3 := Enemy.set_tint (Some 16711680) e2 in
    let c2 := [Schedule 150 (EnemyClearTint (Enemy.oid e3))] in
    let '(wasKilled, e4, c3) := Enemy.takeDamage (attackDamage p) currentTime e3 in
    let c4 :=
      [Emit (ConsoleLog (if wasKilled then "Enemy killed!"
                         else "Enemy hit with force:"))] in
    (true, e4, c1 ++ c2 ++ c3 ++ c4).

(** [knockback(velocityX, velocityY)]. *)
Definition knockback (velocityX velocityY : R) (p : t) : t * list cmd :=
  (set_velocity (velocityX, velocityY) (set_isKnockedBack true p),
   [Schedule (knockbackDuration p) KnockbackEnd]).

End Player.

(** ** UI.js (the class [UI]; its text is kept at the end of
    [utils/Debug.js]) *)
Module UI.

(** A heart image of the health bar. *)
Record Heart := mkHeart {
  heartX : Z;
  visible : bool;
  alpha : R;
  scale : R
}.

(** [heartPulseTween] records whether a pulse tween is running; while it
    runs the engine animates scale and alpha of [hearts[0]]. *)
Record t := mk {
  isPaused : bool;
  maxHealth : Z;
  currentHealth : Z;
  hearts : list Heart;
  heartPulseTween : bool
}.

(** What [togglePause()] asks of the engine. *)
Inductive call :=
| PhysicsPause
| PhysicsResume
| TimePaused (b : bool)
| ShowPauseOverlay
| HidePauseOverlay.

(** [createHealthDisplay()]: one heart per health point, each put at the
    front of [hearts] ([unshift]). *)
Definition createHealthDisplay (maxHealth : Z) : list Heart :=
  let leftEdge := 200 in
  let heartSpacing := 12 in
  fold_left
    (fun hearts i =>
       mkHeart (leftEdge + 35 + Z.of_nat i * heartSpacing) true 1 (7 / 10)
       :: hearts)
    (seq 0 (Z.to_nat maxHealth)) [].

(** [new UI(scene, playerHealth = 5)]. *)
Definition constructor (playerHealth : option Z) : t :=
  let h := default 5 playerHealth in
  {| isPaused := false; maxHealth := h; currentHealth := h;
     hearts := createHealthDisplay h; heartPulseTween := false |}.

(** [startHeartPulse()]. *)
Definition startHeartPulse (u : t) : t :=
  if negb (heartPulseTween u) && (0 <? length (hearts u))%nat
  then mk (isPaused u) (maxHealth u) (currentHealth u) (hearts u) true
  else u.

(** [stopHeartPulse()]. *)
Definition stopHeartPulse (u : t) : t :=
  if heartPulseTween u then
    mk (isPaused u) (maxHealth u) (currentHealth u)
       ((fun h =>
           mkHeart (heartX h) (visible h)
             (if visible h then 1 else 3 / 10)%R 1)
          <$> hearts u)
       false
  else u.

(** [updateHealth(health)]. *)
Definition updateHealth (health : Z) (u : t) : t :=
  let current := Z.max 0 (Z.min health (maxHealth u)) in
  let shown :=
    imap (fun i h =>
            if Z.of_nat i <? current
            then mkHeart (heartX h) true 1 (scale h)
            else mkHeart (heartX h) (visible h) (3 / 10) (scale h))
         (hearts u) in
  let u1 := mk (isPaused u) (maxHealth u) current shown (heartPulseTween u) in
  if current =? 1 then startHeartPulse u1 else stopHeartPulse u1.

(** [damagePlayer(amount = 1)]: the value returned is the difference
    before clamping. *)
Definition damagePlayer (amount : Z) (u : t) : Z * t * list cmd :=
  let newHealth := currentHealth u - amount in
  (newHealth, updateHealth newHealth u,
   [Emit (CameraShake 200 (1 / 100)%R)]).

(** [healPlayer(amount = 1)]. *)
Definition healPlayer (amount : Z) (u : t) : Z * t :=
  let newHealth := currentHealth u + amount in
  (newHealth, updateHealth newHealth u).

(** [togglePause()]. *)
Definition togglePause (u : t) : t * list call :=
  let paused := negb (isPaused u) in
  (mk paused (maxHealth u) (currentHealth u) (hearts u) (heartPulseTween u),
   if paused then [PhysicsPause; TimePaused true; ShowPauseOverlay]
   else [PhysicsResume; TimePaused false; HidePauseOverlay]).

End UI.

(** ** The health of the spec, in its own words *)
Module HealthModel.

Record t := mk {
  health : Z;
  maxHealth : Z
}.

(** The player starts at full health. *)
Definition constructor (maxHealth : Z) : t :=
  {| health := maxHealth; maxHealth := maxHealth |}.

(** The spec (4.4) gives an integer health in [0, maxHealth] and says that
    damage clamps the result into that range; the call returns the new
    health. This is the spec's side of the comparison with
    [UI.damagePlayer]; the scene runs the latter. *)
Definition damagePlayer (amount : Z) (u : t) : Z * t :=
  let h := Z.max 0 (Z.min (maxHealth u) (health u - amount)) in
  (h, {| health := h; maxHealth := maxHealth u |}).

End HealthModel.

(** The part of the display the spec speaks of. *)
Definition gauge (u : UI.t) : HealthModel.t :=
  {| HealthModel.health := UI.currentHealth u;
     HealthModel.maxHealth := UI.maxHealth u |}.

(** ** The host engine as the scene sees it *)
Module Engine.

(** [now] is [scene.time.now]; [timers] holds the pending callbacks with
    the clock value at which each becomes due; [effects] is the trace of
    presentation calls. [between k lo hi] is the value of the [k]-th draw
    when it is a [Phaser.Math.Between(lo, hi)], [random k] when it is a
    [Math.random()]; [draws] counts the draws made so far.
    [angleBetween] is [Phaser.Math.Angle.Between]. *)
Record t := mk {
  now : Z;
  timers : list (Z * callback);
  effects : list effect;
  draws : nat;
  between : nat -> Z -> Z -> Z;
  random : nat -> R;
  angleBetween : R -> R -> R -> R -> R
}.

Definition set_now (n : Z) (g : t) : t :=
  mk n (timers g) (effects g) (draws g) (between g) (random g)
     (angleBetween g).

Definition set_timers (l : list (Z * callback)) (g : t) : t :=
  mk (now g) l (effects g) (draws g) (between g) (random g)
     (angleBetween g).

Definition set_effects (l : list effect) (g : t) : t :=
  mk (now g) (timers g) l (draws g) (between g) (random g)
     (angleBetween g).

Definition set_draws (n : nat) (g : t) : t :=
  mk (now g) (timers g) (effects g) n (between g) (random g)
     (angleBetween g).

(** The due times of [addEvent({delay, repeat})]: [repeat + 1] firings,
    one every [delay] milliseconds. *)
Definition repeats (start delay : Z) (repeat : nat) (cb : callback)
  : list (Z * callback) :=
  map (fun k => (start + delay * Z.of_nat (S k), cb)) (seq 0 (S repeat)).

Definition exec1 (g : t) (c : cmd) : t :=
  match c with
  | Emit e => set_effects (effects g ++ [e]) g
  | Schedule delay cb => set_timers (timers g ++ [(now g + delay, cb)]) g
  | ScheduleRepeat delay repeat cb =>
    set_timers (timers g ++ repeats (now g) delay repeat cb) g
  end.

Definition exec (cmds : list cmd) (g : t) : t := fold_left exec1 cmds g.

(** [Phaser.Math.Distance.Between]. *)
Definition distanceBetween (x1 y1 x2 y2 : R) : R :=
  sqrt ((x1 - x2) * (x1 - x2) + (y1 - y2) * (y1 - y2)).

End Engine.

(** ** GameScene.js *)
Module GameScene.

Record TileProps := mkProps {
  collides : bool;
  breakable : bool
}.

(** A non-empty cell of a tile layer. *)
Record Tile := mkTile {
  properties : option TileProps;
  tileTint : Z
}.

Definition set_tileTint (c : Z) (tl : Tile) : Tile :=
  mkTile (properties tl) c.

(** A layer maps tile coordinates to its non-empty cells; [getTileAt] is
    the lookup, [removeTileAt] the deletion. *)
Abbreviation layer := (gmap (Z * Z) Tile).

Record Tilemap := mkMap {
  widthInPixels : Z;
  heightInPixels : Z;
  tileWidth : Z;
  tileHeight : Z;
  worldToTileX : Z -> Z;
  worldToTileY : Z -> Z
}.

(** A record of [breakableItems]. The key string [`${tile.x},${tile.y}`]
    is kept as the pair it encodes; [tile] names the tracked cell. *)
Record Item := mkItem {
  tile : Z * Z;
  hits : Z;
  maxHits : Z;
  lastHitTime : Z
}.

Record t := mk {
  engine : Engine.t;
  map : Tilemap;
  wallsLayer : layer;
  itemsLayer : layer;
  breakableItems : gmap (Z * Z) Item;
  playerMaxHealth : Z;
  invincibilityTime : Z;
  playerInvincible : bool;
  player : Player.t;
  ui : UI.t;
  currentWave : nat;
  maxWaves : nat;
  enemies : list ref;
  objects : gmap ref Enemy.t;
  nextRef : ref
}.

Definition set_engine (g : Engine.t) (s : t) : t :=
  mk g (map s) (wallsLayer s) (itemsLayer s) (breakableItems s)
     (playerMaxHealth s) (invincibilityTime s) (playerInvincible s)
     (player s) (ui s) (currentWave s) (maxWaves s) (enemies s) (objects s)
     (nextRef s).

Definition set_itemsLayer (l : layer) (s : t) : t :=
  mk (engine s) (map s) (wallsLayer s) l (breakableItems s)
     (playerMaxHealth s) (invincibilityTime s) (playerInvincible s)
     (player s) (ui s) (currentWave s) (maxWaves s) (enemies s) (objects s)
     (nextRef s).

Definition set_breakableItems (b : gmap (Z * Z) Item) (s : t) : t :=
  mk (engine s) (map s) (wallsLayer s) (itemsLayer s) b
     (playerMaxHealth s) (invincibilityTime s) (playerInvincible s)
     (player s) (ui s) (currentWave s) (maxWaves s) (enemies s) (objects s)
     (nextRef s).

Definition set_playerInvincible (b : bool) (s : t) : t :=
  mk (engine s) (map s) (wallsLayer s) (itemsLayer s) (breakableItems s)
     (playerMaxHealth s) (invincibilityTime s) b
     (player s) (ui s) (currentWave s) (maxWaves s) (enemies s) (objects s)
     (nextRef s).

Definition set_player (p : Player.t) (s : t) : t :=
  mk (engine s) (map s) (wallsLayer s) (itemsLayer s) (breakableItems s)
     (playerMaxHealth s) (invincibilityTime s) (playerInvincible s)
     p (ui s) (currentWave s) (maxWaves s) (enemies s) (objects s)
     (nextRef s).

Definition set_ui (u : UI.t) (s : t) : t :=
  mk (engine s) (map s) (wallsLayer s) (itemsLayer s) (breakableItems s)
     (playerMaxHealth s) (invincibilityTime s) (playerInvincible s)
     (player s) u (currentWave s) (maxWaves s) (enemies s) (objects s)
     (nextRef s).

Definition set_currentWave (n : nat) (s : t) : t :=
  mk (engine s) (map s) (wallsLayer s) (itemsLayer s) (breakableItems s)
     (playerMaxHealth s) (invincibilityTime s) (playerInvincible s)
     (player s) (ui s) n (maxWaves s) (enemies s) (objects s)
     (nextRef s).

Definition set_enemies (l : list ref) (s : t) : t :=
  mk (engine s) (map s) (wallsLayer s) (itemsLayer s) (breakableItems s)
     (playerMaxHealth s) (invincibilityTime s) (playerInvincible s)
     (player s) (ui s) (currentWave s) (maxWaves s) l (objects s)
     (nextRef s).

Definition set_objects (o : gmap ref Enemy.t) (s : t) : t :=
  mk (engine s) (map s) (wallsLayer s) (itemsLayer s) (breakableItems s)
     (playerMaxHealth s) (invincibilityTime s) (playerInvincible s)
     (player s) (ui s) (currentWave s) (maxWaves s) (enemies s) o
     (nextRef s).

Definition set_nextRef (r : ref) (s : t) : t :=
  mk (engine s) (map s) (wallsLayer s) (itemsLayer s) (breakableItems s)
     (playerMaxHealth s) (invincibilityTime s) (playerInvincible s)
     (player s) (ui s) (currentWave s) (maxWaves s) (enemies s) (objects s)
     r.

(** Hands the commands of a method to the engine. *)
Definition run (cmds : list cmd) (s : t) : t :=
  set_engine (Engine.exec cmds (engine s)) s.

(** How a scene method ends: normally, or by an uncaught exception (the
    mutations made before it stay). *)
Inductive completion :=
| Normal (s : t)
| Thrown (msg : string) (s : t).

Definition state_of (c : completion) : t :=
  match c with Normal s => s | Thrown _ s => s end.

(** *** Breakable items *)

Definition has_flag (flag : TileProps -> bool) (tl : Tile) : bool :=
  match properties tl with
  | Some p => flag p
  | None => false
  end.

(** The record [initBreakableItems] stores for a breakable cell. *)
Definition track (key : Z * Z) (tl : Tile) : option Item :=
  if has_flag breakable tl
  then Some {| tile := key; hits := 0; maxHits := 2; lastHitTime := 0 |}
  else None.

(** [initBreakableItems()]: every breakable cell of the items layer gets
    a fresh record, replacing a record already stored under its key. *)
Definition initBreakableItems (s : t) : t :=
  let fresh := map_imap track (itemsLayer s) in
  run [Emit (ConsoleLog "Initialized breakable items")]
      (set_breakableItems (fresh ∪ breakableItems s) s).

(** [createItemExplosion(scene, tileX, tileY)] of Effects.js: the effect
    is placed at the world-space centre of the cell. *)
Definition createItemExplosion (m : Tilemap) (tileX tileY : Z) : effect :=
  let worldX := (IZR tileX * IZR (tileWidth m) + IZR (tileWidth m) / 2)%R in
  let worldY := (IZR tileY * IZR (tileHeight m) + IZR (tileHeight m) / 2)%R in
  ItemExplosion worldX worldY.

(** [hitBreakableItem(tileKey)]. Reading [item.lastHitTime] of a key that
    is not tracked is a TypeError. *)
Definition hitBreakableItem (tileKey : Z * Z) (s : t) : completion :=
  match breakableItems s !! tileKey with
  | None => Thrown "TypeError: item is undefined" s
  | Some item =>
    let '(tileX, tileY) := tileKey in
    let now := Engine.now (engine s) in
    if negb (lastHitTime item =? 0) && (now - lastHitTime item <? 500)
    then Normal s
    else
      let item1 :=
        {| tile := tile item; hits := hits item + 1;
           maxHits := maxHits item; lastHitTime := now |} in
      let s1 := set_breakableItems (<[tileKey := item1]> (breakableItems s)) s in
      let originalTint :=
        default 0 (tileTint <$> itemsLayer s1 !! tile item1) in
      let s2 :=
        set_itemsLayer (alter (set_tileTint 16711680) (tile item1)
                          (itemsLayer s1)) s1 in
      let s3 :=
        run [Schedule 100 (TileTintReset (tile item1) originalTint);
             Emit (CameraShake 100 (5 / 1000)%R);
             Emit (ConsoleLog "Hit item")] s2 in
      if maxHits item1 <=? hits item1 then
        let s4 := run [Emit (createItemExplosion (map s3) tileX tileY)] s3 in
        let s5 := set_itemsLayer (delete (tileX, tileY) (itemsLayer s4)) s4 in
        let s6 := set_breakableItems (delete tileKey (breakableItems s5)) s5 in
        Normal (run [Emit (ConsoleLog "Broke item")] s6)
      else Normal s3
  end.

(** The loop of [checkSwordItemCollisions()] over the tiles returned by
    [getTilesWithinShape]; an entry is [None] for a null tile or one of
    index -1, else the coordinates of the tile. *)
Fixpoint checkTiles (tiles : list (option (Z * Z))) (checkedTiles : gset (Z * Z))
    (s : t) : completion :=
  match tiles with
  | [] => Normal s
  | None :: rest => checkTiles rest checkedTiles s
  | Some tileKey :: rest =>
    if decide (tileKey ∈ checkedTiles) then checkTiles rest checkedTiles s
    else
      let checkedTiles := {[tileKey]} ∪ checkedTiles in
      match breakableItems s !! tileKey with
      | Some _ =>
        match hitBreakableItem tileKey s with
        | Normal s1 => checkTiles rest checkedTiles s1
        | Thrown msg s1 => Thrown msg s1
        end
      | None => checkTiles rest checkedTiles s
      end
  end.

(** [checkSwordItemCollisions()]. *)
Definition checkSwordItemCollisions (tiles : list (option (Z * Z))) (s : t)
  : completion :=
  if negb (Player.isAttacking (player s))
     || negb (Player.hitboxEnable (player s))
  then Normal s
  else checkTiles tiles ∅ s.

(** *** Player health *)

(** [playerDeath()]: the player is tinted and falls; the game-over screen
    is shown when the 500ms tween completes. *)
Definition playerDeath (s : t) : t :=
  run [Emit PlayerFall; Schedule 500 PlayerDeathComplete]
      (set_player (Player.set_tint (Some 16711680) (player s)) s).

(** [damagePlayer()]. *)
Definition damagePlayer (s : t) : t :=
  if playerInvincible s then s
  else
    let s1 := run [Emit (CameraShake 100 (1 / 100)%R)] s in
    let '(newHealth, u, cmds) := UI.damagePlayer 1 (ui s1) in
    let s2 := run cmds (set_ui u s1) in
    if newHealth <=? 0 then playerDeath s2
    else
      let s3 := set_playerInvincible true s2 in
      let s4 := set_player (Player.set_alpha (1 / 2)%R (player s3)) s3 in
      run [ScheduleRepeat 150 5 InvincibilityFlash;
           Schedule (invincibilityTime s4) InvincibilityEnd] s4.

(** *** Waves *)

Record Search := mkSearch {
  pos : option (Z * Z);          (* the variables [x], [y] *)
  validPosition : bool;
  attempts : nat;
  drawn : nat                    (* draws made from the random source *)
}.

(** [!tile || !tile.properties || !tile.properties.flag]. *)
Definition lacks (flag : TileProps -> bool) (tl : option Tile) : bool :=
  match tl with
  | None => true
  | Some c => negb (has_flag flag c)
  end.

(** One pass through the body of the [while] of [getValidSpawnPoint]. *)
Definition attempt (s : t) (st : Search) : Search :=
  let mapWidth := widthInPixels (map s) in
  let mapHeight := heightInPixels (map s) in
  let minDistanceFromPlayer := 100%R in
  let x := Engine.between (engine s) (drawn st) 50 (mapWidth - 50) in
  let y := Engine.between (engine s) (S (drawn st)) 50 (mapHeight - 50) in
  let distanceToPlayer :=
    Engine.distanceBetween (IZR x) (IZR y)
      (Player.x (player s)) (Player.y (player s)) in
  let tileX := worldToTileX (map s) x in
  let tileY := worldToTileY (map s) y in
  let wallTile := wallsLayer s !! (tileX, tileY) in
  let itemTile := itemsLayer s !! (tileX, tileY) in
  let ok :=
    lacks collides wallTile && lacks breakable itemTile
    && (if Rgt_dec distanceToPlayer minDistanceFromPlayer then true else false) in
  {| pos := Some (x, y);
     validPosition := if ok then true else validPosition st;
     attempts := S (attempts st);
     drawn := S (S (drawn st)) |}.

(** [while (!validPosition && attempts < 50) { ... }], unrolled at most
    [fuel] times. *)
Fixpoint search (fuel : nat) (s : t) (st : Search) : Search :=
  match fuel with
  | O => st
  | S fuel' =>
    if negb (validPosition st) && (attempts st <? 50)%nat
    then search fuel' s (attempt s st)
    else st
  end.

Definition search_start (s : t) : Search :=
  {| pos := None; validPosition := false; attempts := 0;
     drawn := Engine.draws (engine s) |}.

(** [getValidSpawnPoint()]: the returned object [{x, y}], [None] standing
    for coordinates left undefined, and the scene with the draws
    consumed. Fifty unrollings exhaust the loop ([search_exhausted]). *)
Definition getValidSpawnPoint (s : t) : option (R * R) * t :=
  let st := search 50 s (search_start s) in
  if negb (validPosition st) then
    let angle := (Engine.random (engine s) (drawn st) * PI * 2)%R in
    let x := (Player.x (player s) + cos angle * 150)%R in
    let y := (Player.y (player s) + sin angle * 150)%R in
    (Some (x, y), set_engine (Engine.set_draws (S (drawn st)) (engine s)) s)
  else
    ((fun p => (IZR (fst p), IZR (snd p))) <$> pos st,
     set_engine (Engine.set_draws (drawn st) (engine s)) s).

Definition enemyConfig : Enemy.Config :=
  {| Enemy.texture := Some "goblin"%string;
     Enemy.frame := Some "goblin_idle_anim_f0.png"%string;
     Enemy.scale := Some (12 / 10)%R;
     Enemy.bodySizeFactor := Some (7 / 10)%R;
     Enemy.bodySizeFactorY := Some (9 / 10)%R;
     Enemy.drag := Some (5 / 10000)%R;
     Enemy.maxVelocity := Some 150%R;
     Enemy.cspeed := Some 50%R;
     Enemy.ctarget := Some ThePlayer;
     Enemy.anims :=
       Some {| Enemy.idleLeft := "goblin-idle-left";
               Enemy.idleRight := "goblin-idle-right";
               Enemy.runLeft := "goblin-run-left";
               Enemy.runRight := "goblin-run-right" |} |}.

(** [spawnEnemy(x, y)]: the enemy is built, its colliders and destroy
    handler are registered with the engine (from then on the engine may
    report sword overlaps and touches for it, and runs [onEnemyDestroy]
    when it is destroyed), and it is pushed on [enemies]. *)
Definition spawnEnemy (x y : R) (s : t) : completion :=
  let self := nextRef s in
  let s1 := set_nextRef (S self) s in
  match Enemy.constructor self x y (Some enemyConfig) with
  | Throw msg cmds => Thrown msg (run cmds s1)
  | Return enemy cmds =>
    let s2 := run cmds s1 in
    let s3 := set_objects (<[self := enemy]> (objects s2)) s2 in
    Normal (set_enemies (enemies s3 ++ [self]) s3)
  end.

(** [for (let i = 0; i < enemiesToSpawn; i++) { ... }]. The coordinates of
    a spawn point are never undefined ([getValidSpawnPoint_defined]); the
    branch for that case is dead. *)
Fixpoint spawnLoop (enemiesToSpawn : nat) (s : t) : completion :=
  match enemiesToSpawn with
  | O => Normal s
  | S n =>
    match getValidSpawnPoint s with
    | (Some (x, y), s1) =>
      match spawnEnemy x y s1 with
      | Normal s2 => spawnLoop n s2
      | Thrown msg s2 => Thrown msg s2
      end
    | (None, s1) => Thrown "spawnPoint has no coordinates" s1
    end
  end.

(** [showGameWon()], [showGameOver()] and [displayWaveCounter()] build
    texts and animate them; the timers and tweens they start touch those
    texts only, and each is kept as one presentation call. The restart key
    armed by the game-over screen ends the session. *)
Definition showGameWon (s : t) : t := run [Emit ShowGameWon] s.

Definition showGameOver (s : t) : t := run [Emit ShowGameOver] s.

Definition displayWaveCounter (s : t) : t :=
  run [Emit (DisplayWaveCounter (currentWave s) (maxWaves s))] s.

(** [startNextWave()]. *)
Definition startNextWave (s : t) : completion :=
  let s1 := set_currentWave (S (currentWave s)) s in
  if (maxWaves s1 <? currentWave s1)%nat then Normal (showGameWon s1)
  else
    let enemiesToSpawn := currentWave s1 in
    match spawnLoop enemiesToSpawn s1 with
    | Normal s2 => Normal (displayWaveCounter s2)
    | Thrown msg s2 => Thrown msg s2
    end.

(** The ['destroy'] handler registered by [spawnEnemy] for [enemy]. *)
Definition onEnemyDestroy (enemy : ref) (s : t) : t :=
  let s1 := set_enemies (filter (fun e => e ≠ enemy) (enemies s)) s in
  if (length (enemies s1) =? 0)%nat
  then run [Schedule 1000 NextWave] s1
  else s1.

(** *** Collision callbacks *)

(** [playerHit(player, enemy)]. *)
Definition playerHit (enemy : Enemy.t) (s : t) : t :=
  let s1 :=
    run [Schedule 100 PlayerClearTint]
        (set_player (Player.set_tint (Some 16711680) (player s)) s) in
  let angle :=
    Engine.angleBetween (engine s1) (Enemy.x enemy) (Enemy.y enemy)
      (Player.x (player s1)) (Player.y (player s1)) in
  let knockbackSpeed := 300%R in
  let '(p, cmds) :=
    Player.knockback (cos angle * knockbackSpeed) (sin angle * knockbackSpeed)
      (player s1) in
  let s2 := run cmds (set_player p s1) in
  let s3 :=
    run [Emit (HitEffect (Player.x (player s2) - cos angle * 10)
                         (Player.y (player s2) - sin angle * 10))%R] s2 in
  damagePlayer s3.

(** [swordHit(swordHitbox, enemy)] on the enemy object [r]. *)
Definition swordHit (currentTime : Z) (r : ref) (s : t) : t :=
  match objects s !! r with
  | None => s
  | Some enemy =>
    let '(hit, enemy1, cmds) := Player.hitEnemy currentTime (player s) enemy in
    let s1 := run cmds (set_objects (<[r := enemy1]> (objects s)) s) in
    if hit then
      let s2 := run [Emit (CameraShake 100 (5 / 1000)%R)] s1 in
      let angle :=
        Engine.angleBetween (engine s2)
          (Player.x (player s2)) (Player.y (player s2))
          (Enemy.x enemy1) (Enemy.y enemy1) in
      run [Emit (HitEffect (Enemy.x enemy1 - cos angle * 10)
                           (Enemy.y enemy1 - sin angle * 10))%R] s2
    else s1
  end.

(** *** Scheduled callbacks and engine events *)

(** A field update through a reference to an enemy object. *)
Definition on_object (f : Enemy.t -> Enemy.t) (r : ref) (s : t) : t :=
  set_objects (alter f r (objects s)) s.

(** The body of each scheduled callback. *)
Definition runCallback (cb : callback) (s : t) : completion :=
  match cb with
  | EnemyDestroy r => Normal (onEnemyDestroy r s)
  | EnemyClearStun r => Normal (on_object (Enemy.set_stunned false) r s)
  | EnemyClearTint r => Normal (on_object (Enemy.set_tint None) r s)
  | AttackComplete baseAngle =>
    Normal (set_player (Player.attackComplete baseAngle (player s)) s)
  | KnockbackEnd =>
    Normal (set_player (Player.set_isKnockedBack false (player s)) s)
  | PlayerClearTint =>
    Normal (set_player (Player.set_tint None (player s)) s)
  | InvincibilityFlash =>
    let a := Player.alpha (player s) in
    Normal (set_player
              (Player.set_alpha (if Req_dec_T a 1 then (1 / 2)%R else 1%R)
                 (player s)) s)
  | InvincibilityEnd =>
    Normal (set_player (Player.set_alpha 1%R (player s))
              (set_playerInvincible false s))
  | PlayerDeathComplete => Normal (showGameOver s)
  | TileTintReset key originalTint =>
    Normal (set_itemsLayer (alter (set_tileTint originalTint) key
                              (itemsLayer s)) s)
  | NextWave => startNextWave s
  end.

(** What the engine may do between two game callbacks. Callbacks that are
    due may run late and in any order; overlaps and touches are reported
    only for enemies still registered; movement is left open. *)
Inductive event :=
| Tick (time : Z)
| Fire (i : nat)
| Move (px py : R) (v : R * R) (facing attack : direction)
| EnemyMove (r : ref) (px py : R) (v : R * R) (facing : direction)
| Attack
| SwordOverlap (r : ref) (currentTime : Z)
| EnemyTouch (r : ref)
| SwordTiles (tiles : list (option (Z * Z))).

(** The scene after an engine event; [None] when the event cannot occur
    in [s] (the clock does not run backwards, a callback fires only once
    due, collisions need a registered enemy). An exception thrown by a
    callback ends that callback only. *)
Definition handle (ev : event) (s : t) : option t :=
  match ev with
  | Tick time =>
    if Engine.now (engine s) <=? time
    then Some (set_engine (Engine.set_now time (engine s)) s)
    else None
  | Fire i =>
    match Engine.timers (engine s) !! i with
    | Some (due, cb) =>
      if due <=? Engine.now (engine s) then
        let g := Engine.set_timers (delete i (Engine.timers (engine s)))
                   (engine s) in
        Some (state_of (runCallback cb (set_engine g s)))
      else None
    | None => None
    end
  | Move px py v facing attack =>
    Some (set_player (Player.set_motion px py v facing attack (player s)) s)
  | EnemyMove r px py v facing =>
    if bool_decide (r ∈ enemies s)
    then Some (on_object (Enemy.set_motion px py v facing) r s)
    else None
  | Attack =>
    let '(p, cmds) := Player.attack (player s) in
    Some (run cmds (set_player p s))
  | SwordOverlap r currentTime =>
    if bool_decide (r ∈ enemies s) then Some (swordHit currentTime r s)
    else None
  | EnemyTouch r =>
    if bool_decide (r ∈ enemies s) then
      match objects s !! r with
      | Some enemy => Some (playerHit enemy s)
      | None => None
      end
    else None
  | SwordTiles tiles => Some (state_of (checkSwordItemCollisions tiles s))
  end.

(** The fields as [constructor()] and the head of [create()] assign them,
    for the engine, map and layers the scene is started with. *)
Definition boot (g : Engine.t) (m : Tilemap) (walls items : layer) : t :=
  {| engine := g; map := m; wallsLayer := walls; itemsLayer := items;
     breakableItems := ∅;
     playerMaxHealth := 5;
     invincibilityTime := 1000;
     playerInvincible := false;
     player := Player.constructor 100 280;
     ui := UI.constructor (Some 5);
     currentWave := 0;
     maxWaves := 5;
     enemies := [];
     objects := ∅;
     nextRef := 0%nat |}.

(** [create()]: the breakable items are indexed and the first wave is
    started. *)
Definition create (g : Engine.t) (m : Tilemap) (walls items : layer)
  : completion :=
  startNextWave (initBreakableItems (boot g m walls items)).

(** The scenes a session can be in. *)
Inductive reachable : t -> Prop :=
| reach_create g m walls items :
    Engine.timers g = [] ->
    reachable (state_of (create g m walls items))
| reach_step s ev s' :
    reachable s -> handle ev s = Some s' -> reachable s'.

End GameScene.

(** ** Vocabulary of the statements *)

(** The config carries a usable texture key. *)
Definition has_texture (config : option Enemy.Config) : bool :=
  match config with
  | Some c => truthy_string (Enemy.texture c)
  | None => false
  end.

(** The config carries the animation-key set. *)
Definition has_anims (config : option Enemy.Config) : bool :=
  match config with
  | Some c => match Enemy.anims c with Some _ => true | None => false end
  | None => false
  end.

(** The knockback of a sword hit, per attack direction, for force 200. *)
Definition cardinal_knockback (d : direction) : R * R :=
  match d with
  | DRight => (200, 0)
  | DLeft => (-200, 0)
  | DUp => (0, -200)
  | DDown => (0, 200)
  end%R.

(** The enemy as [hitEnemy] hands it to [takeDamage]: knocked back,
    stunned and tinted. *)
Definition struck (p : Player.t) (enemy : Enemy.t) : Enemy.t :=
  Enemy.set_tint (Some 16711680)
    (Enemy.set_stunned true
       (Enemy.set_velocity
          (match Player.attackDirection p with
           | DRight => (Player.knockbackForce p, 0)
           | DLeft => (- Player.knockbackForce p, 0)
           | DUp => (0, - Player.knockbackForce p)
           | DDown => (0, Player.knockbackForce p)
           end)%R enemy)).

(** The [k]-th point sampled by [getValidSpawnPoint] in scene [s]. *)
Definition candidate (s : GameScene.t) (k : nat) : Z * Z :=
  let g := GameScene.engine s in
  let m := GameScene.map s in
  (Engine.between g (Engine.draws g + 2 * k)%nat 50
     (GameScene.widthInPixels m - 50),
   Engine.between g (S (Engine.draws g + 2 * k))%nat 50
     (GameScene.heightInPixels m - 50)).

(** The acceptance test of [getValidSpawnPoint] on a sampled point: not on
    a colliding wall tile, not on a breakable tile, and farther than 100
    from the player. *)
Definition acceptable (s : GameScene.t) (c : Z * Z) : bool :=
  let m := GameScene.map s in
  let cell := (GameScene.worldToTileX m (fst c), GameScene.worldToTileY m (snd c)) in
  GameScene.lacks GameScene.collides (GameScene.wallsLayer s !! cell)
  && GameScene.lacks GameScene.breakable (GameScene.itemsLayer s !! cell)
  && (if Rgt_dec
           (Engine.distanceBetween (IZR (fst c)) (IZR (snd c))
              (Player.x (GameScene.player s)) (Player.y (GameScene.player s)))
           100
      then true else false).

(** The enemy [spawnEnemy(x, y)] constructs as object [self]. *)
Definition fresh_enemy (self : ref) (x y : R) : Enemy.t :=
  {| Enemy.oid := self; Enemy.x := x; Enemy.y := y;
     Enemy.velocity := (0, 0)%R;
     Enemy.bodyEnable := true;
     Enemy.speed := num_or (Some 50%R) 150;
     Enemy.currentDirection := DRight;
     Enemy.target := Some ThePlayer;
     Enemy.animKeys :=
       {| Enemy.idleLeft := "goblin-idle-left";
          Enemy.idleRight := "goblin-idle-right";
          Enemy.runLeft := "goblin-run-left";
          Enemy.runRight := "goblin-run-right" |};
     Enemy.stunned := false;
     Enemy.hitsToKill := 3;
     Enemy.hitsTaken := 0;
     Enemy.lastHitTime := 0;
     Enemy.hitCooldown := 500;
     Enemy.isDying := false;
     Enemy.tint := None |}.

(** The presentation calls of constructing the enemies [first], ...,
    [first + n - 1]. *)
Definition spawn_effects (first : ref) (n : nat) : list effect :=
  concat
    (map (fun r =>
            [AddSprite r "goblin" (Some "goblin_idle_anim_f0.png"%string);
             AddBody r])
       (seq first n)).

(** The scene with its clock moved to [time]. *)
Definition at_time (time : Z) (s : GameScene.t) : GameScene.t :=
  GameScene.set_engine (Engine.set_now time (GameScene.engine s)) s.

(** The debounce test of [hitBreakableItem] on a record, at clock [now]. *)
Definition debounced (now : Z) (item : GameScene.Item) : bool :=
  negb (GameScene.lastHitTime item =? 0)
  && (now - GameScene.lastHitTime item <? 500).

(** The timers a list of commands adds, for a clock reading [now]. *)
Definition scheduled (now : Z) (cmds : list cmd) : list (Z * callback) :=
  flat_map
    (fun c =>
       match c with
       | Emit _ => []
       | Schedule delay cb => [(now + delay, cb)]
       | ScheduleRepeat delay repeat cb => Engine.repeats now delay repeat cb
       end) cmds.

(** The presentation calls a list of commands makes. *)
Definition emitted (cmds : list cmd) : list effect :=
  flat_map (fun c => match c with Emit e => [e] | _ => [] end) cmds.

(** The callbacks still waiting to run. *)
Definition pending (s : GameScene.t) : list callback :=
  snd <$> Engine.timers (GameScene.engine s).

(** The callbacks the wave and invincibility bookkeeping depends on. *)
Definition tracked (cb : callback) : bool :=
  match cb with
  | EnemyDestroy _ | NextWave | InvincibilityEnd => true
  | _ => false
  end.

(** Values fixed when the scene is created. *)
Definition constants (s : GameScene.t) : Z * R * nat :=
  (GameScene.invincibilityTime s,
   Player.knockbackForce (GameScene.player s),
   GameScene.maxWaves s).

(** What the wave bookkeeping reads of an enemy object. *)
Definition vitals (e : Enemy.t) : ref * bool := (Enemy.oid e, Enemy.isDying e).

(** The invariant of a session: a pending destruction belongs to an enemy
    that is still registered and already dying; the next wave is pending
    only while no enemy is registered; each of these callbacks, and the end
    of invincibility, is pending at most once; the end of invincibility is
    pending only while the flag is set; enemy objects carry their own
    reference and references are handed out in increasing order. *)
Record wave_invariant (s : GameScene.t) : Prop := mk_invariant {
  inv_nodup : NoDup (filter (fun cb => tracked cb = true) (pending s));
  inv_destroy :
    forall r, EnemyDestroy r ∈ pending s ->
      r ∈ GameScene.enemies s
      /\ exists e, GameScene.objects s !! r = Some e /\ Enemy.isDying e = true;
  inv_next : NextWave ∈ pending s -> GameScene.enemies s = [];
  inv_fresh : forall r, r ∈ GameScene.enemies s -> (r < GameScene.nextRef s)%nat;
  inv_oid :
    forall r e, GameScene.objects s !! r = Some e -> Enemy.oid e = r;
  inv_flag :
    GameScene.playerInvincible s = false -> InvincibilityEnd ∉ pending s;
  inv_constants : constants s = (1000, 200%R, 5%nat)
}.

(** A step that leaves the wave bookkeeping alone: same wave, same
    registered enemies, invincibility kept if set, and no next wave
    scheduled. *)
Definition quiet (s s' : GameScene.t) : Prop :=
  GameScene.currentWave s' = GameScene.currentWave s
  /\ GameScene.enemies s' = GameScene.enemies s
  /\ (GameScene.playerInvincible s = true ->
      GameScene.playerInvincible s' = true)
  /\ exists k,
       Engine.timers (GameScene.engine s')
       = Engine.timers (GameScene.engine s) ++ k
       /\ NextWave ∉ (snd <$> k).

(** The scene as a fired callback finds it: its own timer is gone. *)
Definition without_timer (i : nat) (s : GameScene.t) : GameScene.t :=
  GameScene.set_engine
    (Engine.set_timers (delete i (Engine.timers (GameScene.engine s)))
       (GameScene.engine s)) s.

(** Feeding a list of engine events to the scene; [None] when one of
    them cannot occur. *)
Definition replay (evs : list GameScene.event) (s : GameScene.t)
  : option GameScene.t :=
  fold_left
    (fun o ev => match o with Some x => GameScene.handle ev x | None => None end)
    evs (Some s).

(** Concrete inputs on which the statements are exercised. *)
Module Sample.

Definition goblinKeys : Enemy.AnimKeys :=
  {| Enemy.idleLeft := "goblin-idle-left";
     Enemy.idleRight := "goblin-idle-right";
     Enemy.runLeft := "goblin-run-left";
     Enemy.runRight := "goblin-run-right" |}.

(** A goblin as [spawnEnemy] builds them, as object 0 at the origin. *)
Definition goblin : Enemy.t :=
  {| Enemy.oid := 0%nat; Enemy.x := 0%R; Enemy.y := 0%R;
     Enemy.velocity := (0, 0)%R;
     Enemy.bodyEnable := true;
     Enemy.speed := 50%R;
     Enemy.currentDirection := DRight;
     Enemy.target := Some ThePlayer;
     Enemy.animKeys := goblinKeys;
     Enemy.stunned := false;
     Enemy.hitsToKill := 3;
     Enemy.hitsTaken := 0;
     Enemy.lastHitTime := 0;
     Enemy.hitCooldown := 500;
     Enemy.isDying := false;
     Enemy.tint := None |}.

(** A player in the middle of a swing upwards. *)
Definition knight : Player.t :=
  Player.set_swing true true (-150) false true
    (Player.set_motion 100 280 (0, 0)%R DRight DUp
       (Player.constructor 100 280)).

(** An engine at time 0 whose random source always returns the lower
    bound, resp. 0. *)
Definition engine0 : Engine.t :=
  {| Engine.now := 0; Engine.timers := []; Engine.effects := [];
     Engine.draws := 0%nat;
     Engine.between := fun _ lo _ => lo;
     Engine.random := fun _ => 0%R;
     Engine.angleBetween := fun _ _ _ _ => 0%R |}.

(** The 320 x 320 pixel map of 16-pixel tiles. *)
Definition map0 : GameScene.Tilemap :=
  {| GameScene.widthInPixels := 320; GameScene.heightInPixels := 320;
     GameScene.tileWidth := 16; GameScene.tileHeight := 16;
     GameScene.worldToTileX := fun x => x / 16;
     GameScene.worldToTileY := fun y => y / 16 |}.

Definition wall : GameScene.Tile :=
  {| GameScene.properties :=
       Some {| GameScene.collides := true; GameScene.breakable := false |};
     GameScene.tileTint := 16777215 |}.

Definition crate : GameScene.Tile :=
  {| GameScene.properties :=
       Some {| GameScene.collides := false; GameScene.breakable := true |};
     GameScene.tileTint := 16777215 |}.

(** A wall on the tile of pixel (50, 50), where [engine0] samples. *)
Definition walls : gmap (Z * Z) GameScene.Tile := {[ (3, 3) := wall ]}.

(** One crate, on tile (5, 5). *)
Definition items : gmap (Z * Z) GameScene.Tile := {[ (5, 5) := crate ]}.

(** The scene before its first wave: every sampled point is on the wall. *)
Definition walled_in : GameScene.t :=
  GameScene.initBreakableItems (GameScene.boot engine0 map0 walls items).

(** The scene once [create()] has run. *)
Definition started : GameScene.t :=
  GameScene.state_of (GameScene.create engine0 map0 walls items).

(** The player attacks; the goblin of the first wave is hit at wall-clock
    times 1000, 2000 and 3000 and dies; at scene time 500 its fade-out
    completes and it is destroyed. *)
Definition clearing : list GameScene.event :=
  [GameScene.Attack;
   GameScene.SwordOverlap 0%nat 1000;
   GameScene.SwordOverlap 0%nat 2000;
   GameScene.SwordOverlap 0%nat 3000;
   GameScene.Tick 500;
   GameScene.Fire 5%nat].

Definition cleared : GameScene.t :=
  default started (replay clearing started).

(** The goblin of the first wave touches the player. *)
Definition touched : GameScene.t :=
  default started (replay [GameScene.EnemyTouch 0%nat] started).

(** 400ms after the touch the flash and the knockback are over, the
    invincibility (1000ms) is not. *)
Definition recovering : GameScene.t :=
  default touched
    (replay [GameScene.Tick 400; GameScene.Fire 0%nat; GameScene.Fire 0%nat]
       touched).

(** The goblin touches the recovering player again. *)
Definition touched_again : GameScene.t :=
  default recovering (replay [GameScene.EnemyTouch 0%nat] recovering).

End Sample.

(** ** Per-frame updates and the health display *)

(** [Math.SQRT1_2]. *)
Definition SQRT1_2 : R := sqrt (1 / 2).

(** [a > b], [a < b] and [a !== b] on numbers. *)
Definition Rgtb (a b : R) : bool := if Rgt_dec a b then true else false.

Definition Rltb (a b : R) : bool := if Rlt_dec a b then true else false.

Definition Rneb (a b : R) : bool := if Req_dec_T a b then false else true.

(** [if (Math.abs(v) < 5) v = 0], as both [update()] methods apply it to
    a velocity component. *)
Definition snap (v : R) : R := if Rltb (Rabs v) 5 then 0%R else v.

(** *** Enemy.js: [update()] *)
Module EnemyUpdate.

(** The calls [update()] makes on the sprite itself: [setFlipX], when it
    is called, and the animation key handed to [play]. *)
Record Pose := mkPose {
  flipX : option bool;
  anim : option string
}.

(** [update()]; [position] gives the coordinates read through the
    [target] reference. *)
Definition update (position : sprite -> R * R) (e : Enemy.t)
  : Enemy.t * Pose :=
  if Enemy.stunned e || Enemy.isDying e then (e, mkPose None None)
  else
    let '(moving, facing, flip, velocityX, velocityY) :=
      match Enemy.target e with
      | Some target =>
        let diffX := (fst (position target) - Enemy.x e)%R in
        let diffY := (snd (position target) - Enemy.y e)%R in
        let horizontalThreshold := 5%R in
        let '(movingX, facing, flip, velocityX) :=
          if Rgtb (Rabs diffX) horizontalThreshold then
            if Rltb diffX 0
            then (true, DLeft, Some true, (- Enemy.speed e)%R)
            else (true, DRight, Some false, Enemy.speed e)
          else (false, Enemy.currentDirection e, None, 0%R) in
        let '(movingY, velocityY) :=
          if Rgtb (Rabs diffY) 0 then
            if Rltb diffY 0
            then (true, (- Enemy.speed e)%R)
            else (true, Enemy.speed e)
          else (false, 0%R) in
        let diagonal := Rneb velocityX 0 && Rneb velocityY 0 in
        (movingX || movingY, facing, flip,
         if diagonal then (velocityX * SQRT1_2)%R else velocityX,
         if diagonal then (velocityY * SQRT1_2)%R else velocityY)
      | None => (false, Enemy.currentDirection e, None, 0%R, 0%R)
      end in
    let v := if moving then (velocityX, velocityY) else Enemy.velocity e in
    let keys := Enemy.animKeys e in
    if moving || Rgtb (Rabs (fst v)) 10 || Rgtb (Rabs (snd v)) 10 then
      (Enemy.set_motion (Enemy.x e) (Enemy.y e) v facing e,
       mkPose flip
         (Some (match facing with
                | DLeft => Enemy.runLeft keys
                | _ => Enemy.runRight keys
                end)))
    else
      (Enemy.set_motion (Enemy.x e) (Enemy.y e) (snap (fst v), snap (snd v))
         facing e,
       mkPose flip
         (Some (match facing with
                | DLeft => Enemy.idleLeft keys
                | _ => Enemy.idleRight keys
                end))).

End EnemyUpdate.

(** *** Player.js: [update()] and [updateSwordPosition()] *)
Module PlayerUpdate.

(** What [update()] reads of the keyboard: [isDown] of the four cursor
    keys and [JustDown] of the attack key. *)
Record Keys := mkKeys {
  left : bool;
  right : bool;
  up : bool;
  down : bool;
  attackJustDown : bool
}.

(** Where [updateSwordPosition()] puts the sword sprite and its hitbox. *)
Record Placement := mkPlacement {
  swordX : R;
  swordY : R;
  hitboxX : R;
  hitboxY : R
}.

(** The calls [update()] makes on the sprites: [setFlipX], when it is
    called, the animation played, and the sword placement. *)
Record Frame := mkFrame {
  flipX : option bool;
  anim : string;
  placement : Placement
}.

(** [updateSwordPosition()]. *)
Definition updateSwordPosition (p : Player.t) : Player.t * Placement :=
  let offset := 13%R in
  let x := Player.x p in
  let y := Player.y p in
  let sword angle flip :=
    Player.set_swing (Player.isAttacking p) (Player.swordVisible p) angle flip
      (Player.hitboxEnable p) p in
  match Player.attackDirection p with
  | DRight =>
    (sword 0 false,
     mkPlacement (x + offset)%R y (x + offset * (15 / 10))%R y)
  | DLeft =>
    (sword 0 true,
     mkPlacement (x - offset)%R y (x - offset * (15 / 10))%R y)
  | DUp =>
    (sword (-90) false,
     mkPlacement x (y - offset)%R x (y - offset * (15 / 10))%R)
  | DDown =>
    (sword 90 false,
     mkPlacement x (y + offset)%R x (y + offset * (15 / 10))%R)
  end.

(** [update()]. *)
Definition update (keys : Keys) (p : Player.t)
  : Player.t * Frame * list cmd :=
  let speed := 150%R in
  let '(moving, p1, flip) :=
    if negb (Player.isKnockedBack p) then
      let attackDirection :=
        if left keys then DLeft
        else if right keys then DRight
        else if up keys then DUp
        else if down keys then DDown
        else Player.attackDirection p in
      let '(movingX, facing, flip, velocityX) :=
        if left keys then (true, DLeft, Some true, (- speed)%R)
        else if right keys then (true, DRight, Some false, speed)
        else (false, Player.currentDirection p, None, 0%R) in
      let '(movingY, velocityY) :=
        if up keys then (true, (- speed)%R)
        else if down keys then (true, speed)
        else (false, 0%R) in
      let diagonal := (left keys || right keys) && (up keys || down keys) in
      let velocityX := if diagonal then (velocityX * SQRT1_2)%R else velocityX in
      let velocityY := if diagonal then (velocityY * SQRT1_2)%R else velocityY in
      let moving := movingX || movingY in
      let v := if moving then (velocityX, velocityY) else Player.velocity p in
      (moving,
       Player.set_motion (Player.x p) (Player.y p) v facing attackDirection p,
       flip)
    else (false, p, None) in
  let '(p2, anim) :=
    if moving then
      (p1,
       match Player.currentDirection p1 with
       | DLeft => "knight-run-left"
       | _ => "knight-run-right"
       end%string)
    else
      (Player.set_velocity
         (snap (fst (Player.velocity p1)), snap (snd (Player.velocity p1))) p1,
       match Player.currentDirection p1 with
       | DLeft => "knight-idle-left"
       | _ => "knight-idle-right"
       end%string) in
  let '(p3, placed) := updateSwordPosition p2 in
  let '(p4, cmds) :=
    if attackJustDown keys then Player.attack p3 else (p3, []) in
  (p4, mkFrame flip anim placed, cmds).

End PlayerUpdate.

(** *** SpriteItem.js *)
Module SpriteItem.

(** [config.light]. *)
Record LightConfig := mkLightConfig {
  enabled : bool;
  radius : option R;
  color : option Z;
  intensity : option R
}.

(** The light graphics of an item: where it is drawn, the red, green and
    blue components of its fill, the value last assigned to its [alpha],
    and the values [addLightEffect] keeps for later updates. *)
Record Light := mkLight {
  lightX : R;
  lightY : R;
  fill : Z * Z * Z;
  lightDepth : R;
  lightAlpha : number;
  lightScale : R;
  lightRadius : R;
  lightColor : Z;
  lightIntensity : R;
  baseAlpha : R
}.

Record t := mk {
  x : R;
  y : R;
  textureKey : string;
  depth : R;
  itemType : string;
  isInteractive : bool;
  lightEffect : option Light;
  flickerTimer : number;
  flickerIntensity : R
}.

(** [ToInt32], applied by the bit operators to their operands. *)
Definition to_int32 (n : Z) : Z :=
  (n + 2147483648) mod 4294967296 - 2147483648.

(** [a || d] on an optional integer. *)
Definition int_or (a : option Z) (d : Z) : Z :=
  match a with
  | Some v => if v =? 0 then d else v
  | None => d
  end.

(** [addLightEffect(lightConfig)] of the item [it]. *)
Definition addLightEffect (lightConfig : LightConfig) (it : t) : t :=
  let radius := num_or (radius lightConfig) 100 in
  let color := int_or (color lightConfig) 16776960 in
  let intensity := num_or (intensity lightConfig) (5 / 10) in
  let r := Z.land (Z.shiftr (to_int32 color) 16) 255 in
  let g := Z.land (Z.shiftr (to_int32 color) 8) 255 in
  let b := Z.land (to_int32 color) 255 in
  let light :=
    {| lightX := x it; lightY := y it; fill := (r, g, b);
       lightDepth := (depth it - 1)%R;
       lightAlpha := Num 1; lightScale := 1;
       lightRadius := radius; lightColor := color;
       lightIntensity := intensity; baseAlpha := intensity |} in
  mk (x it) (y it) (textureKey it) (depth it) (itemType it)
     (isInteractive it) (Some light) (flickerTimer it) (flickerIntensity it).

(** What the constructor keeps of [config]; frame, scale, origin and
    animation are only forwarded to the engine's sprite, and the pointer
    handler of an interactive item only logs. *)
Record Config := mkConfig {
  texture : string;
  cdepth : option R;
  ctype : option string;
  interactive : option bool;
  light : option LightConfig;
  cflickerIntensity : option R
}.

(** [new SpriteItem(scene, x, y, config)]. *)
Definition constructor (px py : R) (config : Config) : t :=
  let it :=
    {| x := px; y := py; textureKey := texture config;
       depth := num_or (cdepth config) 0;
       itemType :=
         (if truthy_string (ctype config)
          then default EmptyString (ctype config) else "decoration")%string;
       isInteractive := default false (interactive config);
       lightEffect := None;
       flickerTimer := Num 0;
       flickerIntensity := 0 |} in
  let it1 :=
    match light config with
    | Some l => if enabled l then addLightEffect l it else it
    | None => it
    end in
  mk (x it1) (y it1) (textureKey it1) (depth it1) (itemType it1)
     (isInteractive it1) (lightEffect it1) (Num 0)
     (num_or (cflickerIntensity config) (1 / 10)).

(** The callback [updateLightFlicker] hands to [time.delayedCall]. *)
Inductive callback :=
| ResetScale.                   (* lightEffect.setScale(1) *)

(** What the callback does when the engine runs it. *)
Definition runCallback (cb : callback) (it : t) : t :=
  match cb, lightEffect it with
  | ResetScale, Some l =>
    let l1 :=
      mkLight (lightX l) (lightY l) (fill l) (lightDepth l) (lightAlpha l) 1
        (lightRadius l) (lightColor l) (lightIntensity l) (baseAlpha l) in
    mk (x it) (y it) (textureKey it) (depth it) (itemType it)
       (isInteractive it) (Some l1) (flickerTimer it) (flickerIntensity it)
  | ResetScale, None => it
  end.

(** [updateLightFlicker(time, delta)]. [delta] is [None] when the caller
    leaves the argument out ([undefined]); [time] is not read. [random1]
    and [random2] are the values of the two [Math.random()] calls, the
    second being made only when the first is below 0.01. The list holds
    the delayed calls made, each with its delay. *)
Definition updateLightFlicker (delta : option R) (random1 random2 : R)
    (it : t) : t * list (Z * callback) :=
  match lightEffect it with
  | None => (it, [])
  | Some l =>
    let flickerTimer :=
      num_map2 Rplus (flickerTimer it)
        (num_map2 Rmult (to_number delta) (Num (1 / 1000))) in
    let flicker :=
      num_map2 Rmult (num_map sin (num_map2 Rmult flickerTimer (Num 5)))
        (Num (flickerIntensity it)) in
    let newAlpha :=
      num_map2 Rmax (Num (1 / 10))
        (num_map2 Rmin (Num 1) (num_map2 Rplus (Num (baseAlpha l)) flicker)) in
    let pop := Rltb random1 (1 / 100) in
    let scale :=
      if pop then (1 + (random2 * (2 / 10) - 1 / 10))%R else lightScale l in
    let l1 :=
      mkLight (lightX l) (lightY l) (fill l) (lightDepth l) newAlpha scale
        (lightRadius l) (lightColor l) (lightIntensity l) (baseAlpha l) in
    (mk (x it) (y it) (textureKey it) (depth it) (itemType it)
        (isInteractive it) (Some l1) flickerTimer (flickerIntensity it),
     if pop then [(100, ResetScale)] else [])
  end.

(** [update(time, delta)]. *)
Definition update (delta : option R) (random1 random2 : R) (it : t)
  : t * list (Z * callback) :=
  match lightEffect it with
  | None => (it, [])
  | Some l =>
    let l1 :=
      mkLight (x it) (y it) (fill l) (lightDepth l) (lightAlpha l)
        (lightScale l) (lightRadius l) (lightColor l) (lightIntensity l)
        (baseAlpha l) in
    let it1 :=
      mk (x it) (y it) (textureKey it) (depth it) (itemType it)
         (isInteractive it) (Some l1) (flickerTimer it)
         (flickerIntensity it) in
    if String.eqb (itemType it) "decoration"
       && String.eqb (textureKey it) "torch"
    then updateLightFlicker delta random1 random2 it1
    else (it1, [])
  end.

(** The torches [placeTorches()] of the scene creates, at position
    [(px, py)]. *)
Definition torch (px py : R) : t :=
  constructor px py
    {| texture := "torch"; cdepth := Some 5%R; ctype := None;
       interactive := None;
       light :=
         Some {| enabled := true; radius := Some 60%R;
                 color := Some 16737792; intensity := Some (4 / 10)%R |};
       cflickerIntensity := None |}.

(** [placeTorches()]: the six torches of the scene, in the order of
    [this.torches]. *)
Definition placeTorches : list t :=
  [torch 40 20; torch 230 20; torch 135 20; torch 268 35; torch 216 148;
   torch 280 148].

(** The last statement of [GameScene.update()],
    [this.torches.forEach((torch) => torch.update())]: [update] is called
    with no argument, so [delta] is [undefined]. [random i] gives the two
    draws of the torch at index [i]. *)
Definition updateTorches (random : nat -> R * R) (torches : list t)
  : list (t * list (Z * callback)) :=
  imap (fun i torch => update None (fst (random i)) (snd (random i)) torch)
    torches.

End SpriteItem.

(** ** Vocabulary of the further statements *)

(** An enemy is either alive with hits to spare and a live body, or dying
    with its counter at the limit and its body disabled. *)
Definition sound (e : Enemy.t) : bool :=
  if Enemy.isDying e
  then (Enemy.hitsTaken e =? Enemy.hitsToKill e) && negb (Enemy.bodyEnable e)
  else (Enemy.hitsTaken e <? Enemy.hitsToKill e) && Enemy.bodyEnable e.

(** The commands issued by a replay of [takeDamage] calls. *)
Fixpoint calls_cmds (calls : list (Z * Z)) (e : Enemy.t) : list cmd :=
  match calls with
  | [] => []
  | c :: rest =>
    snd (Enemy.takeDamage (fst c) (snd c) e)
    ++ calls_cmds rest (Enemy.after_call e c)
  end.

(** The accepted hits so far span at least one cooldown [cd] per hit
    after the first, between two clock readings of [P]; [n] hits kill. *)
Definition paced (P : Z -> Prop) (n cd : Z) (e : Enemy.t) : Prop :=
  Enemy.hitCooldown e = cd /\ Enemy.hitsToKill e = n
  /\ ((Enemy.hitsTaken e = 0 /\ Enemy.isDying e = false)
      \/ (1 <= Enemy.hitsTaken e
          /\ (Enemy.isDying e = true -> n <= Enemy.hitsTaken e)
          /\ exists t0, P t0 /\ P (Enemy.lastHitTime e)
               /\ (Enemy.hitsTaken e - 1) * cd <= Enemy.lastHitTime e - t0)).

(** The unit vector of a direction, in screen coordinates ([y] grows
    downwards). *)
Definition toward (d : direction) : R * R :=
  match d with
  | DRight => (1, 0)
  | DLeft => (-1, 0)
  | DUp => (0, -1)
  | DDown => (0, 1)
  end%R.

(** ** Vocabulary and sample inputs of the session statements *)

(** The wave counter and the registered enemies stay within the plan of
    the session: waves 1 to [maxWaves], then the victory state
    [maxWaves + 1]; at most as many enemies as the wave number, none
    twice; after the victory no enemy and no further wave. *)
Definition wave_bounds (s : GameScene.t) : Prop :=
  (1 <= GameScene.currentWave s <= S (GameScene.maxWaves s))%nat
  /\ (length (GameScene.enemies s) <= GameScene.currentWave s)%nat
  /\ NoDup (GameScene.enemies s)
  /\ ((GameScene.maxWaves s < GameScene.currentWave s)%nat ->
      GameScene.enemies s = [] /\ NextWave ∉ pending s).

(** The tracking map and the items layer agree: a cell is tracked exactly
    when the layer holds a breakable tile there, and a record names its
    own cell, breaks at two hits and has taken fewer. *)
Definition in_sync (s : GameScene.t) : Prop :=
  forall key,
    match GameScene.breakableItems s !! key with
    | Some item =>
      GameScene.tile item = key /\ GameScene.maxHits item = 2
      /\ 0 <= GameScene.hits item < 2
      /\ GameScene.lacks GameScene.breakable (GameScene.itemsLayer s !! key)
         = false
    | None =>
      GameScene.lacks GameScene.breakable (GameScene.itemsLayer s !! key)
      = true
    end.

(** The tile layer and the tracking map of a scene. *)
Definition tiles_of (s : GameScene.t)
  : gmap (Z * Z) GameScene.Tile * gmap (Z * Z) GameScene.Item :=
  (GameScene.itemsLayer s, GameScene.breakableItems s).

(** The outcome is an uncaught exception. *)
Definition is_thrown (c : GameScene.completion) : bool :=
  match c with GameScene.Thrown _ _ => true | GameScene.Normal _ => false end.

(** A scene in which the first sampled point is free: no walls, one crate
    away from the sampled tile. *)
Definition open_field : GameScene.t :=
  GameScene.initBreakableItems
    (GameScene.boot Sample.engine0 Sample.map0 ∅ Sample.items).

(** The started scene once the player has begun a swing. *)
Definition swinging : GameScene.t :=
  default Sample.started (replay [GameScene.Attack] Sample.started).

(** The display after the player of a fresh five-heart display was
    damaged [n] times by one point. *)
Fixpoint damaged (n : nat) : UI.t :=
  match n with
  | O => UI.constructor (Some 5)
  | S k => snd (fst (UI.damagePlayer 1 (damaged k)))
  end.

(** A session played to its victory. *)
Module Campaign.

(** Wave [k], whose enemies are the objects [first], ..., [first + k - 1],
    played to its end: the player attacks, every enemy is hit at wall-clock
    times 1000, 2000 and 3000, the pending callbacks run in order, and a
    second later the next wave starts. *)
Definition wave_script (k first : nat) : list GameScene.event :=
  [GameScene.Attack]
  ++ flat_map
       (fun r =>
          [GameScene.SwordOverlap r 1000; GameScene.SwordOverlap r 2000;
           GameScene.SwordOverlap r 3000])
       (seq first k)
  ++ [GameScene.Tick (Z.of_nat k * 10000)]
  ++ repeat (GameScene.Fire 0%nat) (5 * k + 1)
  ++ [GameScene.Tick (Z.of_nat k * 10000 + 1000); GameScene.Fire 0%nat].

(** The five waves in a row. *)
Definition script : list GameScene.event :=
  wave_script 1 0 ++ wave_script 2 1 ++ wave_script 3 3
  ++ wave_script 4 6 ++ wave_script 5 10.

(** The scene after the last wave was cleared. *)
Definition won : GameScene.t :=
  default Sample.started (replay script Sample.started).

(** What follows the victory in the sample session. *)
Definition aftermath : list GameScene.event :=
  [GameScene.Tick 100000; GameScene.Attack; GameScene.SwordTiles [Some (5, 5)]].

End Campaign.

(** The recovering sample once the clock reads 1000, when the end of
    invincibility is due. *)
Definition overdue : GameScene.t :=
  default Sample.recovering
    (replay [GameScene.Tick 1000] Sample.recovering).

(** The swinging sample after the sword overlapped the goblin at clock
    0 (wall clock 1000), with the scene clock then moved to [time]. *)
Definition stunned_at (time : Z) : GameScene.t :=
  default swinging
    (replay [GameScene.SwordOverlap 0%nat 1000; GameScene.Tick time] swinging).

(** The torches after [n] frames of the running scene, from [torches];
    [random k] gives the draws of frame [k]. *)
Fixpoint torch_frames (random : nat -> nat -> R * R) (n : nat)
    (torches : list SpriteItem.t) : list SpriteItem.t :=
  match n with
  | O => torches
  | S k =>
    fst <$> SpriteItem.updateTorches (random k) (torch_frames random k torches)
  end.

(** A torch decoration that carries a light. *)
Definition lit_torch (it : SpriteItem.t) : Prop :=
  SpriteItem.itemType it = "decoration"%string
  /\ SpriteItem.textureKey it = "torch"%string
  /\ exists l, SpriteItem.lightEffect it = Some l.

(** * Properties *)

(** ** Enemy damage intake *)
Section EnemyDamage.

Implicit Types (e : Enemy.t) (damage currentTime : Z).

Lemma takeDamage_dying damage currentTime e :
  Enemy.isDying e = true ->
  Enemy.takeDamage damage currentTime e = (false, e, []).
Proof. intros H. unfold Enemy.takeDamage. now rewrite H. Qed.

Lemma takeDamage_cooldown damage currentTime e :
  currentTime - Enemy.lastHitTime e < Enemy.hitCooldown e ->
  Enemy.takeDamage damage currentTime e = (false, e, []).
Proof.
  intros H. unfold Enemy.takeDamage.
  destruct (Enemy.isDying e); [reflexivity|].
  apply Z.ltb_lt in H. now rewrite H.
Qed.

(** What an accepted call does, field by field. *)
Lemma takeDamage_accepted damage currentTime e :
  Enemy.isDying e = false ->
  Enemy.hitCooldown e <= currentTime - Enemy.lastHitTime e ->
  let '(killed, e', cmds) := Enemy.takeDamage damage currentTime e in
  Enemy.hitsTaken e' = Enemy.hitsTaken e + 1
  /\ Enemy.lastHitTime e' = currentTime
  /\ killed = (Enemy.hitsToKill e <=? Enemy.hitsTaken e + 1)
  /\ Enemy.isDying e' = killed
  /\ cmds = (if killed
             then [Emit (DeathExplosion (Enemy.x e) (Enemy.y e));
                   Schedule 500 (EnemyDestroy (Enemy.oid e))]
             else []).
Proof.
  intros Hd Hc. unfold Enemy.takeDamage. rewrite Hd.
  apply Z.ltb_ge in Hc. rewrite Hc. cbn.
  destruct (Enemy.hitsToKill e <=? Enemy.hitsTaken e + 1); cbn; auto.
Qed.

(** The fields [takeDamage] never touches. *)
Lemma takeDamage_frame damage currentTime e :
  let e' := snd (fst (Enemy.takeDamage damage currentTime e)) in
  Enemy.oid e' = Enemy.oid e
  /\ Enemy.velocity e' = Enemy.velocity e
  /\ Enemy.stunned e' = Enemy.stunned e
  /\ Enemy.tint e' = Enemy.tint e
  /\ Enemy.hitCooldown e' = Enemy.hitCooldown e
  /\ Enemy.hitsToKill e' = Enemy.hitsToKill e
  /\ Enemy.x e' = Enemy.x e /\ Enemy.y e' = Enemy.y e.
Proof.
  unfold Enemy.takeDamage.
  destruct (Enemy.isDying e); [cbn; tauto|].
  destruct (_ <? _); [cbn; tauto|]. cbn.
  destruct (_ <=? _); cbn; tauto.
Qed.

Lemma after_calls_hitCooldown calls e :
  Enemy.hitCooldown (Enemy.after_calls calls e) = Enemy.hitCooldown e.
Proof.
  revert e. induction calls as [|[d t] calls IH]; intros e; [reflexivity|].
  cbn. rewrite IH. unfold Enemy.after_call.
  apply (takeDamage_frame d t e).
Qed.

(** The counter moves by one on an accepted call and not at all on a
    rejected one. *)
Lemma takeDamage_hitsTaken damage currentTime e :
  Enemy.hitsTaken (snd (fst (Enemy.takeDamage damage currentTime e)))
  = Enemy.hitsTaken e
    + (if negb (Enemy.isDying e)
          && (Enemy.hitCooldown e <=? currentTime - Enemy.lastHitTime e)
       then 1 else 0).
Proof.
  destruct (Enemy.isDying e) eqn:Hd.
  - rewrite takeDamage_dying by assumption. cbn. lia.
  - destruct (Z.leb_spec (Enemy.hitCooldown e)
                (currentTime - Enemy.lastHitTime e)) as [Hc|Hc].
    + pose proof (takeDamage_accepted damage currentTime e Hd Hc) as H.
      destruct (Enemy.takeDamage damage currentTime e) as [[k e'] c].
      cbn. tauto.
    + rewrite takeDamage_cooldown by assumption. cbn. lia.
Qed.

Lemma accepted_iff e call :
  Enemy.accepted e call = true <->
  Enemy.isDying e = false
  /\ Enemy.hitCooldown e <= snd call - Enemy.lastHitTime e.
Proof.
  unfold Enemy.accepted, Enemy.after_call.
  rewrite takeDamage_hitsTaken.
  destruct (Enemy.isDying e); cbn.
  - rewrite Z.add_0_r, Z.eqb_refl. cbn. intuition congruence.
  - destruct (Z.leb_spec (Enemy.hitCooldown e)
                (snd call - Enemy.lastHitTime e)).
    + replace (Enemy.hitsTaken e + 1 =? Enemy.hitsTaken e) with false
        by (symmetry; apply Z.eqb_neq; lia).
      cbn. tauto.
    + rewrite Z.add_0_r, Z.eqb_refl. cbn. split; [congruence|lia].
Qed.

Lemma rejected_unchanged e call :
  Enemy.accepted e call = false -> Enemy.after_call e call = e.
Proof.
  intros Ha. unfold Enemy.after_call.
  destruct (Enemy.isDying e) eqn:Hd.
  - now rewrite takeDamage_dying.
  - destruct (Z.lt_ge_cases (snd call - Enemy.lastHitTime e)
                (Enemy.hitCooldown e)) as [Hc|Hc].
    + now rewrite takeDamage_cooldown.
    + assert (Enemy.accepted e call = true) by (apply accepted_iff; auto).
      congruence.
Qed.

(** [lastHitTime] is the clock reading of the last accepted call; [d0]
    is its value when no call was accepted. *)
Lemma lastHitTime_last_accepted calls e seen d0 :
  Enemy.lastHitTime e = default d0 seen ->
  Enemy.lastHitTime (Enemy.after_calls calls e)
  = default d0 (Enemy.last_accepted calls e seen).
Proof.
  revert e seen. induction calls as [|c calls IH]; intros e seen Hs.
  - exact Hs.
  - cbn [Enemy.after_calls fold_left Enemy.last_accepted].
    change (fold_left Enemy.after_call calls (Enemy.after_call e c))
      with (Enemy.after_calls calls (Enemy.after_call e c)).
    apply IH.
    destruct (Enemy.accepted e c) eqn:Ha.
    + apply accepted_iff in Ha as [Hd Hc].
      pose proof (takeDamage_accepted (fst c) (snd c) e Hd Hc) as H.
      unfold Enemy.after_call.
      destruct (Enemy.takeDamage (fst c) (snd c) e) as [[k e'] cm].
      cbn. tauto.
    + now rewrite rejected_unchanged.
Qed.

End EnemyDamage.

(** C1. Over every sequence of [takeDamage] calls on an enemy whose
    cooldown is the constructor's 500ms: the field the cooldown is measured
    from is the clock reading of the last accepted call; the next call
    increments the hit counter exactly when the enemy is not dying and at
    least 500ms have passed since then, and otherwise returns not-killed
    and changes nothing. After an accepted call, a call less than 500ms
    later (100ms, say) is rejected, and one at least 500ms later (600ms,
    say) is accepted unless the enemy has died. A call on a dying enemy
    returns not-killed and leaves the counter alone. *)
Theorem takeDamage_counts_spaced_hits
    (calls : list (Z * Z)) (e0 : Enemy.t) (damage currentTime : Z) :
  Enemy.hitCooldown e0 = 500 ->
  let e := Enemy.after_calls calls e0 in
  let killed := fst (fst (Enemy.takeDamage damage currentTime e)) in
  let e' := snd (fst (Enemy.takeDamage damage currentTime e)) in
  Enemy.lastHitTime e
  = default (Enemy.lastHitTime e0) (Enemy.last_accepted calls e0 None)
  /\ (Enemy.hitsTaken e' = Enemy.hitsTaken e + 1 <->
      Enemy.isDying e = false /\ 500 <= currentTime - Enemy.lastHitTime e)
  /\ (Enemy.hitsTaken e' <> Enemy.hitsTaken e + 1 -> killed = false /\ e' = e)
  /\ (Enemy.isDying e = true ->
      killed = false /\ Enemy.hitsTaken e' = Enemy.hitsTaken e)
  /\ (Enemy.hitsTaken e' = Enemy.hitsTaken e + 1 ->
      forall d delta,
        (delta < 500 ->
         Enemy.takeDamage d (currentTime + delta) e' = (false, e', []))
        /\ (500 <= delta -> Enemy.isDying e' = false ->
            Enemy.hitsTaken
              (snd (fst (Enemy.takeDamage d (currentTime + delta) e')))
            = Enemy.hitsTaken e' + 1)).
Proof.
  intros Hcd e killed e'.
  assert (Hcool : Enemy.hitCooldown e = 500)
    by (unfold e; now rewrite after_calls_hitCooldown).
  assert (Hiff : Enemy.hitsTaken e' = Enemy.hitsTaken e + 1 <->
                 Enemy.isDying e = false
                 /\ 500 <= currentTime - Enemy.lastHitTime e).
  { unfold e'. rewrite takeDamage_hitsTaken, Hcool.
    destruct (Enemy.isDying e); cbn.
    - split; [lia|intros [? _]; discriminate].
    - destruct (Z.leb_spec 500 (currentTime - Enemy.lastHitTime e));
        split; try lia; tauto. }
  split; [|split; [exact Hiff|split; [|split]]].
  - apply lastHitTime_last_accepted. reflexivity.
  - intros Hne. unfold killed, e'.
    destruct (Enemy.isDying e) eqn:Hd.
    + now rewrite takeDamage_dying.
    + destruct (Z.lt_ge_cases (currentTime - Enemy.lastHitTime e) 500).
      * rewrite takeDamage_cooldown by lia. auto.
      * exfalso. apply Hne, Hiff. auto.
  - intros Hd. unfold killed, e'. rewrite takeDamage_dying by assumption.
    auto.
  - intros Hacc d delta. apply Hiff in Hacc as [Hd Hc].
    pose proof (takeDamage_accepted damage currentTime e Hd) as Ha.
    rewrite Hcool in Ha. specialize (Ha Hc).
    pose proof (takeDamage_frame damage currentTime e) as Hf.
    fold e' in Hf. cbv zeta in Hf.
    unfold e'. destruct (Enemy.takeDamage damage currentTime e)
      as [[k e1] c]. cbn [fst snd] in *.
    destruct Ha as (_ & Hl & _). destruct Hf as (_ & _ & _ & _ & Hc1 & _).
    subst e'. cbn [fst snd] in Hc1.
    split.
    + intros Hlt. destruct (Enemy.isDying e1) eqn:Hd1.
      * now apply takeDamage_dying.
      * apply takeDamage_cooldown. lia.
    + intros Hge Hd1. rewrite takeDamage_hitsTaken, Hd1.
      replace (Enemy.hitCooldown e1 <=? currentTime + delta
                                        - Enemy.lastHitTime e1) with true
        by (symmetry; apply Z.leb_le; lia).
      reflexivity.
Qed.

(** On the sample goblin: a hit at 1000 is accepted, so one at 1100 is
    rejected and one at 1600 is accepted. *)
Lemma takeDamage_counts_spaced_hits_witness :
  Enemy.hitCooldown Sample.goblin = 500
  /\ Enemy.takeDamage 10 (1000 + 100)
       (Enemy.after_calls [(10, 1000)] Sample.goblin)
     = (false, Enemy.after_calls [(10, 1000)] Sample.goblin, [])
  /\ Enemy.hitsTaken
       (snd (fst (Enemy.takeDamage 10 (1000 + 600)
                    (Enemy.after_calls [(10, 1000)] Sample.goblin)))) = 2.
Proof.
  split; [reflexivity|].
  destruct (takeDamage_counts_spaced_hits [] Sample.goblin 10 1000 eq_refl)
    as (_ & _ & _ & _ & H).
  split.
  - apply (H eq_refl 10 100). lia.
  - apply (H eq_refl 10 600); [lia|reflexivity].
Defined.

(** ** Enemy construction *)

(** C9. [new Enemy] throws exactly when the config lacks a texture key or
    the animation-key set. The texture check fails before anything else is
    done; the anims check fails inside the constructor too, after the
    sprite and its body were added to the scene. With both present the
    constructor returns an enemy with no hit taken, alive and not stunned. *)
Theorem constructor_requires_texture_and_anims
    (self : ref) (px py : R) (config : option Enemy.Config) :
  is_throw (Enemy.constructor self px py config)
  = negb (has_texture config && has_anims config)
  /\ match Enemy.constructor self px py config with
     | Throw msg cmds =>
       (has_texture config = false /\ msg = Enemy.msg_texture /\ cmds = [])
       \/ (has_texture config = true /\ has_anims config = false
           /\ msg = Enemy.msg_anims)
     | Return e cmds =>
       has_texture config = true /\ has_anims config = true
       /\ Enemy.oid e = self /\ Enemy.hitsTaken e = 0
       /\ Enemy.hitCooldown e = 500 /\ Enemy.hitsToKill e = 3
       /\ Enemy.isDying e = false /\ Enemy.stunned e = false
     end.
Proof.
  destruct config as [c|]; cbn.
  - destruct (truthy_string (Enemy.texture c)) eqn:Ht; cbn.
    + destruct (Enemy.anims c); cbn; intuition auto.
    + intuition auto.
  - intuition auto.
Qed.

(** ** Sword hits *)
Section SwordHit.

Implicit Types (p : Player.t) (enemy : Enemy.t) (currentTime : Z).

(** While the player is not attacking, [hitEnemy] does nothing. *)
Lemma hitEnemy_idle currentTime p enemy :
  Player.isAttacking p = false ->
  Player.hitEnemy currentTime p enemy = (false, enemy, []).
Proof. intros H. unfold Player.hitEnemy. now rewrite H. Qed.

(** While the player is attacking, [hitEnemy] reports a hit, and the
    enemy and the commands are those of [takeDamage] on the struck
    enemy, preceded by the stun and tint timers. *)
Lemma hitEnemy_attacking currentTime p enemy :
  Player.isAttacking p = true ->
  Player.hitEnemy currentTime p enemy
  = (true,
     snd (fst (Enemy.takeDamage (Player.attackDamage p) currentTime
                 (struck p enemy))),
     (if Enemy.stunned enemy then []
      else [Schedule 500 (EnemyClearStun (Enemy.oid enemy))])
     ++ [Schedule 150 (EnemyClearTint (Enemy.oid enemy))]
     ++ snd (Enemy.takeDamage (Player.attackDamage p) currentTime
               (struck p enemy))
     ++ [Emit (ConsoleLog
                 (if fst (fst (Enemy.takeDamage (Player.attackDamage p)
                                 currentTime (struck p enemy)))
                  then "Enemy killed!" else "Enemy hit with force:"))]).
Proof.
  intros H. unfold Player.hitEnemy, struck. rewrite H. cbn [negb].
  destruct enemy as [o ex ey v be sp cd tg ak st htk ht lht hc dy tn].
  destruct st, (Player.attackDirection p);
    unfold Enemy.set_tint, Enemy.set_stunned, Enemy.set_velocity;
    cbn -[Enemy.takeDamage];
    match goal with
    | |- context [Enemy.takeDamage ?d ?t ?e] =>
      destruct (Enemy.takeDamage d t e) as [[k e4] c3]
    end; reflexivity.
Qed.

End SwordHit.

(** C4. A sword hit resolved while the player is attacking overrides the
    enemy's velocity with a vector of magnitude 200 along the axis of the
    attack direction, whatever the enemy (and so wherever it stands):
    attacking up gives (0, -200). *)
Theorem hitEnemy_knockback_is_cardinal
    (currentTime : Z) (p : Player.t) (enemy : Enemy.t) :
  Player.isAttacking p = true ->
  Player.knockbackForce p = 200%R ->
  let v := Enemy.velocity (snd (fst (Player.hitEnemy currentTime p enemy))) in
  v = cardinal_knockback (Player.attackDirection p)
  /\ sqrt (fst v * fst v + snd v * snd v) = 200%R
  /\ match Player.attackDirection p with
     | DLeft | DRight => snd v = 0%R
     | DUp | DDown => fst v = 0%R
     end
  /\ (Player.attackDirection p = DUp -> v = (0, -200)%R).
Proof.
  intros Ha Hf v.
  assert (Hv : v = cardinal_knockback (Player.attackDirection p)).
  { unfold v. rewrite hitEnemy_attacking by assumption. cbn [fst snd].
    destruct (takeDamage_frame (Player.attackDamage p) currentTime
                (struck p enemy)) as (_ & -> & _).
    unfold struck. cbn. rewrite Hf.
    destruct (Player.attackDirection p); cbn; f_equal; lra. }
  split; [exact Hv|]. rewrite Hv.
  assert (Hs : sqrt (200 * 200) = 200%R) by (apply sqrt_square; lra).
  split; [|split].
  - destruct (Player.attackDirection p); cbn;
      match goal with
      | |- sqrt ?a = _ => replace a with (200 * 200)%R by lra
      end; exact Hs.
  - destruct (Player.attackDirection p); reflexivity.
  - intros ->. reflexivity.
Qed.

(** The sample knight swings upwards: the goblin leaves along -Y. *)
Lemma hitEnemy_knockback_is_cardinal_witness :
  Player.isAttacking Sample.knight = true
  /\ Player.knockbackForce Sample.knight = 200%R
  /\ Enemy.velocity
       (snd (fst (Player.hitEnemy 1000 Sample.knight Sample.goblin)))
     = (0, -200)%R.
Proof.
  split; [reflexivity|split; [reflexivity|]].
  apply (hitEnemy_knockback_is_cardinal 1000 Sample.knight Sample.goblin
           eq_refl eq_refl).
  reflexivity.
Defined.

(** Evaluates nested scene and engine setters and the projections applied
    to them, innermost first. *)
Ltac scene_cbv_in H :=
  cbv beta iota zeta delta
    [GameScene.showGameWon GameScene.showGameOver
     GameScene.displayWaveCounter GameScene.on_object GameScene.run
     at_time Engine.exec Engine.exec1 fold_left
     GameScene.set_engine GameScene.set_itemsLayer
     GameScene.set_breakableItems GameScene.set_playerInvincible
     GameScene.set_player GameScene.set_ui GameScene.set_currentWave
     GameScene.set_enemies GameScene.set_objects GameScene.set_nextRef
     Engine.set_now Engine.set_timers Engine.set_effects Engine.set_draws
     GameScene.engine GameScene.map GameScene.wallsLayer
     GameScene.itemsLayer GameScene.breakableItems
     GameScene.playerMaxHealth GameScene.invincibilityTime
     GameScene.playerInvincible GameScene.player GameScene.ui
     GameScene.currentWave GameScene.maxWaves GameScene.enemies
     GameScene.objects GameScene.nextRef
     Engine.now Engine.timers Engine.effects Engine.draws Engine.between
     Engine.random Engine.angleBetween pending constants] in H.

Ltac scene_cbv :=
  cbv beta iota zeta delta
    [GameScene.showGameWon GameScene.showGameOver
     GameScene.displayWaveCounter GameScene.on_object GameScene.run
     at_time Engine.exec Engine.exec1 fold_left
     GameScene.set_engine GameScene.set_itemsLayer
     GameScene.set_breakableItems GameScene.set_playerInvincible
     GameScene.set_player GameScene.set_ui GameScene.set_currentWave
     GameScene.set_enemies GameScene.set_objects GameScene.set_nextRef
     Engine.set_now Engine.set_timers Engine.set_effects Engine.set_draws
     GameScene.engine GameScene.map GameScene.wallsLayer
     GameScene.itemsLayer GameScene.breakableItems
     GameScene.playerMaxHealth GameScene.invincibilityTime
     GameScene.playerInvincible GameScene.player GameScene.ui
     GameScene.currentWave GameScene.maxWaves GameScene.enemies
     GameScene.objects GameScene.nextRef
     Engine.now Engine.timers Engine.effects Engine.draws Engine.between
     Engine.random Engine.angleBetween pending constants].

(** ** Spawn-point search *)
Section SpawnPoint.

Import GameScene.
Implicit Types (s : GameScene.t) (st : Search).

Lemma attempt_unfold s st k :
  drawn st = (Engine.draws (engine s) + 2 * k)%nat ->
  attempt s st
  = {| pos := Some (candidate s k);
       validPosition :=
         if acceptable s (candidate s k) then true else validPosition st;
       attempts := S (attempts st);
       drawn := (Engine.draws (engine s) + 2 * S k)%nat |}.
Proof.
  intros Hd. unfold attempt, candidate, acceptable. rewrite Hd. cbn [fst snd].
  f_equal. lia.
Qed.

Lemma search_attempts_le fuel s st :
  (attempts st <= 50)%nat -> (attempts (search fuel s st) <= 50)%nat.
Proof.
  revert st. induction fuel as [|fuel IH]; intros st H; cbn [search];
    [exact H|].
  destruct (negb (validPosition st) && (attempts st <? 50)%nat) eqn:E;
    [|exact H].
  apply andb_true_iff in E as [_ E]. apply Nat.ltb_lt in E.
  apply IH. cbn [attempt attempts]. lia.
Qed.

(** With enough fuel the loop has run to its exit. *)
Lemma search_exit fuel s st :
  (50 <= attempts st + fuel)%nat ->
  negb (validPosition (search fuel s st))
  && (attempts (search fuel s st) <? 50)%nat = false.
Proof.
  revert st. induction fuel as [|fuel IH]; intros st H; cbn [search].
  - replace (attempts st <? 50)%nat with false
      by (symmetry; apply Nat.ltb_ge; lia).
    apply andb_false_r.
  - destruct (negb (validPosition st) && (attempts st <? 50)%nat) eqn:E.
    + apply IH. cbn [attempt attempts]. lia.
    + exact E.
Qed.

(** Fuel beyond the exit changes nothing. *)
Lemma search_stable fuel s st :
  negb (validPosition st) && (attempts st <? 50)%nat = false ->
  search fuel s st = st.
Proof. intros H. destruct fuel; cbn [search]; [reflexivity|]. now rewrite H. Qed.

Lemma search_add fuel extra s st :
  search (fuel + extra) s st = search extra s (search fuel s st).
Proof.
  revert st. induction fuel as [|fuel IH]; intros st;
    cbn [search Nat.add]; [reflexivity|].
  destruct (negb (validPosition st) && (attempts st <? 50)%nat) eqn:E.
  - apply IH.
  - symmetry. now apply search_stable.
Qed.

Lemma search_S fuel s st :
  search (S fuel) s st
  = if negb (validPosition st) && (attempts st <? 50)%nat
    then search fuel s (attempt s st) else st.
Proof. reflexivity. Qed.

(** Once assigned, [x] and [y] stay assigned; and the first pass through
    the loop assigns them. *)
Lemma search_pos fuel s st :
  is_Some (pos st) -> is_Some (pos (search fuel s st)).
Proof.
  revert st. induction fuel as [|fuel IH]; intros st H; cbn [search];
    [exact H|].
  destruct (negb (validPosition st) && (attempts st <? 50)%nat); [|exact H].
  apply IH. cbn [attempt pos]. eauto.
Qed.

Lemma search_start_pos s : is_Some (pos (search 50 s (search_start s))).
Proof.
  change 50%nat with (S 49) at 1. rewrite search_S.
  change (negb (validPosition (search_start s))
          && (attempts (search_start s) <? 50)%nat) with true.
  apply search_pos. cbn [attempt pos]. eauto.
Qed.

(** When the next [fuel] samples are all rejected, the loop runs [fuel]
    more times and ends on the last of them. *)
Lemma search_all_rejected fuel s st k :
  validPosition st = false ->
  attempts st = k ->
  drawn st = (Engine.draws (engine s) + 2 * k)%nat ->
  (k + fuel <= 50)%nat ->
  (forall j, (k <= j < k + fuel)%nat -> acceptable s (candidate s j) = false) ->
  let r := search fuel s st in
  validPosition r = false
  /\ attempts r = (k + fuel)%nat
  /\ drawn r = (Engine.draws (engine s) + 2 * (k + fuel))%nat.
Proof.
  revert st k. induction fuel as [|fuel IH]; intros st k Hv Ha Hd Hle Hrej.
  - cbn. rewrite Nat.add_0_r. auto.
  - cbv zeta. rewrite search_S, Hv. cbn [negb andb].
    replace (attempts st <? 50)%nat with true
      by (symmetry; apply Nat.ltb_lt; lia).
    rewrite (attempt_unfold s st k Hd).
    rewrite (Hrej k) by lia. rewrite Hv.
    replace (k + S fuel)%nat with (S k + fuel)%nat by lia.
    apply (IH _ (S k)); cbn [validPosition attempts drawn];
      try reflexivity; try lia.
    intros j Hj. apply Hrej. lia.
Qed.

(** The fallback point lies on the circle of radius 150 around the
    player. *)
Lemma fallback_radius (px py angle : R) :
  Engine.distanceBetween (px + cos angle * 150) (py + sin angle * 150) px py
  = 150%R.
Proof.
  unfold Engine.distanceBetween.
  replace ((px + cos angle * 150 - px) * (px + cos angle * 150 - px)
           + (py + sin angle * 150 - py) * (py + sin angle * 150 - py))%R
    with (150 * 150)%R.
  - apply sqrt_square. lra.
  - pose proof (sin2_cos2 angle) as H. unfold Rsqr in H. nra.
Qed.

Lemma getValidSpawnPoint_defined s :
  exists x y, fst (getValidSpawnPoint s) = Some (x, y).
Proof.
  unfold getValidSpawnPoint.
  destruct (search_start_pos s) as [[x y] Hp]. revert Hp.
  generalize (search 50 s (search_start s)). intros st Hp.
  destruct (negb (validPosition st)); cbn [fst]; [eauto|].
  rewrite Hp. cbn. eauto.
Qed.

(** [getValidSpawnPoint] only consumes random draws. *)
Lemma getValidSpawnPoint_scene s :
  exists d,
    snd (getValidSpawnPoint s)
    = set_engine (Engine.set_draws d (engine s)) s.
Proof.
  unfold getValidSpawnPoint.
  generalize (search 50 s (search_start s)). intros st.
  destruct (negb (validPosition st)); cbn [snd]; eauto.
Qed.

End SpawnPoint.

(** C6. The spawn-point search makes at most 50 attempts and then leaves
    its loop (more unrolling changes nothing); it always returns a point
    with both coordinates defined; and when each of the 50 sampled points
    is rejected, the point returned is the fallback
    [player + 150 * (cos angle, sin angle)] for the random angle drawn
    next, which lies at distance exactly 150 from the player. *)
Theorem getValidSpawnPoint_always_returns (s : GameScene.t) :
  let st := GameScene.search 50 s (GameScene.search_start s) in
  let px := Player.x (GameScene.player s) in
  let py := Player.y (GameScene.player s) in
  (GameScene.attempts st <= 50)%nat
  /\ (GameScene.validPosition st = true \/ GameScene.attempts st = 50%nat)
  /\ (forall fuel, (50 <= fuel)%nat ->
      GameScene.search fuel s (GameScene.search_start s) = st)
  /\ (exists x y, fst (GameScene.getValidSpawnPoint s) = Some (x, y))
  /\ ((forall k, (k < 50)%nat -> acceptable s (candidate s k) = false) ->
      let angle :=
        (Engine.random (GameScene.engine s)
           (Engine.draws (GameScene.engine s) + 100) * PI * 2)%R in
      GameScene.attempts st = 50%nat
      /\ fst (GameScene.getValidSpawnPoint s)
         = Some (px + cos angle * 150, py + sin angle * 150)%R
      /\ Engine.distanceBetween (px + cos angle * 150) (py + sin angle * 150)
           px py = 150%R).
Proof.
  intros st px py.
  assert (Hexit := search_exit 50 s (GameScene.search_start s) ltac:(cbn; lia)).
  fold st in Hexit.
  split; [apply search_attempts_le; cbn; lia|].
  split.
  { assert (GameScene.attempts st <= 50)%nat
      by (apply search_attempts_le; cbn; lia).
    destruct (GameScene.validPosition st); [now left|right].
    cbn [negb andb] in Hexit. apply Nat.ltb_ge in Hexit. lia. }
  split.
  { intros fuel Hf. replace fuel with (50 + (fuel - 50))%nat by lia.
    rewrite search_add. apply search_stable. exact Hexit. }
  split.
  { apply getValidSpawnPoint_defined. }
  intros Hrej angle.
  destruct (search_all_rejected 50 s (GameScene.search_start s) 0)
    as (Hv & Ha & Hd); try reflexivity; try lia.
  { cbn. f_equal. lia. }
  { intros j Hj. apply Hrej. lia. }
  fold st in Hv, Ha, Hd.
  split; [exact Ha|]. split; [|apply fallback_radius].
  unfold GameScene.getValidSpawnPoint. fold st. rewrite Hv. cbn [negb fst].
  rewrite Hd. reflexivity.
Qed.

(** In the walled-in sample every one of the 50 samples is pixel (50, 50),
    on a wall tile: the search falls back to the circle around the player
    at (100, 280). *)
Lemma getValidSpawnPoint_always_returns_witness :
  (forall k, (k < 50)%nat ->
     acceptable Sample.walled_in (candidate Sample.walled_in k) = false)
  /\ fst (GameScene.getValidSpawnPoint Sample.walled_in)
     = Some (100 + cos (0 * PI * 2) * 150, 280 + sin (0 * PI * 2) * 150)%R.
Proof.
  assert (H : forall k, (k < 50)%nat ->
            acceptable Sample.walled_in (candidate Sample.walled_in k) = false)
    by (intros k _; reflexivity).
  split; [exact H|].
  apply (getValidSpawnPoint_always_returns Sample.walled_in). exact H.
Defined.

(** ** Waves *)
Section Waves.

Import GameScene.
Implicit Types (s : GameScene.t).

Local Arguments fresh_enemy : simpl never.

Lemma constructor_enemyConfig self x y :
  Enemy.constructor self x y (Some enemyConfig)
  = Return (fresh_enemy self x y)
      [Emit (AddSprite self "goblin" (Some "goblin_idle_anim_f0.png"%string));
       Emit (AddBody self)].
Proof. reflexivity. Qed.

Lemma spawnEnemy_normal x y s :
  spawnEnemy x y s
  = Normal
      (set_enemies (enemies s ++ [nextRef s])
         (set_objects (<[nextRef s := fresh_enemy (nextRef s) x y]> (objects s))
            (set_nextRef (S (nextRef s))
               (set_engine
                  (Engine.set_effects
                     (Engine.effects (engine s)
                      ++ spawn_effects (nextRef s) 1)
                     (engine s)) s)))).
Proof.
  unfold spawnEnemy. rewrite constructor_enemyConfig.
  destruct s as [[] m w i b mh it inv p u cw mw en ob nr].
  scene_cbv. rewrite <- ?app_assoc. reflexivity.
Qed.

(** The spawn loop never throws: it pushes [n] fresh enemies, numbered
    from [nextRef] on, and otherwise only consumes random draws and emits
    their sprites. *)
Lemma spawnLoop_normal n s :
  exists d objs,
    spawnLoop n s
    = Normal
        (set_enemies (enemies s ++ seq (nextRef s) n)
           (set_objects objs
              (set_nextRef (nextRef s + n)%nat
                 (set_engine
                    (Engine.set_draws d
                       (Engine.set_effects
                          (Engine.effects (engine s)
                           ++ spawn_effects (nextRef s) n)
                          (engine s))) s))))
    /\ (forall r, (r < nextRef s)%nat -> objs !! r = objects s !! r)
    /\ (forall r e, objs !! r = Some e ->
        objects s !! r = Some e
        \/ ((nextRef s <= r < nextRef s + n)%nat
            /\ exists x y, e = fresh_enemy r x y))
    /\ (forall r, (nextRef s <= r < nextRef s + n)%nat ->
        exists x y, objs !! r = Some (fresh_enemy r x y)).
Proof.
  revert s. induction n as [|n IH]; intros s.
  - exists (Engine.draws (engine s)), (objects s).
    destruct s as [[] m w i b mh it inv p u cw mw en ob nr].
    cbn [spawnLoop]. scene_cbv.
    unfold spawn_effects. cbn [seq map concat].
    rewrite !app_nil_r, Nat.add_0_r.
    split; [reflexivity|]. split; [auto|]. split; [auto|].
    intros r Hr. lia.
  - cbn [spawnLoop].
    destruct (getValidSpawnPoint_defined s) as (x & y & Hp).
    destruct (getValidSpawnPoint_scene s) as (d0 & Hs).
    destruct (getValidSpawnPoint s) as [pt s1]. cbn [fst snd] in Hp, Hs.
    subst pt s1. rewrite spawnEnemy_normal.
    match goal with
    | |- context [spawnLoop n ?s2] =>
      destruct (IH s2) as (d & objs & -> & Hold & Hnew & Hin)
    end.
    exists d, objs.
    destruct s as [[] m w i b mh it inv p u cw mw en ob nr].
    scene_cbv_in Hold. scene_cbv_in Hnew. scene_cbv_in Hin. scene_cbv.
    split; [|split; [|split]].
    + unfold spawn_effects. cbn [seq map concat].
      rewrite <- !app_assoc. cbn [app].
      replace (nr + S n)%nat with (S (nr + n)) by lia. reflexivity.
    + intros r Hr. rewrite Hold by lia. apply lookup_insert_ne. lia.
    + intros r e He. destruct (Hnew r e He) as [Ho|[Hr Hf]].
      * destruct (decide (r = nr)) as [->|Hne].
        -- rewrite lookup_insert_eq in Ho. injection Ho as <-.
           right. split; [lia|eauto].
        -- rewrite lookup_insert_ne in Ho by congruence. now left.
      * right. split; [lia|exact Hf].
    + intros r Hr. destruct (decide (r = nr)) as [->|Hne].
      * rewrite Hold by lia. rewrite lookup_insert_eq. eauto.
      * apply Hin. lia.
Qed.

(** [startNextWave] never throws, and is one of two things. *)
Lemma startNextWave_normal s :
  let s1 := set_currentWave (S (currentWave s)) s in
  if (maxWaves s <? S (currentWave s))%nat
  then startNextWave s = Normal (showGameWon s1)
  else
    exists d objs,
      startNextWave s
      = Normal
          (displayWaveCounter
             (set_enemies (enemies s ++ seq (nextRef s) (S (currentWave s)))
                (set_objects objs
                   (set_nextRef (nextRef s + S (currentWave s))%nat
                      (set_engine
                         (Engine.set_draws d
                            (Engine.set_effects
                               (Engine.effects (engine s)
                                ++ spawn_effects (nextRef s)
                                     (S (currentWave s)))
                               (engine s))) s1)))))
      /\ (forall r, (r < nextRef s)%nat -> objs !! r = objects s !! r)
      /\ (forall r e, objs !! r = Some e ->
          objects s !! r = Some e
          \/ ((nextRef s <= r < nextRef s + S (currentWave s))%nat
              /\ exists x y, e = fresh_enemy r x y))
      /\ (forall r, (nextRef s <= r < nextRef s + S (currentWave s))%nat ->
          exists x y, objs !! r = Some (fresh_enemy r x y)).
Proof.
  intros s1. unfold startNextWave. fold s1.
  change (maxWaves s1) with (maxWaves s).
  change (currentWave s1) with (S (currentWave s)).
  destruct (maxWaves s <? S (currentWave s))%nat; [reflexivity|].
  destruct (spawnLoop_normal (S (currentWave s)) s1)
    as (d & objs & -> & H).
  exists d, objs. split; [reflexivity|exact H].
Qed.

End Waves.

(** C2. With [maxWaves] = 5, [startNextWave] increments the wave counter
    and returns normally. While the new wave number [n] is at most 5 it
    pushes exactly [n] freshly constructed enemies (1 from wave 0, 2 from
    wave 1, ...) and shows the wave counter; once [n] exceeds 5 it shows
    the victory screen and spawns nothing: the enemy list, the enemy
    objects and the reference counter are left as they were. *)
Theorem startNextWave_spawns_wave_number (s : GameScene.t) :
  GameScene.maxWaves s = 5%nat ->
  let n := S (GameScene.currentWave s) in
  let old := Engine.effects (GameScene.engine s) in
  exists s',
    GameScene.startNextWave s = GameScene.Normal s'
    /\ GameScene.currentWave s' = n
    /\ if (n <=? 5)%nat
       then
         GameScene.enemies s'
         = GameScene.enemies s ++ seq (GameScene.nextRef s) n
         /\ length (GameScene.enemies s') = (length (GameScene.enemies s) + n)%nat
         /\ (forall r, (GameScene.nextRef s <= r < GameScene.nextRef s + n)%nat ->
             exists x y, GameScene.objects s' !! r = Some (fresh_enemy r x y))
         /\ Engine.effects (GameScene.engine s')
            = old ++ spawn_effects (GameScene.nextRef s) n
                  ++ [DisplayWaveCounter n 5]
       else
         GameScene.enemies s' = GameScene.enemies s
         /\ GameScene.objects s' = GameScene.objects s
         /\ GameScene.nextRef s' = GameScene.nextRef s
         /\ Engine.effects (GameScene.engine s') = old ++ [ShowGameWon].
Proof.
  intros Hmax n old. pose proof (startNextWave_normal s) as H.
  cbv zeta in H. rewrite Hmax in H. fold n in H.
  destruct (Nat.leb_spec n 5) as [Hle|Hgt].
  - replace (5 <? n)%nat with false in H by (symmetry; apply Nat.ltb_ge; lia).
    destruct H as (d & objs & -> & _ & _ & Hin).
    eexists. split; [reflexivity|].
    destruct s as [[] m w i b mh it inv p u cw mw en ob nr].
    subst n old. scene_cbv_in Hin. scene_cbv_in Hmax. scene_cbv. subst mw.
    split; [reflexivity|]. split; [reflexivity|].
    split; [rewrite length_app, length_seq; reflexivity|].
    split; [exact Hin|]. now rewrite <- app_assoc.
  - replace (5 <? n)%nat with true in H by (symmetry; apply Nat.ltb_lt; lia).
    rewrite H. eexists. split; [reflexivity|].
    destruct s as [[] m w i b mh it inv p u cw mw en ob nr].
    subst n old. scene_cbv. auto.
Qed.

(** From wave 0, the first call spawns one enemy; from the scene so
    started (wave 1), the next call spawns two more. *)
Lemma startNextWave_spawns_wave_number_witness :
  GameScene.maxWaves Sample.walled_in = 5%nat
  /\ (exists s',
        GameScene.startNextWave Sample.walled_in = GameScene.Normal s'
        /\ GameScene.currentWave s' = 1%nat
        /\ GameScene.enemies s' = [0%nat])
  /\ (exists s',
        GameScene.startNextWave Sample.started = GameScene.Normal s'
        /\ GameScene.currentWave s' = 2%nat
        /\ length (GameScene.enemies s') = 3%nat).
Proof.
  split; [reflexivity|]. split.
  - destruct (startNextWave_spawns_wave_number Sample.walled_in eq_refl)
      as (s' & H1 & H2 & H3 & _).
    exists s'. auto.
  - assert (E : GameScene.currentWave Sample.started = 1%nat).
    { destruct (startNextWave_spawns_wave_number Sample.walled_in eq_refl)
        as (s' & H1 & H2 & _).
      unfold Sample.started, GameScene.create. fold Sample.walled_in.
      rewrite H1. exact H2. }
    assert (L : length (GameScene.enemies Sample.started) = 1%nat).
    { destruct (startNextWave_spawns_wave_number Sample.walled_in eq_refl)
        as (s' & H1 & _ & _ & H4 & _).
      unfold Sample.started, GameScene.create. fold Sample.walled_in.
      rewrite H1. exact H4. }
    assert (M : GameScene.maxWaves Sample.started = 5%nat).
    { pose proof (startNextWave_normal Sample.walled_in) as H.
      cbv zeta in H. change (_ <? _)%nat with false in H.
      destruct H as (d & objs & H & _).
      unfold Sample.started, GameScene.create. fold Sample.walled_in.
      rewrite H. reflexivity. }
    destruct (startNextWave_spawns_wave_number Sample.started M)
      as (s' & H1 & H2 & H3).
    cbv zeta in H2, H3. rewrite E in H2, H3.
    change (2 <=? 5)%nat with true in H3. cbv iota in H3.
    destruct H3 as (_ & H4 & _).
    exists s'. split; [exact H1|]. split; [exact H2|].
    rewrite H4, L. reflexivity.
Defined.

(** ** Breakable items *)
Section BreakableItems.

Import GameScene.
Implicit Types (s : GameScene.t) (key : Z * Z) (item : Item).




End BreakableItems.



(** ** Commands handed to the engine *)
Section Commands.

Lemma exec_spec cmds g :
  Engine.exec cmds g
  = Engine.set_timers (Engine.timers g ++ scheduled (Engine.now g) cmds)
      (Engine.set_effects (Engine.effects g ++ emitted cmds) g).
Proof.
  revert g. induction cmds as [|c cmds IH]; intros g.
  - destruct g. cbn. now rewrite !app_nil_r.
  - change (Engine.exec (c :: cmds) g)
      with (Engine.exec cmds (Engine.exec1 g c)).
    rewrite IH. destruct g, c; cbn; rewrite <- ?app_assoc; reflexivity.
Qed.

Lemma run_spec cmds s :
  GameScene.run cmds s
  = GameScene.set_engine
      (Engine.set_timers
         (Engine.timers (GameScene.engine s)
          ++ scheduled (Engine.now (GameScene.engine s)) cmds)
         (Engine.set_effects
            (Engine.effects (GameScene.engine s) ++ emitted cmds)
            (GameScene.engine s))) s.
Proof. unfold GameScene.run. now rewrite exec_spec. Qed.

Lemma pending_run cmds s :
  pending (GameScene.run cmds s)
  = pending s ++ (snd <$> scheduled (Engine.now (GameScene.engine s)) cmds).
Proof. rewrite run_spec. unfold pending. cbn. apply fmap_app. Qed.

Lemma timers_run cmds s :
  Engine.timers (GameScene.engine (GameScene.run cmds s))
  = Engine.timers (GameScene.engine s)
    ++ scheduled (Engine.now (GameScene.engine s)) cmds.
Proof. rewrite run_spec. reflexivity. Qed.

Lemma now_run cmds s :
  Engine.now (GameScene.engine (GameScene.run cmds s))
  = Engine.now (GameScene.engine s).
Proof. rewrite run_spec. reflexivity. Qed.

End Commands.

(** ** The health display *)
Section HealthDisplay.

Import UI.
Implicit Types (u : UI.t).

Lemma startHeartPulse_fields u :
  currentHealth (startHeartPulse u) = currentHealth u
  /\ maxHealth (startHeartPulse u) = maxHealth u
  /\ isPaused (startHeartPulse u) = isPaused u
  /\ hearts (startHeartPulse u) = hearts u.
Proof. unfold startHeartPulse. destruct (_ && _); repeat split. Qed.

Lemma stopHeartPulse_fields u :
  currentHealth (stopHeartPulse u) = currentHealth u
  /\ maxHealth (stopHeartPulse u) = maxHealth u
  /\ isPaused (stopHeartPulse u) = isPaused u
  /\ length (hearts (stopHeartPulse u)) = length (hearts u)
  /\ heartPulseTween (stopHeartPulse u) = false.
Proof.
  unfold stopHeartPulse. destruct (heartPulseTween u) eqn:E; cbn;
    repeat split; auto. apply length_fmap.
Qed.

Lemma updateHealth_fields health u :
  currentHealth (updateHealth health u)
  = Z.max 0 (Z.min health (maxHealth u))
  /\ maxHealth (updateHealth health u) = maxHealth u
  /\ isPaused (updateHealth health u) = isPaused u
  /\ length (hearts (updateHealth health u)) = length (hearts u).
Proof.
  unfold updateHealth.
  match goal with
  | |- context [startHeartPulse ?u1] =>
    pose proof (startHeartPulse_fields u1) as (A1 & A2 & A3 & A4);
    pose proof (stopHeartPulse_fields u1) as (B1 & B2 & B3 & B4 & _)
  end.
  cbn [currentHealth maxHealth isPaused hearts] in A1, A2, A3, A4, B1, B2, B3, B4.
  rewrite length_imap in B4.
  destruct (_ =? 1).
  - rewrite A1, A2, A3, A4, length_imap. auto.
  - rewrite B1, B2, B3, B4. auto.
Qed.

End HealthDisplay.

(** ** Player health *)
Section PlayerHealth.

Import GameScene.
Implicit Types (s : GameScene.t).

Lemma damagePlayer_invincible s :
  playerInvincible s = true -> damagePlayer s = s.
Proof. intros H. unfold damagePlayer. now rewrite H. Qed.

(** An accepted hit that leaves health: the screen shakes twice (the
    scene's shake, then the display's), the health is stored, the flag is set, the player is dimmed, and the flash and the
    end of invincibility are scheduled. *)
Lemma damagePlayer_survive s :
  playerInvincible s = false ->
  0 < fst (fst (UI.damagePlayer 1 (ui s))) ->
  damagePlayer s
  = set_engine
      (Engine.set_timers
         (Engine.timers (engine s)
          ++ Engine.repeats (Engine.now (engine s)) 150 5 InvincibilityFlash
          ++ [(Engine.now (engine s) + invincibilityTime s, InvincibilityEnd)])
         (Engine.set_effects
            (Engine.effects (engine s)
             ++ [CameraShake 100 (1 / 100)%R; CameraShake 200 (1 / 100)%R])
            (engine s)))
      (set_player (Player.set_alpha (1 / 2)%R (player s))
         (set_playerInvincible true
            (set_ui (snd (fst (UI.damagePlayer 1 (ui s)))) s))).
Proof.
  intros Hf Hh. unfold damagePlayer. rewrite Hf.
  change (ui (run [Emit (CameraShake 100 (1 / 100)%R)] s)) with (ui s).
  unfold UI.damagePlayer in *. cbn [fst snd] in *.
  replace (_ <=? 0) with false by (symmetry; apply Z.leb_gt; lia).
  destruct s as [[] m w i b mh it inv p u0 cw mw en ob nr].
  scene_cbv. rewrite <- !app_assoc. reflexivity.
Qed.

(** An accepted hit that takes the last health: the death sequence runs
    and the invincibility setup is skipped. *)
Lemma damagePlayer_death s :
  playerInvincible s = false ->
  fst (fst (UI.damagePlayer 1 (ui s))) <= 0 ->
  damagePlayer s
  = set_engine
      (Engine.set_timers
         (Engine.timers (engine s)
          ++ [(Engine.now (engine s) + 500, PlayerDeathComplete)])
         (Engine.set_effects
            (Engine.effects (engine s)
             ++ [CameraShake 100 (1 / 100)%R; CameraShake 200 (1 / 100)%R;
                 PlayerFall])
            (engine s)))
      (set_player (Player.set_tint (Some 16711680) (player s))
         (set_ui (snd (fst (UI.damagePlayer 1 (ui s)))) s)).
Proof.
  intros Hf Hh. unfold damagePlayer. rewrite Hf.
  change (ui (run [Emit (CameraShake 100 (1 / 100)%R)] s)) with (ui s).
  unfold UI.damagePlayer in *. cbn [fst snd] in *.
  replace (_ <=? 0) with true by (symmetry; apply Z.leb_le; lia).
  destruct s as [[] m w i b mh it inv p u0 cw mw en ob nr].
  unfold playerDeath. scene_cbv. rewrite <- !app_assoc. reflexivity.
Qed.

(** What [playerHit] does before it calls [damagePlayer]: the flash, the
    knockback along the enemy-to-player angle and the contact effect. *)
Lemma playerHit_spec enemy s :
  let angle :=
    Engine.angleBetween (engine s) (Enemy.x enemy) (Enemy.y enemy)
      (Player.x (player s)) (Player.y (player s)) in
  playerHit enemy s
  = damagePlayer
      (set_engine
         (Engine.set_timers
            (Engine.timers (engine s)
             ++ [(Engine.now (engine s) + 100, PlayerClearTint);
                 (Engine.now (engine s)
                  + Player.knockbackDuration (player s), KnockbackEnd)])
            (Engine.set_effects
               (Engine.effects (engine s)
                ++ [HitEffect (Player.x (player s) - cos angle * 10)
                              (Player.y (player s) - sin angle * 10)])
               (engine s)))
         (set_player
            (Player.set_velocity (cos angle * 300, sin angle * 300)%R
               (Player.set_isKnockedBack true
                  (Player.set_tint (Some 16711680) (player s)))) s)).
Proof.
  intros angle. unfold playerHit, Player.knockback.
  destruct s as [[] m w i b mh it inv p u0 cw mw en ob nr].
  destruct p. scene_cbv. cbn. rewrite <- !app_assoc. reflexivity.
Qed.

End PlayerHealth.

(** ** Session invariant *)
Section Invariant.

Import GameScene.
Implicit Types (s : GameScene.t) (cb : callback) (r : ref).

Abbreviation is_tracked := (fun cb : callback => tracked cb = true).

(** *** Pending callbacks as a list *)

Lemma fired_absent (l : list callback) i cb :
  NoDup (filter is_tracked l) -> l !! i = Some cb -> tracked cb = true ->
  cb ∉ delete i l.
Proof.
  intros Hnd Hi Ht.
  rewrite <- (take_drop_middle l i cb Hi) in Hnd.
  rewrite filter_app, filter_cons_True in Hnd by exact Ht.
  apply NoDup_app in Hnd as (_ & Hdisj & Hnd).
  apply NoDup_cons in Hnd as [Hnot _].
  rewrite delete_take_drop. intros [Hin|Hin]%elem_of_app.
  - apply (Hdisj cb).
    + apply list_elem_of_filter. auto.
    + apply elem_of_cons. now left.
  - apply Hnot. apply list_elem_of_filter. auto.
Qed.

Lemma tracked_nodup_delete (l : list callback) i :
  NoDup (filter is_tracked l) -> NoDup (filter is_tracked (delete i l)).
Proof.
  revert i. induction l as [|x l IH]; intros i H; [destruct i; exact H|].
  rewrite filter_cons in H.
  destruct i as [|i]; cbn [delete list_delete].
  - destruct (decide (tracked x = true)); [|exact H].
    now apply NoDup_cons in H as [_ H].
  - rewrite filter_cons. destruct (decide (tracked x = true)); [|auto].
    apply NoDup_cons in H as [Hx H]. apply NoDup_cons. split; [|auto].
    intros [Ht Hin]%list_elem_of_filter. apply Hx.
    apply list_elem_of_filter. split; [exact Ht|].
    eapply list_elem_of_delete_inv, Hin.
Qed.

Lemma tracked_nodup_app (l k : list callback) :
  NoDup (filter is_tracked l) -> NoDup (filter is_tracked k) ->
  (forall cb, cb ∈ k -> tracked cb = true -> cb ∉ l) ->
  NoDup (filter is_tracked (l ++ k)).
Proof.
  intros Hl Hk Hd. rewrite filter_app. apply NoDup_app.
  split; [exact Hl|]. split; [|exact Hk].
  intros cb [Ht Hin]%list_elem_of_filter [_ Hin']%list_elem_of_filter.
  exact (Hd cb Hin' Ht Hin).
Qed.

Lemma untracked_filter (k : list callback) :
  (forall cb, cb ∈ k -> tracked cb = false) -> filter is_tracked k = [].
Proof.
  induction k as [|cb k IH]; intros H; [reflexivity|].
  rewrite filter_cons_False.
  - apply IH. intros c Hc. apply H. apply elem_of_cons. now right.
  - rewrite (H cb) by (apply elem_of_cons; now left). discriminate.
Qed.

(** *** Keeping the invariant *)

(** The mould of every preservation proof: [s'] has the pending
    callbacks of [s] and [k] more. *)
Lemma invariant_extend s s' (k : list callback) :
  wave_invariant s ->
  pending s' = pending s ++ k ->
  NoDup (filter is_tracked k) ->
  (forall cb, cb ∈ k -> tracked cb = true -> cb ∉ pending s) ->
  (forall r, EnemyDestroy r ∈ pending s' ->
     r ∈ enemies s'
     /\ exists e, objects s' !! r = Some e /\ Enemy.isDying e = true) ->
  (NextWave ∈ pending s' -> enemies s' = []) ->
  (forall r, r ∈ enemies s' -> (r < nextRef s')%nat) ->
  (forall r e, objects s' !! r = Some e -> Enemy.oid e = r) ->
  (playerInvincible s' = false ->
   playerInvincible s = false /\ InvincibilityEnd ∉ k) ->
  constants s' = constants s ->
  wave_invariant s'.
Proof.
  intros [] Hp Hk Hd Hdes Hnext Hfr Ho Hfl Hc.
  constructor; auto.
  - rewrite Hp. now apply tracked_nodup_app.
  - intros Hf. destruct (Hfl Hf) as [Hf' Hnk].
    rewrite Hp. intros [H|H]%elem_of_app; [now apply inv_flag0|auto].
  - now rewrite Hc.
Qed.

(** The same enemies, flag and references; only callbacks the
    bookkeeping ignores are added; objects keep their vitals. *)
Lemma invariant_frame s s' (k : list callback) :
  wave_invariant s ->
  pending s' = pending s ++ k ->
  (forall cb, cb ∈ k -> tracked cb = false) ->
  enemies s' = enemies s ->
  nextRef s' = nextRef s ->
  (forall r, vitals <$> objects s' !! r = vitals <$> objects s !! r) ->
  playerInvincible s' = playerInvincible s ->
  constants s' = constants s ->
  wave_invariant s'.
Proof.
  intros Hinv Hp Hk He Hn Ho Hf Hc.
  assert (Hmem : forall cb, tracked cb = true -> cb ∈ pending s' ->
                            cb ∈ pending s).
  { intros cb Ht. rewrite Hp. intros [H|H]%elem_of_app; [exact H|].
    rewrite (Hk cb H) in Ht. discriminate. }
  apply (invariant_extend s s' k); auto.
  - rewrite untracked_filter by exact Hk. constructor.
  - intros cb Hin Ht. rewrite (Hk cb Hin) in Ht. discriminate.
  - intros r Hr. apply Hmem in Hr; [|reflexivity].
    destruct (inv_destroy s Hinv r Hr) as (Hin & e & He1 & He2).
    rewrite He. split; [exact Hin|].
    specialize (Ho r). rewrite He1 in Ho.
    destruct (objects s' !! r) as [e'|]; [|discriminate].
    exists e'. split; [reflexivity|].
    cbn in Ho. unfold vitals in Ho. congruence.
  - intros Hnw. rewrite He. apply (inv_next s Hinv).
    now apply Hmem.
  - intros r. rewrite He, Hn. apply (inv_fresh s Hinv).
  - intros r e He1. specialize (Ho r). rewrite He1 in Ho.
    destruct (objects s !! r) as [e0|] eqn:E; [|discriminate].
    cbn in Ho. unfold vitals in Ho.
    rewrite <- (inv_oid s Hinv r e0 E). congruence.
  - intros Hf'. split; [congruence|].
    intros Hin. specialize (Hk _ Hin). discriminate.
Qed.

(** Dropping a pending callback keeps the invariant. *)
Lemma invariant_delete s i :
  wave_invariant s ->
  wave_invariant
    (set_engine
       (Engine.set_timers (delete i (Engine.timers (engine s))) (engine s))
       s).
Proof.
  intros Hinv.
  set (s' := set_engine _ s).
  assert (Hp : pending s' = delete i (pending s)).
  { unfold pending, s'. cbn. apply list_fmap_delete. }
  assert (Hmem : forall cb, cb ∈ pending s' -> cb ∈ pending s).
  { intros cb. rewrite Hp. apply list_elem_of_delete_inv. }
  constructor.
  - rewrite Hp. apply tracked_nodup_delete, (inv_nodup s Hinv).
  - intros r Hr. apply (inv_destroy s Hinv r (Hmem _ Hr)).
  - intros Hn. apply (inv_next s Hinv (Hmem _ Hn)).
  - apply (inv_fresh s Hinv).
  - apply (inv_oid s Hinv).
  - intros Hf Hin. apply (inv_flag s Hinv Hf (Hmem _ Hin)).
  - apply (inv_constants s Hinv).
Qed.

(** *** Callbacks *)

Lemma onEnemyDestroy_invariant r s :
  wave_invariant s -> r ∈ enemies s -> EnemyDestroy r ∉ pending s ->
  wave_invariant (onEnemyDestroy r s).
Proof.
  intros Hinv Hr Habs. unfold onEnemyDestroy.
  change (enemies (set_enemies (filter (fun e => e ≠ r) (enemies s)) s))
    with (filter (fun e => e ≠ r) (enemies s)).
  assert (Hkeep : forall r', EnemyDestroy r' ∈ pending s ->
            r' ∈ filter (fun e => e ≠ r) (enemies s)
            /\ exists e, objects s !! r' = Some e /\ Enemy.isDying e = true).
  { intros r' Hr'. destruct (inv_destroy s Hinv r' Hr') as [Hin He].
    split; [|exact He]. apply list_elem_of_filter. split; [|exact Hin].
    intros ->. contradiction. }
  assert (Hnone : NextWave ∉ pending s).
  { intros Hn. rewrite (inv_next s Hinv Hn) in Hr.
    now apply elem_of_nil in Hr. }
  destruct (length (filter (fun e => e ≠ r) (enemies s)) =? 0)%nat eqn:E.
  - apply Nat.eqb_eq, nil_length_inv in E.
    apply (invariant_extend s _ [NextWave]); auto.
    + destruct s as [[] m w i b mh it inv p u cw mw en ob nr].
      scene_cbv. now rewrite fmap_app.
    + apply NoDup_singleton.
    + intros cb ->%list_elem_of_singleton _. exact Hnone.
    + intros r' Hr'.
      assert (Hold : EnemyDestroy r' ∈ pending s).
      { destruct s as [[] m w i b mh it inv p u cw mw en ob nr].
        revert Hr'. scene_cbv. rewrite fmap_app.
        intros [H|H]%elem_of_app; [exact H|].
        apply list_elem_of_singleton in H. discriminate. }
      destruct (Hkeep r' Hold) as [Hin _]. rewrite E in Hin.
      now apply elem_of_nil in Hin.
    + intros r'. change (r' ∈ filter (fun e => e ≠ r) (enemies s) ->
                         (r' < nextRef s)%nat).
      rewrite E. now intros ?%elem_of_nil.
    + apply (inv_oid s Hinv).
    + intros Hf. split; [exact Hf|].
      intros H%list_elem_of_singleton. discriminate.
  - apply (invariant_extend s _ []); auto.
    + symmetry. apply app_nil_r.
    + constructor.
    + intros cb ?%elem_of_nil. contradiction.
    + intros Hn. contradiction.
    + intros r' [_ Hin]%list_elem_of_filter. now apply (inv_fresh s Hinv).
    + apply (inv_oid s Hinv).
    + intros Hf. split; [exact Hf|]. apply not_elem_of_nil.
Qed.

Lemma startNextWave_invariant s :
  wave_invariant s -> enemies s = [] -> NextWave ∉ pending s ->
  wave_invariant (state_of (startNextWave s)).
Proof.
  intros Hinv Hen Hnone. pose proof (startNextWave_normal s) as H.
  cbv zeta in H.
  destruct (maxWaves s <? S (currentWave s))%nat.
  - rewrite H. apply (invariant_frame s _ []); auto;
      try (destruct s as [[] m w i b mh it inv p u cw mw en ob nr];
           scene_cbv; rewrite ?app_nil_r; reflexivity).
    intros cb ?%elem_of_nil. contradiction.
  - destruct H as (d & objs & -> & Hold & Hnew & _).
    apply (invariant_extend s _ []); auto.
    + destruct s as [[] m w i b mh it inv p u cw mw en ob nr].
      scene_cbv. now rewrite app_nil_r.
    + constructor.
    + intros cb ?%elem_of_nil. contradiction.
    + intros r Hr.
      assert (Hp : EnemyDestroy r ∈ pending s)
        by (destruct s as [[] m w i b mh it inv p u cw mw en ob nr];
            exact Hr).
      destruct (inv_destroy s Hinv r Hp) as [Hin _]. rewrite Hen in Hin.
      now apply elem_of_nil in Hin.
    + intros Hn. exfalso. apply Hnone.
      destruct s as [[] m w i b mh it inv p u cw mw en ob nr]. exact Hn.
    + intros r.
      change (r ∈ enemies s ++ seq (nextRef s) (S (currentWave s)) ->
              (r < nextRef s + S (currentWave s))%nat).
      intros [Hin|Hin]%elem_of_app.
      * pose proof (inv_fresh s Hinv r Hin). lia.
      * apply list_elem_of_In, in_seq in Hin. lia.
    + intros r e. change (objs !! r = Some e -> Enemy.oid e = r).
      intros He. destruct (Hnew r e He) as [Ho|(_ & x & y & ->)].
      * apply (inv_oid s Hinv r e Ho).
      * reflexivity.
    + intros Hf. split; [exact Hf|]. apply not_elem_of_nil.
Qed.

(** Changing fields of enemy objects that the bookkeeping does not read. *)
Lemma on_object_invariant (f : Enemy.t -> Enemy.t) r s :
  (forall e, vitals (f e) = vitals e) ->
  wave_invariant s -> wave_invariant (on_object f r s).
Proof.
  intros Hf Hinv. apply (invariant_frame s _ []); auto;
    try (unfold on_object, pending; cbn; rewrite ?app_nil_r; reflexivity).
  - intros cb ?%elem_of_nil. contradiction.
  - intros r'. unfold on_object. cbn. rewrite lookup_alter.
    destruct (decide (r = r')) as [<-|]; [|reflexivity].
    destruct (objects s !! r) as [e0|]; [|reflexivity].
    change (Some (vitals (f e0)) = Some (vitals e0)). now rewrite Hf.
Qed.

(** Changing the player, with the knockback force kept. *)
Lemma set_player_invariant (p : Player.t) s :
  Player.knockbackForce p = Player.knockbackForce (player s) ->
  wave_invariant s -> wave_invariant (set_player p s).
Proof.
  intros Hp Hinv. apply (invariant_frame s _ []); auto;
    try (unfold pending, constants; cbn; rewrite ?app_nil_r; try rewrite Hp;
         reflexivity).
  intros cb ?%elem_of_nil. contradiction.
Qed.

(** Handing the engine commands whose callbacks the bookkeeping
    ignores. *)
Lemma run_invariant cmds s :
  (forall cb, cb ∈ (snd <$> scheduled (Engine.now (engine s)) cmds) ->
              tracked cb = false) ->
  wave_invariant s -> wave_invariant (run cmds s).
Proof.
  intros Hk Hinv.
  apply (invariant_frame s _
           (snd <$> scheduled (Engine.now (engine s)) cmds)); auto.
  apply pending_run.
Qed.

Lemma runCallback_invariant cb s :
  wave_invariant s ->
  (tracked cb = true -> cb ∉ pending s) ->
  (forall r, cb = EnemyDestroy r -> r ∈ enemies s) ->
  (cb = NextWave -> enemies s = []) ->
  wave_invariant (state_of (runCallback cb s)).
Proof.
  intros Hinv Habs Hdes Hnext. destruct cb; cbn [runCallback state_of].
  - apply onEnemyDestroy_invariant; auto.
  - apply on_object_invariant; auto.
  - apply on_object_invariant; auto.
  - apply set_player_invariant; auto.
  - apply set_player_invariant; auto.
  - apply set_player_invariant; auto.
  - apply set_player_invariant; auto.
  - destruct Hinv. constructor; auto.
  - apply run_invariant; [|exact Hinv].
    intros cb ?%elem_of_nil. contradiction.
  - apply (invariant_frame s _ []); auto;
      try (unfold pending, constants; cbn; rewrite ?app_nil_r; reflexivity).
    intros cb ?%elem_of_nil. contradiction.
  - apply startNextWave_invariant; auto.
Qed.

(** *** Collision callbacks *)

(** [takeDamage] asks for the destruction of the enemy exactly when it
    turns it from alive to dying. *)
Lemma takeDamage_vitals damage currentTime (e : Enemy.t) :
  let e' := snd (fst (Enemy.takeDamage damage currentTime e)) in
  let cmds := snd (Enemy.takeDamage damage currentTime e) in
  Enemy.oid e' = Enemy.oid e
  /\ ((cmds = [] /\ Enemy.isDying e' = Enemy.isDying e)
      \/ (cmds = [Emit (DeathExplosion (Enemy.x e) (Enemy.y e));
                  Schedule 500 (EnemyDestroy (Enemy.oid e))]
          /\ Enemy.isDying e = false /\ Enemy.isDying e' = true)).
Proof.
  cbv zeta. split; [apply takeDamage_frame|].
  destruct (Enemy.isDying e) eqn:Hd.
  - rewrite takeDamage_dying by exact Hd. cbn. auto.
  - destruct (Z.lt_ge_cases (currentTime - Enemy.lastHitTime e)
                (Enemy.hitCooldown e)) as [Hc|Hc].
    + rewrite takeDamage_cooldown by exact Hc. cbn. auto.
    + pose proof (takeDamage_accepted damage currentTime e Hd Hc) as H.
      destruct (Enemy.takeDamage damage currentTime e) as [[k e'] c].
      cbn [fst snd]. destruct H as (_ & _ & _ & Hk & ->).
      destruct k; [right|left]; auto.
Qed.

Lemma hitEnemy_vitals currentTime (p : Player.t) (e : Enemy.t) :
  let e' := snd (fst (Player.hitEnemy currentTime p e)) in
  let cmds := snd (Player.hitEnemy currentTime p e) in
  Enemy.oid e' = Enemy.oid e
  /\ ((Enemy.isDying e' = Enemy.isDying e
       /\ forall now cb, cb ∈ (snd <$> scheduled now cmds) -> tracked cb = false)
      \/ (Enemy.isDying e = false /\ Enemy.isDying e' = true
          /\ forall now,
               filter (fun cb => tracked cb = true) (snd <$> scheduled now cmds)
               = [EnemyDestroy (Enemy.oid e)])).
Proof.
  cbv zeta. destruct (Player.isAttacking p) eqn:Ha.
  - rewrite hitEnemy_attacking by exact Ha. cbn [fst snd].
    destruct (takeDamage_vitals (Player.attackDamage p) currentTime
                (struck p e)) as [Ho [[Hc Hd]|(Hc & Hd & Hd')]].
    + split; [exact Ho|left]. split; [exact Hd|].
      intros now cb. rewrite Hc.
      destruct (Enemy.stunned e); cbn;
        rewrite ?elem_of_cons; intros H;
        repeat (destruct H as [->|H]; [reflexivity|]);
        now apply elem_of_nil in H.
    + split; [exact Ho|right]. split; [exact Hd|]. split; [exact Hd'|].
      intros now. rewrite Hc. destruct (Enemy.stunned e); reflexivity.
  - rewrite hitEnemy_idle by exact Ha. cbn [fst snd].
    split; [reflexivity|left]. split; [reflexivity|].
    intros now cb ?%elem_of_nil. contradiction.
Qed.

Lemma emit_invariant effs s :
  wave_invariant s -> wave_invariant (run (Emit <$> effs) s).
Proof.
  intros Hinv. apply run_invariant; [|exact Hinv].
  intros cb. replace (scheduled (Engine.now (engine s)) (Emit <$> effs))
    with (@nil (Z * callback)).
  - now intros ?%elem_of_nil.
  - induction effs as [|e effs IH]; [reflexivity|exact IH].
Qed.

Lemma swordHit_invariant currentTime r s :
  wave_invariant s -> r ∈ enemies s ->
  wave_invariant (swordHit currentTime r s).
Proof.
  intros Hinv Hr. unfold swordHit.
  destruct (objects s !! r) as [e|] eqn:Hobj; [|exact Hinv].
  pose proof (hitEnemy_vitals currentTime (player s) e) as Hv.
  cbv zeta in Hv.
  destruct (Player.hitEnemy currentTime (player s) e) as [[hit e1] cmds].
  cbn [fst snd] in Hv. destruct Hv as [Hoid Hv].
  assert (Hr_oid : Enemy.oid e = r) by apply (inv_oid s Hinv r e Hobj).
  set (s0 := set_objects (<[r := e1]> (objects s)) s).
  assert (Hp : pending (run cmds s0)
               = pending s
                 ++ (snd <$> scheduled (Engine.now (engine s)) cmds))
    by exact (pending_run cmds s0).
  assert (H1 : wave_invariant (run cmds s0)).
  { destruct Hv as [[Hd Hk]|(Hd & Hd' & Hk)].
    - apply (invariant_frame s _
               (snd <$> scheduled (Engine.now (engine s)) cmds)); auto;
        [apply Hk|].
      intros r'. change (objects (run cmds s0)) with (<[r := e1]> (objects s)).
      destruct (decide (r = r')) as [<-|Hne].
      + rewrite lookup_insert_eq, Hobj. cbn. unfold vitals. congruence.
      + now rewrite lookup_insert_ne.
    - assert (Hnot : EnemyDestroy r ∉ pending s).
      { intros Hin. destruct (inv_destroy s Hinv r Hin) as (_ & e' & He & Hd'').
        congruence. }
      assert (Hk' : forall cb,
                cb ∈ (snd <$> scheduled (Engine.now (engine s)) cmds) ->
                tracked cb = true -> cb = EnemyDestroy r).
      { intros cb Hin Ht.
        assert (Hf : cb ∈ filter (fun cb => tracked cb = true)
                       (snd <$> scheduled (Engine.now (engine s)) cmds))
          by (apply list_elem_of_filter; auto).
        rewrite Hk, Hr_oid in Hf. now apply list_elem_of_singleton in Hf. }
      apply (invariant_extend s _
               (snd <$> scheduled (Engine.now (engine s)) cmds)); auto.
      + rewrite Hk. apply NoDup_singleton.
      + intros cb Hin Ht. rewrite (Hk' cb Hin Ht). exact Hnot.
      + intros r'. rewrite Hp.
        change (objects (run cmds s0)) with (<[r := e1]> (objects s)).
        change (enemies (run cmds s0)) with (enemies s).
        destruct (decide (r = r')) as [<-|Hne].
        * intros _. split; [exact Hr|]. exists e1.
          now rewrite lookup_insert_eq.
        * rewrite lookup_insert_ne by exact Hne.
          intros [Hin|Hin]%elem_of_app.
          -- apply (inv_destroy s Hinv r' Hin).
          -- specialize (Hk' _ Hin eq_refl). congruence.
      + rewrite Hp. intros [Hin|Hin]%elem_of_app.
        * apply (inv_next s Hinv Hin).
        * specialize (Hk' _ Hin eq_refl). discriminate.
      + apply (inv_fresh s Hinv).
      + intros r' e'.
        change (objects (run cmds s0)) with (<[r := e1]> (objects s)).
        destruct (decide (r = r')) as [<-|Hne].
        * rewrite lookup_insert_eq. intros [= <-]. congruence.
        * rewrite lookup_insert_ne by exact Hne. apply (inv_oid s Hinv).
      + intros Hf. split; [exact Hf|]. intros Hin.
        specialize (Hk' _ Hin eq_refl). discriminate. }
  destruct hit; [|exact H1].
  apply (emit_invariant [_]), (emit_invariant [_]), H1.
Qed.

(** *** Player damage *)

Lemma arm_callbacks now cb :
  cb ∈ (snd <$> Engine.repeats now 150 5 InvincibilityFlash)
       ++ [InvincibilityEnd] ->
  cb = InvincibilityFlash \/ cb = InvincibilityEnd.
Proof. cbn. rewrite !elem_of_cons, elem_of_nil. intuition. Qed.

Lemma damagePlayer_invariant s :
  wave_invariant s -> wave_invariant (damagePlayer s).
Proof.
  intros Hinv. destruct (playerInvincible s) eqn:Hf.
  - now rewrite damagePlayer_invincible.
  - destruct (Z.lt_ge_cases 0 (fst (fst (UI.damagePlayer 1 (ui s))))) as [Hh|Hh].
    + rewrite damagePlayer_survive by assumption.
      match goal with
      | |- wave_invariant ?x => set (s' := x)
      end.
      assert (Hp : pending s'
                   = pending s
                     ++ ((snd <$> Engine.repeats (Engine.now (engine s)) 150 5
                                    InvincibilityFlash)
                         ++ [InvincibilityEnd])).
      { unfold pending, s'.
        cbn [engine set_engine Engine.timers Engine.set_timers].
        now rewrite !fmap_app. }
      assert (Hold : forall cb, cb ∈ pending s' -> cb <> InvincibilityFlash ->
                        cb <> InvincibilityEnd -> cb ∈ pending s).
      { intros cb. rewrite Hp. intros [H|H]%elem_of_app ? ?; [exact H|].
        apply arm_callbacks in H. tauto. }
      apply (invariant_extend s s' _ Hinv Hp).
      * cbn. apply NoDup_singleton.
      * intros cb [->| ->]%arm_callbacks Ht; [discriminate|].
        now apply (inv_flag s Hinv).
      * intros r Hin. apply (inv_destroy s Hinv r).
        apply Hold; [exact Hin|discriminate|discriminate].
      * intros Hin. apply (inv_next s Hinv).
        apply Hold; [exact Hin|discriminate|discriminate].
      * apply (inv_fresh s Hinv).
      * apply (inv_oid s Hinv).
      * intros Hf'. discriminate.
      * reflexivity.
    + rewrite damagePlayer_death by assumption.
      apply (invariant_frame s _ [PlayerDeathComplete]); auto.
      * unfold pending. cbn [engine set_engine Engine.timers Engine.set_timers].
        now rewrite !fmap_app.
      * intros cb ->%list_elem_of_singleton. reflexivity.
Qed.

Lemma playerHit_invariant enemy s :
  wave_invariant s -> wave_invariant (playerHit enemy s).
Proof.
  intros Hinv. rewrite playerHit_spec. apply damagePlayer_invariant.
  apply (invariant_frame s _ [PlayerClearTint; KnockbackEnd]); auto.
  - unfold pending. cbn [engine set_engine Engine.timers Engine.set_timers].
    now rewrite !fmap_app.
  - intros cb. rewrite !elem_of_cons.
    intros [->|[->|H]]; [reflexivity|reflexivity|].
    now apply elem_of_nil in H.
Qed.

(** *** Breakable items and attacks *)

Lemma set_tiles_invariant (l : layer) (b : gmap (Z * Z) Item) s :
  wave_invariant s ->
  wave_invariant (set_itemsLayer l (set_breakableItems b s)).
Proof.
  intros Hinv. apply (invariant_frame s _ []); auto.
  - unfold pending. cbn. now rewrite app_nil_r.
  - intros cb ?%elem_of_nil. contradiction.
Qed.

Lemma hitBreakableItem_invariant key s :
  wave_invariant s -> wave_invariant (state_of (hitBreakableItem key s)).
Proof.
  intros Hinv. unfold hitBreakableItem.
  destruct (breakableItems s !! key) as [item|]; [|exact Hinv].
  destruct key as [tileX tileY].
  destruct (negb (lastHitTime item =? 0) && _); [exact Hinv|].
  match goal with
  | |- context [run ?c (set_itemsLayer ?l (set_breakableItems ?b s))] =>
    assert (H3 : wave_invariant
                   (run c (set_itemsLayer l (set_breakableItems b s))))
  end.
  { apply run_invariant; [|apply set_tiles_invariant, Hinv].
    intros cb. cbn. rewrite elem_of_cons, elem_of_nil.
    intros [->|[]]. reflexivity. }
  destruct (_ <=? _); [|exact H3]. cbn [state_of].
  apply (emit_invariant [_]).
  match goal with
  | |- wave_invariant
         (set_breakableItems ?b (set_itemsLayer ?l (run ?c ?s3))) =>
    assert (E : set_breakableItems b (set_itemsLayer l (run c s3))
                = set_itemsLayer l (set_breakableItems b (run c s3)))
      by reflexivity;
    rewrite E
  end.
  apply set_tiles_invariant, (emit_invariant [_]), H3.
Qed.

Lemma checkTiles_invariant (tiles : list (option (Z * Z)))
    (checked : gset (Z * Z)) s :
  wave_invariant s -> wave_invariant (state_of (checkTiles tiles checked s)).
Proof.
  revert checked s.
  induction tiles as [|[key|] tiles IH]; intros checked s Hinv;
    cbn [checkTiles]; auto.
  destruct (decide (key ∈ checked)); [auto|].
  destruct (breakableItems s !! key); [|auto].
  pose proof (hitBreakableItem_invariant key s Hinv) as H.
  destruct (hitBreakableItem key s); [apply IH|]; exact H.
Qed.

Lemma attack_invariant s :
  wave_invariant s ->
  wave_invariant
    (run (snd (Player.attack (player s)))
       (set_player (fst (Player.attack (player s))) s)).
Proof.
  intros Hinv. unfold Player.attack.
  destruct (Player.isAttacking (player s)).
  - apply (emit_invariant []), set_player_invariant; auto.
  - destruct (Player.swing (Player.attackDirection (player s)))
      as [[[[baseAngle flipX] ox] oy] slashAngle].
    apply run_invariant; [|apply set_player_invariant; auto].
    intros cb. cbn. rewrite elem_of_cons, elem_of_nil.
    intros [->|[]]. reflexivity.
Qed.

(** *** Every step keeps the invariant *)

Lemma handle_invariant ev s s' :
  wave_invariant s -> handle ev s = Some s' -> wave_invariant s'.
Proof.
  intros Hinv. destruct ev; cbn [handle].
  - destruct (_ <=? _); [|discriminate]. intros [= <-].
    apply (invariant_frame s _ []); auto.
    + unfold pending. cbn. now rewrite app_nil_r.
    + intros cb ?%elem_of_nil. contradiction.
  - destruct (Engine.timers (engine s) !! i) as [[due cb]|] eqn:Hi;
      [|discriminate].
    destruct (due <=? Engine.now (engine s)); [|discriminate].
    intros [= <-].
    assert (Hcb : pending s !! i = Some cb).
    { unfold pending. rewrite list_lookup_fmap, Hi. reflexivity. }
    assert (Hin : cb ∈ pending s) by (eapply list_elem_of_lookup_2, Hcb).
    apply runCallback_invariant.
    + apply invariant_delete, Hinv.
    + intros Ht.
      change (cb ∉ snd <$> delete i (Engine.timers (engine s))).
      rewrite list_fmap_delete.
      apply (fired_absent _ _ _ (inv_nodup s Hinv) Hcb Ht).
    + intros r ->. apply (inv_destroy s Hinv r Hin).
    + intros ->. apply (inv_next s Hinv Hin).
  - intros [= <-]. apply set_player_invariant; auto.
  - destruct (bool_decide (r ∈ enemies s)); [|discriminate].
    intros [= <-]. apply on_object_invariant; auto.
  - pose proof (attack_invariant s Hinv) as H.
    destruct (Player.attack (player s)) as [p cmds].
    intros [= <-]. exact H.
  - destruct (bool_decide (r ∈ enemies s)) eqn:Hr; [|discriminate].
    apply bool_decide_eq_true in Hr.
    intros [= <-]. now apply swordHit_invariant.
  - destruct (bool_decide (r ∈ enemies s)); [|discriminate].
    destruct (objects s !! r); [|discriminate].
    intros [= <-]. now apply playerHit_invariant.
  - intros [= <-]. unfold checkSwordItemCollisions.
    destruct (_ || _); [exact Hinv|]. now apply checkTiles_invariant.
Qed.

Lemma boot_invariant g m walls items :
  Engine.timers g = [] -> wave_invariant (boot g m walls items).
Proof.
  intros Ht. constructor; unfold pending; cbn; rewrite ?Ht; cbn.
  - constructor.
  - now intros r ?%elem_of_nil.
  - reflexivity.
  - now intros r ?%elem_of_nil.
  - intros r e. rewrite lookup_empty. discriminate.
  - intros _. apply not_elem_of_nil.
  - reflexivity.
Qed.

Lemma create_invariant g m walls items :
  Engine.timers g = [] ->
  wave_invariant (state_of (create g m walls items)).
Proof.
  intros Ht. unfold create.
  assert (H : wave_invariant (initBreakableItems (boot g m walls items))).
  { unfold initBreakableItems. apply (emit_invariant [_]).
    exact (set_tiles_invariant (itemsLayer (boot g m walls items))
             (map_imap track (itemsLayer (boot g m walls items))
              ∪ breakableItems (boot g m walls items))
             _ (boot_invariant g m walls items Ht)). }
  apply startNextWave_invariant; [exact H|reflexivity|].
  unfold pending. cbn. rewrite Ht. apply not_elem_of_nil.
Qed.

(** The invariant holds throughout a session. *)
Lemma reachable_invariant s : reachable s -> wave_invariant s.
Proof.
  induction 1 as [g m walls items Ht|s ev s' _ IH Hstep].
  - now apply create_invariant.
  - exact (handle_invariant ev s s' IH Hstep).
Qed.

(** The knockback force is the constructor's 200 throughout a session. *)
Lemma reachable_knockbackForce s :
  reachable s -> Player.knockbackForce (player s) = 200%R.
Proof.
  intros H. pose proof (inv_constants s (reachable_invariant s H)) as C.
  unfold constants in C. congruence.
Qed.

End Invariant.

(** ** Steps that leave the wave bookkeeping alone *)
Section Quiet.

Import GameScene.
Implicit Types (s : GameScene.t) (cb : callback) (r : ref).

Lemma quiet_refl s : quiet s s.
Proof.
  repeat split; auto. exists []. rewrite app_nil_r.
  split; [reflexivity|apply not_elem_of_nil].
Qed.

Lemma quiet_trans s1 s2 s3 : quiet s1 s2 -> quiet s2 s3 -> quiet s1 s3.
Proof.
  intros (Hw & He & Hf & k & Hk & Hn) (Hw' & He' & Hf' & k' & Hk' & Hn').
  repeat split; try congruence; auto.
  exists (k ++ k'). rewrite Hk', Hk, app_assoc. split; [reflexivity|].
  rewrite fmap_app. intros [H|H]%elem_of_app; auto.
Qed.

(** Only the engine's trace, the clock, or parts of the scene the
    bookkeeping does not read have changed. *)
Lemma quiet_same s s' :
  currentWave s' = currentWave s -> enemies s' = enemies s ->
  playerInvincible s' = playerInvincible s ->
  Engine.timers (engine s') = Engine.timers (engine s) ->
  quiet s s'.
Proof.
  intros Hw He Hf Ht. repeat split; try congruence.
  exists []. rewrite app_nil_r. split; [exact Ht|apply not_elem_of_nil].
Qed.

Lemma quiet_run cmds s :
  NextWave ∉ (snd <$> scheduled (Engine.now (engine s)) cmds) ->
  quiet s (run cmds s).
Proof.
  intros Hn. rewrite run_spec. repeat split; auto.
  eexists. split; [reflexivity|exact Hn].
Qed.

Lemma quiet_emit effs s : quiet s (run (Emit <$> effs) s).
Proof.
  apply quiet_run.
  replace (scheduled (Engine.now (engine s)) (Emit <$> effs))
    with (@nil (Z * callback)).
  - apply not_elem_of_nil.
  - induction effs as [|e effs IH]; [reflexivity|exact IH].
Qed.

Lemma swordHit_quiet currentTime r s : quiet s (swordHit currentTime r s).
Proof.
  unfold swordHit. destruct (objects s !! r) as [e|]; [|apply quiet_refl].
  pose proof (hitEnemy_vitals currentTime (player s) e) as Hv.
  cbv zeta in Hv.
  destruct (Player.hitEnemy currentTime (player s) e) as [[hit e1] cmds].
  cbn [fst snd] in Hv. destruct Hv as [_ Hv].
  set (s0 := set_objects (<[r := e1]> (objects s)) s).
  assert (H1 : quiet s (run cmds s0)).
  { apply (quiet_trans _ s0); [now apply quiet_same|].
    apply quiet_run. change (Engine.now (engine s0)) with (Engine.now (engine s)).
    destruct Hv as [[_ Hk]|(_ & _ & Hk)].
    - intros Hin. specialize (Hk _ _ Hin). discriminate.
    - intros Hin.
      assert (Hf : NextWave ∈ filter (fun cb => tracked cb = true)
                     (snd <$> scheduled (Engine.now (engine s)) cmds))
        by (apply list_elem_of_filter; auto).
      rewrite Hk in Hf. apply list_elem_of_singleton in Hf. discriminate. }
  destruct hit; [|exact H1].
  eapply quiet_trans; [|apply (quiet_emit [_])].
  eapply quiet_trans; [exact H1|apply (quiet_emit [_])].
Qed.

Lemma damagePlayer_quiet s : quiet s (damagePlayer s).
Proof.
  destruct (playerInvincible s) eqn:Hf.
  - rewrite damagePlayer_invincible by exact Hf. apply quiet_refl.
  - destruct (Z.lt_ge_cases 0 (fst (fst (UI.damagePlayer 1 (ui s))))) as [Hh|Hh].
    + rewrite damagePlayer_survive by assumption.
      repeat split; auto. eexists. split; [reflexivity|].
      rewrite fmap_app. intros H.
      destruct (arm_callbacks _ _ H) as [E|E]; discriminate E.
    + rewrite damagePlayer_death by assumption.
      split; [reflexivity|]. split; [reflexivity|].
      split; [intros; congruence|].
      eexists. split; [reflexivity|].
      intros H%list_elem_of_singleton. discriminate.
Qed.

Lemma playerHit_quiet enemy s : quiet s (playerHit enemy s).
Proof.
  rewrite playerHit_spec.
  eapply quiet_trans; [|apply damagePlayer_quiet].
  repeat split; auto. eexists. split; [reflexivity|].
  cbn. rewrite !elem_of_cons, elem_of_nil. intros [H|[H|[]]]; discriminate.
Qed.

Lemma hitBreakableItem_quiet key s :
  quiet s (state_of (hitBreakableItem key s)).
Proof.
  unfold hitBreakableItem.
  destruct (breakableItems s !! key) as [item|]; [|apply quiet_refl].
  destruct key as [tileX tileY].
  destruct (negb (lastHitTime item =? 0) && _); [apply quiet_refl|].
  match goal with
  | |- context [run ?c (set_itemsLayer ?l (set_breakableItems ?b s))] =>
    assert (H3 : quiet s (run c (set_itemsLayer l (set_breakableItems b s))))
  end.
  { eapply quiet_trans; [|apply quiet_run].
    - now apply quiet_same.
    - cbn. rewrite elem_of_cons, elem_of_nil. intros [H|[]]. discriminate. }
  destruct (_ <=? _); [|exact H3]. cbn [state_of].
  eapply quiet_trans; [|apply (quiet_emit [_])].
  eapply quiet_trans; [|now apply quiet_same].
  eapply quiet_trans; [|now apply quiet_same].
  eapply quiet_trans; [exact H3|apply (quiet_emit [_])].
Qed.

Lemma checkTiles_quiet (tiles : list (option (Z * Z)))
    (checked : gset (Z * Z)) s :
  quiet s (state_of (checkTiles tiles checked s)).
Proof.
  revert checked s.
  induction tiles as [|[key|] tiles IH]; intros checked s;
    cbn [checkTiles]; auto using quiet_refl.
  destruct (decide (key ∈ checked)); [auto|].
  destruct (breakableItems s !! key); [|auto].
  pose proof (hitBreakableItem_quiet key s) as H.
  destruct (hitBreakableItem key s) as [s1|msg s1]; [|exact H].
  eapply quiet_trans; [exact H|apply IH].
Qed.

Lemma attack_quiet s :
  quiet s (run (snd (Player.attack (player s)))
             (set_player (fst (Player.attack (player s))) s)).
Proof.
  eapply quiet_trans;
    [apply (quiet_same s (set_player (fst (Player.attack (player s))) s));
     reflexivity|].
  apply quiet_run. unfold Player.attack.
  destruct (Player.isAttacking (player s)); [apply not_elem_of_nil|].
  destruct (Player.swing (Player.attackDirection (player s)))
    as [[[[baseAngle flipX] ox] oy] slashAngle].
  cbn. rewrite elem_of_cons, elem_of_nil. intros [H|[]]. discriminate.
Qed.

(** Every callback but the three tracked ones is quiet. *)
Lemma runCallback_quiet cb s :
  tracked cb = false -> quiet s (state_of (runCallback cb s)).
Proof.
  destruct cb; try discriminate; intros _; cbn [runCallback state_of];
    now apply quiet_same.
Qed.

(** Every engine event but the firing of a callback is quiet. *)
Lemma handle_quiet ev s s' :
  handle ev s = Some s' -> (forall i, ev <> Fire i) -> quiet s s'.
Proof.
  destruct ev; cbn [handle]; intros H Hne.
  - destruct (_ <=? _); [|discriminate]. injection H as <-.
    now apply quiet_same.
  - now destruct (Hne i).
  - injection H as <-. now apply quiet_same.
  - destruct (bool_decide _); [|discriminate]. injection H as <-.
    now apply quiet_same.
  - pose proof (attack_quiet s) as Hq.
    destruct (Player.attack (player s)) as [p cmds].
    injection H as <-. exact Hq.
  - destruct (bool_decide _); [|discriminate]. injection H as <-.
    apply swordHit_quiet.
  - destruct (bool_decide _); [|discriminate].
    destruct (objects s !! r); [|discriminate]. injection H as <-.
    apply playerHit_quiet.
  - injection H as <-. unfold checkSwordItemCollisions.
    destruct (_ || _); [apply quiet_refl|apply checkTiles_quiet].
Qed.

End Quiet.

(** ** The three callbacks the bookkeeping depends on *)
Section TrackedCallbacks.

Import GameScene.
Implicit Types (s : GameScene.t) (cb : callback) (r : ref).

Lemma handle_fire i s s' :
  handle (Fire i) s = Some s' ->
  exists due cb,
    Engine.timers (engine s) !! i = Some (due, cb)
    /\ due <= Engine.now (engine s)
    /\ s' = state_of (runCallback cb (without_timer i s)).
Proof.
  cbn [handle].
  destruct (Engine.timers (engine s) !! i) as [[due cb]|]; [|discriminate].
  destruct (Z.leb_spec due (Engine.now (engine s))); [|discriminate].
  intros [= <-]. eauto.
Qed.

Lemma handle_fire_due i s due cb :
  Engine.timers (engine s) !! i = Some (due, cb) ->
  handle (Fire i) s
  = if due <=? Engine.now (engine s)
    then Some (state_of (runCallback cb (without_timer i s)))
    else None.
Proof. intros H. cbn [handle]. rewrite H. reflexivity. Qed.

Lemma onEnemyDestroy_facts r s :
  let s' := onEnemyDestroy r s in
  enemies s' = filter (fun e => e ≠ r) (enemies s)
  /\ currentWave s' = currentWave s
  /\ playerInvincible s' = playerInvincible s
  /\ Engine.timers (engine s')
     = Engine.timers (engine s)
       ++ (if decide (enemies s' = [])
           then [(Engine.now (engine s) + 1000, NextWave)] else []).
Proof.
  cbv zeta. unfold onEnemyDestroy.
  change (enemies (set_enemies (filter (fun e => e ≠ r) (enemies s)) s))
    with (filter (fun e => e ≠ r) (enemies s)).
  destruct (filter (fun e => e ≠ r) (enemies s)) as [|x l]; cbn.
  - destruct (decide (@nil ref = [])); [auto|congruence].
  - destruct (decide (x :: l = [])); [discriminate|].
    now rewrite app_nil_r.
Qed.

Lemma startNextWave_facts s :
  let s' := state_of (startNextWave s) in
  currentWave s' = S (currentWave s)
  /\ playerInvincible s' = playerInvincible s
  /\ Engine.timers (engine s') = Engine.timers (engine s)
  /\ Engine.now (engine s') = Engine.now (engine s).
Proof.
  cbv zeta. pose proof (startNextWave_normal s) as H. cbv zeta in H.
  destruct (maxWaves s <? S (currentWave s))%nat.
  - rewrite H. destruct s as [[] m w i b mh it inv p u cw mw en ob nr].
    scene_cbv. auto.
  - destruct H as (d & objs & -> & _).
    destruct s as [[] m w i b mh it inv p u cw mw en ob nr].
    scene_cbv. auto.
Qed.

End TrackedCallbacks.

(** C7. Throughout a session: the next wave is pending only while the
    enemy list is empty; a step that moves the wave counter is the firing
    of a due next-wave callback, finds the enemy list empty and advances
    the wave by one; the destruction of an enemy removes it from the list;
    and a next-wave callback is created only by the step that empties the
    list, due 1000ms after that step's clock reading (callbacks fire only
    once due). [create()] itself starts the first wave with the list
    empty. *)
Theorem next_wave_only_after_clearing (s : GameScene.t) :
  GameScene.reachable s ->
  (forall g m walls items,
     GameScene.enemies
       (GameScene.initBreakableItems (GameScene.boot g m walls items)) = [])
  /\ (NextWave ∈ pending s -> GameScene.enemies s = [])
  /\ forall ev s', GameScene.handle ev s = Some s' ->
     let now := Engine.now (GameScene.engine s) in
     (GameScene.currentWave s' <> GameScene.currentWave s ->
      GameScene.enemies s = []
      /\ GameScene.currentWave s' = S (GameScene.currentWave s)
      /\ exists i due,
           ev = GameScene.Fire i
           /\ Engine.timers (GameScene.engine s) !! i = Some (due, NextWave)
           /\ due <= now)
     /\ (forall i due r,
           ev = GameScene.Fire i ->
           Engine.timers (GameScene.engine s) !! i
           = Some (due, EnemyDestroy r) ->
           r ∈ GameScene.enemies s
           /\ GameScene.enemies s'
              = filter (fun e => e ≠ r) (GameScene.enemies s))
     /\ (forall due,
           (due, NextWave) ∈ Engine.timers (GameScene.engine s') ->
           (due, NextWave) ∈ Engine.timers (GameScene.engine s)
           \/ (GameScene.enemies s <> [] /\ GameScene.enemies s' = []
               /\ due = now + 1000))
     /\ (GameScene.enemies s <> [] -> GameScene.enemies s' = [] ->
         (now + 1000, NextWave) ∈ Engine.timers (GameScene.engine s')).
Proof.
  intros Hreach. pose proof (reachable_invariant s Hreach) as Hinv.
  split; [reflexivity|]. split; [apply (inv_next s Hinv)|].
  intros ev s' Hstep now.
  assert (Hquiet : forall s0, quiet s0 s' ->
            GameScene.currentWave s0 = GameScene.currentWave s ->
            GameScene.enemies s0 = GameScene.enemies s ->
            (forall x, x ∈ Engine.timers (GameScene.engine s0) ->
                       x ∈ Engine.timers (GameScene.engine s)) ->
            (GameScene.currentWave s' = GameScene.currentWave s)
            /\ GameScene.enemies s' = GameScene.enemies s
            /\ forall due,
                 (due, NextWave) ∈ Engine.timers (GameScene.engine s') ->
                 (due, NextWave) ∈ Engine.timers (GameScene.engine s)).
  { intros s0 (Hw & He & _ & k & Hk & Hn) Hw0 He0 Ht0.
    split; [congruence|]. split; [congruence|].
    intros due. rewrite Hk. intros [H|H]%elem_of_app; [now apply Ht0|].
    exfalso. apply Hn. change NextWave with (snd (due, NextWave)).
    now apply list_elem_of_fmap_2. }
  assert (Hfire : (forall i, ev <> GameScene.Fire i) \/ exists i, ev = GameScene.Fire i).
  { destruct ev; eauto; left; discriminate. }
  destruct Hfire as [Hne|[i ->]].
  - (* an event other than a callback *)
    destruct (Hquiet s (handle_quiet ev s s' Hstep Hne)) as (Hw & He & Ht); auto.
    split; [intros; contradiction|]. split; [intros i due r ->; now destruct (Hne i)|].
    split; [intros due Hd; left; now apply Ht|]. intros; congruence.
  - destruct (handle_fire i s s' Hstep) as (due & cb & Hi & Hdue & ->).
    assert (Hin : cb ∈ pending s).
    { unfold pending. change cb with (snd (due, cb)).
      eapply list_elem_of_fmap_2, list_elem_of_lookup_2, Hi. }
    assert (Hdel : forall x,
              x ∈ Engine.timers (GameScene.engine (without_timer i s)) ->
              x ∈ Engine.timers (GameScene.engine s))
      by (intros x; apply list_elem_of_delete_inv).
    destruct (tracked cb) eqn:Htr.
    + destruct cb; try discriminate; cbn [GameScene.runCallback GameScene.state_of].
      * (* the destruction of enemy r *)
        destruct (inv_destroy s Hinv r Hin) as [Hr _].
        destruct (onEnemyDestroy_facts r (without_timer i s))
          as (He & Hw & _ & Ht).
        cbv zeta in He, Hw, Ht.
        change (GameScene.enemies (without_timer i s))
          with (GameScene.enemies s) in He.
        change (GameScene.currentWave (without_timer i s))
          with (GameScene.currentWave s) in Hw.
        change (Engine.now (GameScene.engine (without_timer i s)))
          with now in Ht.
        assert (Hne : GameScene.enemies s <> [])
          by (intros E; rewrite E in Hr; now apply elem_of_nil in Hr).
        split; [intros; contradiction|]. split; [|split].
        -- intros i' due' r' [= <-]. rewrite Hi. intros E.
           inversion E; subst. auto.
        -- intros due'. rewrite Ht. intros [H|H]%elem_of_app; [left; auto|].
           destruct (decide _) as [E|E]; [|now apply elem_of_nil in H].
           apply list_elem_of_singleton in H. injection H as ->. auto.
        -- intros _ E. rewrite Ht. apply elem_of_app. right.
           destruct (decide _); [|contradiction].
           now apply list_elem_of_singleton.
      * (* the end of invincibility *)
        split; [intros H; now destruct H|].
        split; [intros i' due' r' [= <-]; rewrite Hi; discriminate|].
        split; [intros due' H; left; now apply Hdel|].
        intros H1 H2. now destruct H1.
      * (* the next wave *)
        destruct (startNextWave_facts (without_timer i s)) as (Hw & _ & Ht & _).
        cbv zeta in Hw, Ht.
        pose proof (inv_next s Hinv Hin) as Hen.
        split; [intros _; split; [exact Hen|]; split; [exact Hw|eauto]|].
        split; [intros i' due' r' [= <-]; rewrite Hi; discriminate|].
        split; [intros due'; rewrite Ht; intros H; left; now apply Hdel|].
        intros H; now destruct H.
    + destruct (Hquiet (without_timer i s)
                  (runCallback_quiet cb (without_timer i s) Htr))
        as (Hw & He & Ht); auto.
      split; [intros; contradiction|].
      split; [intros i' due' r' [= <-]; rewrite Hi; intros E;
              inversion E; subst; discriminate|].
      split; [intros due' Hd; left; now apply Ht|]. intros; congruence.
Qed.


Lemma reachable_replay evs s s' :
  GameScene.reachable s -> replay evs s = Some s' -> GameScene.reachable s'.
Proof.
  unfold replay. revert s. induction evs as [|ev evs IH]; intros s Hs.
  - intros [= <-]. exact Hs.
  - cbn [fold_left]. destruct (GameScene.handle ev s) as [s1|] eqn:E.
    + apply IH. exact (GameScene.reach_step s ev s1 Hs E).
    + intros H. exfalso. clear -H.
      induction evs as [|e evs IH']; [discriminate|exact (IH' H)].
Qed.

Lemma started_reachable : GameScene.reachable Sample.started.
Proof. apply GameScene.reach_create. reflexivity. Qed.

Lemma cleared_reachable : GameScene.reachable Sample.cleared.
Proof.
  apply (reachable_replay Sample.clearing Sample.started);
    [exact started_reachable|].
  unfold Sample.cleared.
  destruct (replay Sample.clearing Sample.started) eqn:E; [reflexivity|].
  exfalso. vm_compute in E. discriminate.
Qed.

Lemma touched_reachable : GameScene.reachable Sample.touched.
Proof.
  apply (reachable_replay [GameScene.EnemyTouch 0%nat] Sample.started);
    [exact started_reachable|].
  unfold Sample.touched.
  destruct (replay _ Sample.started) eqn:E; [reflexivity|].
  exfalso. vm_compute in E. discriminate.
Qed.

(** Once the only goblin of the first wave is destroyed, the next wave is
    pending and the enemy list is empty. *)
Lemma next_wave_only_after_clearing_witness :
  GameScene.reachable Sample.cleared
  /\ pending Sample.cleared
     = [AttackComplete 0; EnemyClearStun 0%nat; EnemyClearTint 0%nat;
        EnemyClearTint 0%nat; EnemyClearTint 0%nat; NextWave]
  /\ GameScene.enemies Sample.cleared = [].
Proof.
  split; [exact cleared_reachable|].
  assert (E : pending Sample.cleared
              = [AttackComplete 0; EnemyClearStun 0%nat; EnemyClearTint 0%nat;
                 EnemyClearTint 0%nat; EnemyClearTint 0%nat; NextWave])
    by (vm_compute; reflexivity).
  split; [exact E|].
  destruct (next_wave_only_after_clearing Sample.cleared cleared_reachable)
    as (_ & H & _).
  apply H. rewrite E. apply list_elem_of_In. cbn. tauto.
Defined.


Lemma recovering_reachable : GameScene.reachable Sample.recovering.
Proof.
  apply (reachable_replay
           [GameScene.Tick 400; GameScene.Fire 0%nat; GameScene.Fire 0%nat]
           Sample.touched); [exact touched_reachable|].
  unfold Sample.recovering.
  destruct (replay _ Sample.touched) eqn:E; [reflexivity|].
  exfalso. vm_compute in E. discriminate.
Qed.

Lemma overdue_reachable : GameScene.reachable overdue.
Proof.
  apply (reachable_replay [GameScene.Tick 1000] Sample.recovering);
    [exact recovering_reachable|].
  unfold overdue.
  destruct (replay _ Sample.recovering) eqn:E; [reflexivity|].
  exfalso. vm_compute in E. discriminate.
Qed.

(** C5. In every scene of a session: [damagePlayer] while the
    invincibility flag is set changes nothing; an accepted call shakes the
    camera (the scene's shake, then the display's) and stores the health
    decremented by one and clamped; if the decremented health is positive
    the flag is set, the player is dimmed, and the one pending end of
    invincibility is due exactly 1000ms later (only it and the six flashes
    are scheduled); if it is not positive the death sequence is started
    (the player is tinted and falls, game over 500ms later) and neither
    the flag nor an end of invincibility is set up. Once set, the flag is
    cleared only by the firing of that callback; the callback cannot fire
    before it is due, and when it fires it clears the flag, restores full
    opacity and leaves no other end of invincibility pending. *)
Theorem damagePlayer_invincibility_window (s : GameScene.t) :
  GameScene.reachable s ->
  let newHealth := UI.currentHealth (GameScene.ui s) - 1 in
  let now := Engine.now (GameScene.engine s) in
  let s' := GameScene.damagePlayer s in
  (GameScene.playerInvincible s = true -> s' = s)
  /\ (GameScene.playerInvincible s = false ->
      GameScene.ui s' = UI.updateHealth newHealth (GameScene.ui s)
      /\ UI.currentHealth (GameScene.ui s')
         = Z.max 0 (Z.min newHealth (UI.maxHealth (GameScene.ui s)))
      /\ (0 < newHealth ->
          GameScene.playerInvincible s' = true
          /\ (forall due,
                ((due, InvincibilityEnd) ∈ Engine.timers (GameScene.engine s'))
                <-> due = now + 1000)
          /\ Engine.timers (GameScene.engine s')
             = Engine.timers (GameScene.engine s)
               ++ Engine.repeats now 150 5 InvincibilityFlash
               ++ [(now + 1000, InvincibilityEnd)]
          /\ Engine.effects (GameScene.engine s')
             = Engine.effects (GameScene.engine s)
               ++ [CameraShake 100 (1 / 100)%R; CameraShake 200 (1 / 100)%R]
          /\ Player.alpha (GameScene.player s') = (1 / 2)%R)
      /\ (newHealth <= 0 ->
          GameScene.playerInvincible s' = false
          /\ (InvincibilityEnd ∉ pending s')
          /\ Engine.timers (GameScene.engine s')
             = Engine.timers (GameScene.engine s)
               ++ [(now + 500, PlayerDeathComplete)]
          /\ Engine.effects (GameScene.engine s')
             = Engine.effects (GameScene.engine s)
               ++ [CameraShake 100 (1 / 100)%R; CameraShake 200 (1 / 100)%R;
                   PlayerFall]
          /\ Player.tint (GameScene.player s') = Some 16711680))
  /\ (forall ev s2,
        GameScene.handle ev s = Some s2 ->
        GameScene.playerInvincible s = true ->
        GameScene.playerInvincible s2 = false ->
        exists i due,
          ev = GameScene.Fire i
          /\ Engine.timers (GameScene.engine s) !! i
             = Some (due, InvincibilityEnd)
          /\ due <= now)
  /\ (forall i due,
        Engine.timers (GameScene.engine s) !! i = Some (due, InvincibilityEnd) ->
        (now < due -> GameScene.handle (GameScene.Fire i) s = None)
        /\ (due <= now ->
            exists s2,
              GameScene.handle (GameScene.Fire i) s = Some s2
              /\ GameScene.playerInvincible s2 = false
              /\ Player.alpha (GameScene.player s2) = 1%R
              /\ GameScene.ui s2 = GameScene.ui s
              /\ (InvincibilityEnd ∉ pending s2)
              /\ GameScene.ui (GameScene.damagePlayer s2)
                 = UI.updateHealth (UI.currentHealth (GameScene.ui s) - 1)
                     (GameScene.ui s))).
Proof.
  intros Hreach newHealth now s'.
  pose proof (reachable_invariant s Hreach) as Hinv.
  assert (Htime : GameScene.invincibilityTime s = 1000).
  { pose proof (inv_constants s Hinv) as C. unfold constants in C. congruence. }
  assert (Hui : forall s0,
             GameScene.playerInvincible s0 = false ->
             GameScene.ui (GameScene.damagePlayer s0)
             = UI.updateHealth (UI.currentHealth (GameScene.ui s0) - 1)
                 (GameScene.ui s0)).
  { intros s0 Hf0.
    destruct (Z.lt_ge_cases 0 (fst (fst (UI.damagePlayer 1 (GameScene.ui s0)))))
      as [Hh|Hh].
    - rewrite damagePlayer_survive by assumption. reflexivity.
    - rewrite damagePlayer_death by assumption. reflexivity. }
  split; [apply damagePlayer_invincible|]. split; [|split].
  - intros Hf.
    assert (Hnone : forall due,
              (due, InvincibilityEnd) ∉ Engine.timers (GameScene.engine s)).
    { intros due Hin. apply (inv_flag s Hinv Hf). unfold pending.
      change InvincibilityEnd with (snd (due, InvincibilityEnd)).
      now apply list_elem_of_fmap_2. }
    split; [exact (Hui s Hf)|]. split; [|split].
    + unfold s'. rewrite (Hui s Hf).
      apply (updateHealth_fields newHealth (GameScene.ui s)).
    + intros Hh. unfold s'. rewrite damagePlayer_survive by assumption.
      split; [reflexivity|]. split; [|split].
      * intros due.
        cbn [GameScene.engine GameScene.set_engine Engine.timers
               Engine.set_timers].
        rewrite Htime, !elem_of_app. split.
        -- intros [H|[H|H]].
           ++ now destruct (Hnone due).
           ++ cbn in H. rewrite !elem_of_cons, elem_of_nil in H.
              repeat (destruct H as [H|H]; [discriminate|]). contradiction.
           ++ apply list_elem_of_singleton in H. injection H as ->.
              reflexivity.
        -- intros ->. right. right. now apply list_elem_of_singleton.
      * rewrite Htime. reflexivity.
      * split; reflexivity.
    + intros Hh. unfold s'. rewrite damagePlayer_death by assumption.
      split; [exact Hf|]. split; [|auto].
      unfold pending.
      cbn [GameScene.engine GameScene.set_engine Engine.timers
             Engine.set_timers].
      rewrite fmap_app. intros [H|H]%elem_of_app.
      * now apply (inv_flag s Hinv Hf).
      * apply list_elem_of_singleton in H. discriminate.
  - intros ev s2 Hstep Hf Hf2.
    assert (Hfire : (forall i, ev <> GameScene.Fire i)
                    \/ exists i, ev = GameScene.Fire i).
    { destruct ev; eauto; left; discriminate. }
    destruct Hfire as [Hne|[i ->]].
    + destruct (handle_quiet ev s s2 Hstep Hne) as (_ & _ & Hk & _).
      rewrite (Hk Hf) in Hf2. discriminate.
    + destruct (handle_fire i s s2 Hstep) as (due & cb & Hi & Hdue & ->).
      destruct (tracked cb) eqn:Htr.
      * destruct cb; try discriminate;
          cbn [GameScene.runCallback GameScene.state_of] in Hf2.
        -- destruct (onEnemyDestroy_facts r (without_timer i s))
             as (_ & _ & E & _).
           cbv zeta in E. rewrite E in Hf2.
           change (GameScene.playerInvincible s = false) in Hf2. congruence.
        -- eauto.
        -- destruct (startNextWave_facts (without_timer i s)) as (_ & E & _).
           cbv zeta in E. rewrite E in Hf2.
           change (GameScene.playerInvincible s = false) in Hf2. congruence.
      * destruct (runCallback_quiet cb (without_timer i s) Htr)
          as (_ & _ & Hk & _).
        rewrite (Hk Hf) in Hf2. discriminate.
  - intros i due Hi. rewrite (handle_fire_due i s due _ Hi). fold now. split.
    + intros Hlt. apply Z.leb_gt in Hlt. rewrite Hlt. reflexivity.
    + intros Hle. apply Z.leb_le in Hle. rewrite Hle.
      eexists. split; [reflexivity|]. cbn [GameScene.runCallback GameScene.state_of].
      split; [reflexivity|]. split; [reflexivity|]. split; [reflexivity|].
      split.
      * change (InvincibilityEnd ∉ pending (without_timer i s)).
        unfold pending, without_timer.
        cbn [GameScene.engine GameScene.set_engine Engine.timers
               Engine.set_timers].
        rewrite list_fmap_delete.
        apply (fired_absent _ i InvincibilityEnd);
          [apply (inv_nodup s Hinv) | | reflexivity].
        rewrite list_lookup_fmap, Hi. reflexivity.
      * rewrite Hui by reflexivity. reflexivity.
Qed.

(** In the started sample the player has 5 health and is not invincible:
    the touch of the goblin leaves 4 health and sets the flag; a further
    [damagePlayer] in that scene changes nothing. In the recovering sample
    (clock 400) the end of invincibility, due at 1000, cannot fire; once
    the clock reads 1000 it fires and clears the flag. *)
Lemma damagePlayer_invincibility_window_witness :
  GameScene.reachable Sample.started
  /\ GameScene.playerInvincible Sample.started = false
  /\ UI.currentHealth (GameScene.ui (GameScene.damagePlayer Sample.started)) = 4
  /\ GameScene.playerInvincible (GameScene.damagePlayer Sample.started) = true
  /\ GameScene.damagePlayer Sample.touched = Sample.touched
  /\ GameScene.handle (GameScene.Fire 6%nat) Sample.recovering = None
  /\ exists s2,
       GameScene.handle (GameScene.Fire 6%nat) overdue = Some s2
       /\ GameScene.playerInvincible s2 = false.
Proof.
  split; [exact started_reachable|].
  assert (Hf : GameScene.playerInvincible Sample.started = false)
    by (vm_compute; reflexivity).
  split; [exact Hf|].
  destruct (damagePlayer_invincibility_window Sample.started started_reachable)
    as (_ & H & _).
  destruct (H Hf) as (_ & Hh & Hs & _).
  split; [rewrite Hh; vm_compute; reflexivity|].
  split; [apply Hs; vm_compute; reflexivity|].
  destruct (damagePlayer_invincibility_window Sample.touched touched_reachable)
    as (Hno & _).
  split; [apply Hno; vm_compute; reflexivity|].
  destruct (damagePlayer_invincibility_window Sample.recovering
              recovering_reachable) as (_ & _ & _ & Hearly).
  destruct (damagePlayer_invincibility_window overdue overdue_reachable)
    as (_ & _ & _ & Hdue).
  split.
  - apply (Hearly 6%nat 1000); [vm_compute; reflexivity|vm_compute; reflexivity].
  - destruct (Hdue 6%nat 1000) as [_ Hfire]; [vm_compute; reflexivity|].
    destruct Hfire as (s2 & E & Hfl & _); [vm_compute; discriminate|].
    exists s2. split; assumption.
Defined.

(** ** Sword hits in the scene *)

(** C10. While the player is attacking, [hitEnemy] always reports a hit
    and always knocks back, stuns (arming the 500ms clear only if the enemy
    was not stunned yet) and tints the enemy (arming the 150ms clear),
    whether or not the enemy's [takeDamage] counts the hit: when the enemy
    is dying or inside its hit cooldown, that is all that happens and the
    hit counter stays. While the player is not attacking the call changes
    nothing and returns false. In the scene, [swordHit] stores the enemy so
    changed and hands the two clears to the clock, due 500ms and 150ms
    after the hit; neither can fire before it is due; when the stun clear
    fires it resets [stunned] of that enemy, when the tint clear fires it
    removes the tint of that enemy, and each leaves every other enemy
    alone. *)
Theorem hitEnemy_reports_hit_even_if_rejected
    (currentTime : Z) (p : Player.t) (enemy : Enemy.t) :
  (Player.isAttacking p = false ->
   Player.hitEnemy currentTime p enemy = (false, enemy, []))
  /\ (Player.isAttacking p = true ->
      let hit := fst (fst (Player.hitEnemy currentTime p enemy)) in
      let enemy' := snd (fst (Player.hitEnemy currentTime p enemy)) in
      let cmds := snd (Player.hitEnemy currentTime p enemy) in
      let timers :=
        (if Enemy.stunned enemy then []
         else [Schedule 500 (EnemyClearStun (Enemy.oid enemy))])
        ++ [Schedule 150 (EnemyClearTint (Enemy.oid enemy))] in
      hit = true
      /\ Enemy.velocity enemy' = Enemy.velocity (struck p enemy)
      /\ Enemy.stunned enemy' = true
      /\ Enemy.tint enemy' = Some 16711680
      /\ (exists rest, cmds = timers ++ rest)
      /\ (Enemy.isDying enemy = true
          \/ currentTime - Enemy.lastHitTime enemy < Enemy.hitCooldown enemy ->
          enemy' = struck p enemy
          /\ Enemy.hitsTaken enemy' = Enemy.hitsTaken enemy
          /\ cmds = timers ++ [Emit (ConsoleLog "Enemy hit with force:")]))
  /\ (forall (s : GameScene.t) (r : ref),
        GameScene.player s = p ->
        Player.isAttacking p = true ->
        GameScene.objects s !! r = Some enemy ->
        Enemy.oid enemy = r ->
        let now := Engine.now (GameScene.engine s) in
        let s' := GameScene.swordHit currentTime r s in
        GameScene.objects s' !! r
        = Some (snd (fst (Player.hitEnemy currentTime p enemy)))
        /\ Engine.now (GameScene.engine s') = now
        /\ exists rest,
             Engine.timers (GameScene.engine s')
             = Engine.timers (GameScene.engine s)
               ++ (if Enemy.stunned enemy then []
                   else [(now + 500, EnemyClearStun r)])
               ++ [(now + 150, EnemyClearTint r)] ++ rest)
  /\ (forall (s : GameScene.t) (r : ref) (i : nat) (due : Z) (cb : callback)
             (clear : Enemy.t -> Enemy.t),
        (cb = EnemyClearStun r /\ clear = Enemy.set_stunned false)
        \/ (cb = EnemyClearTint r /\ clear = Enemy.set_tint None) ->
        Engine.timers (GameScene.engine s) !! i = Some (due, cb) ->
        let now := Engine.now (GameScene.engine s) in
        (now < due -> GameScene.handle (GameScene.Fire i) s = None)
        /\ (due <= now ->
            exists s2,
              GameScene.handle (GameScene.Fire i) s = Some s2
              /\ GameScene.objects s2 !! r
                 = clear <$> GameScene.objects s !! r
              /\ (forall r', r' <> r ->
                    GameScene.objects s2 !! r' = GameScene.objects s !! r')
              /\ Engine.timers (GameScene.engine s2)
                 = delete i (Engine.timers (GameScene.engine s)))).
Proof.
  split; [apply hitEnemy_idle|]. split; [|split].
  - intros Ha. cbv zeta. rewrite hitEnemy_attacking by assumption.
    cbn [fst snd].
    destruct (takeDamage_frame (Player.attackDamage p) currentTime
                (struck p enemy)) as (_ & Hv & Hs & Ht & _).
    split; [reflexivity|]. split; [exact Hv|].
    split; [rewrite Hs; reflexivity|]. split; [rewrite Ht; reflexivity|].
    split.
    + eexists. rewrite <- app_assoc. reflexivity.
    + intros Hrej.
      assert (E : Enemy.takeDamage (Player.attackDamage p) currentTime
                    (struck p enemy) = (false, struck p enemy, [])).
      { destruct Hrej as [Hd|Hc].
        - apply takeDamage_dying. exact Hd.
        - apply takeDamage_cooldown. exact Hc. }
      rewrite E. cbn [fst snd]. split; [reflexivity|].
      split; [reflexivity|]. now rewrite <- app_assoc.
  - intros s r Hp Ha Ho <-. cbv zeta. unfold GameScene.swordHit.
    rewrite Ho, Hp.
    pose proof (hitEnemy_attacking currentTime p enemy Ha) as E.
    destruct (Player.hitEnemy currentTime p enemy) as [[hit e1] cmds].
    injection E as -> _ Ec. cbn [fst snd].
    rewrite !timers_run, !now_run.
    cbn [GameScene.objects GameScene.set_objects GameScene.run
         GameScene.set_engine].
    split; [apply lookup_insert_eq|]. split; [reflexivity|].
    change (Engine.timers
              (GameScene.engine
                 (GameScene.set_objects
                    (<[Enemy.oid enemy:=e1]> (GameScene.objects s)) s)))
      with (Engine.timers (GameScene.engine s)).
    change (Engine.now
              (GameScene.engine
                 (GameScene.set_objects
                    (<[Enemy.oid enemy:=e1]> (GameScene.objects s)) s)))
      with (Engine.now (GameScene.engine s)).
    rewrite Ec. unfold scheduled. rewrite !flat_map_app.
    cbn [flat_map app]. rewrite !app_nil_r.
    destruct (Enemy.stunned enemy); cbn [flat_map app];
      eexists; rewrite <- ?app_assoc; reflexivity.
  - intros s r i due cb clear Hcb Hi. cbv zeta.
    rewrite (handle_fire_due i s due cb Hi). split.
    + intros Hlt. apply Z.leb_gt in Hlt. rewrite Hlt. reflexivity.
    + intros Hle. apply Z.leb_le in Hle. rewrite Hle.
      eexists. split; [reflexivity|].
      destruct Hcb as [[-> ->]|[-> ->]];
        cbn [GameScene.runCallback GameScene.state_of GameScene.on_object
             GameScene.objects GameScene.set_objects without_timer
             GameScene.set_engine GameScene.engine Engine.timers
             Engine.set_timers];
        (split; [|split; [|reflexivity]]).
      * rewrite lookup_alter. destruct (decide (r = r)); [reflexivity|].
        contradiction.
      * intros r' Hne. rewrite lookup_alter.
        destruct (decide (r = r')); [congruence|reflexivity].
      * rewrite lookup_alter. destruct (decide (r = r)); [reflexivity|].
        contradiction.
      * intros r' Hne. rewrite lookup_alter.
        destruct (decide (r = r')); [congruence|reflexivity].
Qed.

(** The goblin hit at 1000 is hit again at 1100, inside its cooldown: the
    second call still reports a hit and knocks it back. In the sample
    scene the goblin hit at clock 0 is stunned; its stun clear, due at 500,
    cannot fire at clock 499 and resets [stunned] when fired at 500. *)
Lemma hitEnemy_reports_hit_even_if_rejected_witness :
  Player.isAttacking Sample.knight = true
  /\ fst (fst (Player.hitEnemy 1100 Sample.knight
                 (snd (fst (Player.hitEnemy 1000 Sample.knight
                              Sample.goblin))))) = true
  /\ Enemy.stunned <$> GameScene.objects (stunned_at 499) !! 0%nat = Some true
  /\ GameScene.handle (GameScene.Fire 1%nat) (stunned_at 499) = None
  /\ exists s2,
       GameScene.handle (GameScene.Fire 1%nat) (stunned_at 500) = Some s2
       /\ Enemy.stunned <$> GameScene.objects s2 !! 0%nat = Some false.
Proof.
  split; [reflexivity|].
  destruct (hitEnemy_reports_hit_even_if_rejected 1100 Sample.knight
              (snd (fst (Player.hitEnemy 1000 Sample.knight Sample.goblin))))
    as (_ & H & _ & Hclear).
  split; [apply H; reflexivity|].
  split; [vm_compute; reflexivity|].
  split.
  - apply (Hclear (stunned_at 499) 0%nat 1%nat 500 (EnemyClearStun 0%nat)
             (Enemy.set_stunned false));
      [left; auto | vm_compute; reflexivity | vm_compute; reflexivity].
  - destruct (Hclear (stunned_at 500) 0%nat 1%nat 500 (EnemyClearStun 0%nat)
                (Enemy.set_stunned false)) as [_ Hfire];
      [left; auto | vm_compute; reflexivity |].
    destruct Hfire as (s2 & E & Ho & _); [vm_compute; discriminate|].
    exists s2. split; [exact E|].
    apply (f_equal (fmap Enemy.stunned)) in Ho.
    etransitivity; [exact Ho|]. vm_compute. reflexivity.
Defined.

(** ** Enemy touches while invincible *)

(** C8, as the code has it. While the invincibility flag is set, an enemy
    touching the player still runs the rest of the collision resolution:
    the player is tinted (cleared 100ms later), knocked back at speed 300
    along the enemy-to-player angle, and the contact effect is played. Only
    the damage is withheld: health and the flag are unchanged and nothing
    of the invincibility is scheduled again. *)
Theorem playerHit_while_invincible (enemy : Enemy.t) (s : GameScene.t) :
  GameScene.playerInvincible s = true ->
  let p := GameScene.player s in
  let now := Engine.now (GameScene.engine s) in
  let angle :=
    Engine.angleBetween (GameScene.engine s) (Enemy.x enemy) (Enemy.y enemy)
      (Player.x p) (Player.y p) in
  let s' := GameScene.playerHit enemy s in
  GameScene.ui s' = GameScene.ui s
  /\ GameScene.playerInvincible s' = true
  /\ Engine.timers (GameScene.engine s')
     = Engine.timers (GameScene.engine s)
       ++ [(now + 100, PlayerClearTint);
           (now + Player.knockbackDuration p, KnockbackEnd)]
  /\ Player.tint (GameScene.player s') = Some 16711680
  /\ Player.isKnockedBack (GameScene.player s') = true
  /\ Player.velocity (GameScene.player s')
     = (cos angle * 300, sin angle * 300)%R
  /\ Engine.effects (GameScene.engine s')
     = Engine.effects (GameScene.engine s)
       ++ [HitEffect (Player.x p - cos angle * 10)
                     (Player.y p - sin angle * 10)].
Proof.
  intros Hf p now angle s'. unfold s'.
  rewrite playerHit_spec, damagePlayer_invincible by exact Hf.
  repeat split; try reflexivity. exact Hf.
Qed.

(** The recovering sample player is invincible and touched by the goblin. *)
Lemma playerHit_while_invincible_witness :
  GameScene.playerInvincible Sample.recovering = true
  /\ GameScene.ui (GameScene.playerHit Sample.goblin Sample.recovering)
     = GameScene.ui Sample.recovering
  /\ Player.isKnockedBack
       (GameScene.player (GameScene.playerHit Sample.goblin Sample.recovering))
     = true.
Proof.
  assert (Hf : GameScene.playerInvincible Sample.recovering = true)
    by (vm_compute; reflexivity).
  split; [exact Hf|].
  destruct (playerHit_while_invincible Sample.goblin Sample.recovering Hf)
    as (H1 & _ & _ & _ & H5 & _).
  split; [exact H1|exact H5].
Defined.

(** C8 as stated fails: the recovering player is invincible, untinted and
    not knocked back; the goblin touches it again, and it is tinted and
    knocked back and one more effect, the contact effect, is played, while
    its health stays at 4. *)
Lemma playerHit_while_invincible_counterexample :
  GameScene.reachable Sample.recovering
  /\ GameScene.handle (GameScene.EnemyTouch 0%nat) Sample.recovering
     = Some Sample.touched_again
  /\ GameScene.playerInvincible Sample.recovering = true
  /\ Player.tint (GameScene.player Sample.recovering) = None
  /\ Player.isKnockedBack (GameScene.player Sample.recovering) = false
  /\ Player.tint (GameScene.player Sample.touched_again) = Some 16711680
  /\ Player.isKnockedBack (GameScene.player Sample.touched_again) = true
  /\ length (Engine.effects (GameScene.engine Sample.touched_again))
     = S (length (Engine.effects (GameScene.engine Sample.recovering)))
  /\ UI.currentHealth (GameScene.ui Sample.recovering) = 4
  /\ UI.currentHealth (GameScene.ui Sample.touched_again) = 4.
Proof.
  split.
  { apply (reachable_replay
             [GameScene.Tick 400; GameScene.Fire 0%nat; GameScene.Fire 0%nat]
             Sample.touched); [exact touched_reachable|].
    unfold Sample.recovering.
    destruct (replay _ Sample.touched) eqn:E; [reflexivity|].
    exfalso. vm_compute in E. discriminate. }
  split.
  { unfold Sample.touched_again.
    change (replay [GameScene.EnemyTouch 0%nat] Sample.recovering)
      with (GameScene.handle (GameScene.EnemyTouch 0%nat) Sample.recovering).
    destruct (GameScene.handle _ Sample.recovering) eqn:E; [reflexivity|].
    exfalso. vm_compute in E. discriminate. }
  repeat split; vm_compute; reflexivity.
Qed.

(** * Further properties *)

(** ** Life cycle of an enemy *)

Section EnemyLife.

Lemma takeDamage_sound damage currentTime e :
  sound e = true ->
  let e' := snd (fst (Enemy.takeDamage damage currentTime e)) in
  sound e' = true
  /\ Enemy.hitsTaken e <= Enemy.hitsTaken e'
  /\ Enemy.hitsToKill e' = Enemy.hitsToKill e.
Proof.
  destruct e as [o x y v b sp cd tg ak st htk ht lh hc dy tn].
  unfold sound, Enemy.takeDamage; cbn.
  destruct dy; cbn; [intros H; repeat split; auto; lia|].
  intros H. apply andb_true_iff in H as [H1 ->].
  apply Z.ltb_lt in H1.
  destruct (currentTime - lh <? hc); cbn.
  - rewrite (proj2 (Z.ltb_lt _ _) H1). repeat split; auto; lia.
  - destruct (htk <=? ht + 1) eqn:E; cbn.
    + apply Z.leb_le in E. replace (ht + 1) with htk by lia.
      rewrite Z.eqb_refl. repeat split; auto; lia.
    + apply Z.leb_gt in E. rewrite (proj2 (Z.ltb_lt _ _) E).
      repeat split; auto; lia.
Qed.

Lemma after_calls_sound calls e :
  sound e = true ->
  let e' := Enemy.after_calls calls e in
  sound e' = true
  /\ Enemy.hitsTaken e <= Enemy.hitsTaken e'
  /\ Enemy.hitsToKill e' = Enemy.hitsToKill e.
Proof.
  revert e. induction calls as [|c calls IH]; intros e H; cbn.
  - repeat split; auto; lia.
  - destruct (takeDamage_sound (fst c) (snd c) e H) as (H1 & H2 & H3).
    destruct (IH _ H1) as (H4 & H5 & H6).
    unfold Enemy.after_calls in *. cbn. unfold Enemy.after_call at 2 4 6.
    repeat split; auto; [lia | congruence].
Qed.

Lemma sound_range e :
  sound e = true ->
  Enemy.hitsTaken e <= Enemy.hitsToKill e
  /\ (Enemy.isDying e = true <-> Enemy.hitsTaken e = Enemy.hitsToKill e)
  /\ Enemy.bodyEnable e = negb (Enemy.isDying e).
Proof.
  unfold sound. destruct (Enemy.isDying e); intros H;
    apply andb_true_iff in H as [H1 H2].
  - apply Z.eqb_eq in H1. destruct (Enemy.bodyEnable e); [discriminate|].
    repeat split; auto; lia.
  - apply Z.ltb_lt in H1. rewrite H2. repeat split; auto; try lia.
Qed.

End EnemyLife.

(** X1. Replaying any list of [takeDamage] calls on an enemy that is alive
    with hits to spare (or already dying at its limit) keeps the hit counter
    between its old value and [hitsToKill]; the enemy is dying exactly when
    the counter has reached [hitsToKill], and its body is enabled exactly
    while it is not dying. *)
Theorem takeDamage_keeps_counter_in_range
    (calls : list (Z * Z)) (e : Enemy.t) :
  sound e = true ->
  let e' := Enemy.after_calls calls e in
  Enemy.hitsTaken e <= Enemy.hitsTaken e' <= Enemy.hitsToKill e
  /\ Enemy.hitsToKill e' = Enemy.hitsToKill e
  /\ (Enemy.isDying e' = true <-> Enemy.hitsTaken e' = Enemy.hitsToKill e)
  /\ Enemy.bodyEnable e' = negb (Enemy.isDying e').
Proof.
  intros H e'.
  destruct (after_calls_sound calls e H) as (H1 & H2 & H3).
  destruct (sound_range _ H1) as (H4 & H5 & H6).
  fold e' in H1, H2, H3, H4, H5, H6.
  rewrite H3 in H4, H5. repeat split; auto; try lia; apply H5.
Qed.

Lemma takeDamage_keeps_counter_in_range_witness :
  sound Sample.goblin = true
  /\ Enemy.hitsTaken
       (Enemy.after_calls
          [(10, 1000); (10, 1600); (10, 2200); (10, 2800); (10, 3400)]
          Sample.goblin) <= 3.
Proof.
  split; [reflexivity|].
  destruct (takeDamage_keeps_counter_in_range
              [(10, 1000); (10, 1600); (10, 2200); (10, 2800); (10, 3400)]
              Sample.goblin eq_refl) as ((_ & H) & _).
  exact H.
Defined.

Section EnemyDeath.

Lemma after_calls_dying calls e :
  Enemy.isDying e = true -> Enemy.after_calls calls e = e.
Proof.
  intros H. induction calls as [|c calls IH]; [reflexivity|].
  unfold Enemy.after_calls in *; cbn. unfold Enemy.after_call at 2.
  rewrite (takeDamage_dying _ _ _ H). exact IH.
Qed.

Lemma after_calls_cons c calls e :
  Enemy.after_calls (c :: calls) e
  = Enemy.after_calls calls (Enemy.after_call e c).
Proof. reflexivity. Qed.

End EnemyDeath.

(** X2. Over any replay of [takeDamage] calls the enemy dies at most once:
    the commands issued are one death explosion at the enemy's position and
    one 500ms fade-out ending in its destruction when the replay takes it
    from alive to dying, and nothing at all otherwise. *)
Theorem takeDamage_dies_at_most_once (calls : list (Z * Z)) (e : Enemy.t) :
  calls_cmds calls e
  = if negb (Enemy.isDying e) && Enemy.isDying (Enemy.after_calls calls e)
    then [Emit (DeathExplosion (Enemy.x e) (Enemy.y e));
          Schedule 500 (EnemyDestroy (Enemy.oid e))]
    else [].
Proof.
  revert e. induction calls as [|c calls IH]; intros e.
  - cbn. destruct (Enemy.isDying e); reflexivity.
  - rewrite after_calls_cons. cbn [calls_cmds]. rewrite IH.
    unfold Enemy.after_call.
    pose proof (takeDamage_vitals (fst c) (snd c) e) as (Ho & Hv).
    pose proof (takeDamage_frame (fst c) (snd c) e)
      as (_ & _ & _ & _ & _ & _ & Hx & Hy).
    cbv zeta in Ho, Hv, Hx, Hy.
    destruct Hv as [(-> & Hd) | (-> & Hd & Hd')].
    + rewrite Hd, Hx, Hy, Ho. reflexivity.
    + rewrite Hd, Hd'. rewrite after_calls_dying by exact Hd'.
      rewrite Hd'. reflexivity.
Qed.

Section EnemyBurst.

Variable P : Z -> Prop.
Variables n cd : Z.

Lemma takeDamage_paced damage currentTime e :
  P currentTime -> paced P n cd e ->
  paced P n cd (snd (fst (Enemy.takeDamage damage currentTime e))).
Proof.
  intros Ht (Hc & Hn & H).
  destruct (Enemy.isDying e) eqn:Hd.
  { rewrite (takeDamage_dying _ _ _ Hd). cbn. unfold paced. rewrite Hd. auto. }
  destruct (Z_lt_le_dec (currentTime - Enemy.lastHitTime e) (Enemy.hitCooldown e))
    as [Hlt|Hle].
  { rewrite (takeDamage_cooldown _ _ _ Hlt). cbn. unfold paced. rewrite Hd. auto. }
  pose proof (takeDamage_accepted damage currentTime e Hd Hle) as Ha.
  pose proof (takeDamage_frame damage currentTime e)
    as (_ & _ & _ & _ & Hc' & Hn' & _).
  destruct (Enemy.takeDamage damage currentTime e) as [[killed e'] cmds].
  cbn in *. destruct Ha as (Hh & Hl & Hk & Hdy & _).
  split; [congruence|]. split; [congruence|]. right.
  destruct H as [(H0 & _) | (H1 & _ & t0 & Ht0 & Hl0 & Hsp)].
  - split; [lia|]. split.
    + rewrite Hdy, Hk. intros E. apply Z.leb_le in E. lia.
    + exists currentTime. rewrite Hl, Hh, H0. repeat split; auto. lia.
  - split; [lia|]. split.
    + rewrite Hdy, Hk. intros E. apply Z.leb_le in E. lia.
    + exists t0. rewrite Hl, Hh. repeat split; auto. lia.
Qed.

Lemma after_calls_paced calls e :
  (forall c, c ∈ calls -> P (snd c)) -> paced P n cd e ->
  paced P n cd (Enemy.after_calls calls e).
Proof.
  revert e. induction calls as [|c calls IH]; intros e Hp He; [exact He|].
  rewrite after_calls_cons. apply IH.
  - intros c' Hc'. apply Hp. right. exact Hc'.
  - apply takeDamage_paced; [apply Hp; left | exact He].
Qed.

End EnemyBurst.

(** X3. Killing takes time: an enemy that is alive with no hit taken
    survives every replay of [takeDamage] calls whose clock readings all lie
    within a window shorter than [(hitsToKill - 1) * hitCooldown]
    milliseconds (one second for the constructor's 3 and 500). *)
Theorem takeDamage_kill_needs_time (calls : list (Z * Z)) (e : Enemy.t) :
  Enemy.isDying e = false ->
  Enemy.hitsTaken e = 0 ->
  0 <= Enemy.hitCooldown e ->
  (forall c c', c ∈ calls -> c' ∈ calls ->
     snd c' - snd c < (Enemy.hitsToKill e - 1) * Enemy.hitCooldown e) ->
  Enemy.isDying (Enemy.after_calls calls e) = false.
Proof.
  intros Hd H0 Hcd Hw.
  pose proof (after_calls_paced (fun t => exists c, c ∈ calls /\ snd c = t)
                (Enemy.hitsToKill e) (Enemy.hitCooldown e) calls e) as H.
  destruct H as (_ & _ & H).
  - intros c Hc. exists c. auto.
  - repeat split; auto.
  - destruct H as [(_ & H) | (H1 & Hdy & t0 & (c & Hc & <-) & (c' & Hc' & E) & Hsp)];
      [exact H|].
    destruct (Enemy.isDying (Enemy.after_calls calls e)); [|reflexivity].
    specialize (Hdy eq_refl). specialize (Hw c c' Hc Hc').
    rewrite E in Hw. exfalso. nia.
Qed.

Lemma takeDamage_kill_needs_time_witness :
  Enemy.isDying
    (Enemy.after_calls [(10, 1000); (10, 1500); (10, 1999)] Sample.goblin)
  = false.
Proof.
  apply takeDamage_kill_needs_time; [reflexivity | reflexivity | cbn; lia |].
  intros c c' Hc Hc'.
  repeat (apply elem_of_cons in Hc as [->|Hc]);
    try (apply elem_of_nil in Hc; contradiction);
    repeat (apply elem_of_cons in Hc' as [->|Hc']);
    try (apply elem_of_nil in Hc'; contradiction); cbn; lia.
Defined.

(** ** Chase steering *)

Section Steering.

Lemma SQRT1_2_sqr : (SQRT1_2 * SQRT1_2 = 1 / 2)%R.
Proof. unfold SQRT1_2. apply sqrt_sqrt. lra. Qed.

Lemma SQRT1_2_pos : (0 < SQRT1_2)%R.
Proof. unfold SQRT1_2. apply sqrt_lt_R0. lra. Qed.

Lemma Rgtb_true a b : Rgtb a b = true <-> (a > b)%R.
Proof. unfold Rgtb. destruct (Rgt_dec a b); split; auto; discriminate. Qed.

Lemma Rgtb_false a b : Rgtb a b = false <-> (a <= b)%R.
Proof.
  unfold Rgtb. destruct (Rgt_dec a b); split; auto; try discriminate; lra.
Qed.

Lemma Rltb_true a b : Rltb a b = true <-> (a < b)%R.
Proof. unfold Rltb. destruct (Rlt_dec a b); split; auto; discriminate. Qed.

Lemma Rltb_false a b : Rltb a b = false <-> (b <= a)%R.
Proof.
  unfold Rltb. destruct (Rlt_dec a b); split; auto; try discriminate; lra.
Qed.

Lemma Rneb_true a b : Rneb a b = true <-> a <> b.
Proof.
  unfold Rneb. destruct (Req_dec_T a b); split; auto; try discriminate;
    intros; contradiction.
Qed.

Lemma Rneb_false a b : Rneb a b = false <-> a = b.
Proof.
  unfold Rneb. destruct (Req_dec_T a b); split; auto; try discriminate;
    intros; contradiction.
Qed.

Lemma update_stunned position e :
  Enemy.stunned e = true ->
  EnemyUpdate.update position e = (e, EnemyUpdate.mkPose None None).
Proof. intros H. unfold EnemyUpdate.update. rewrite H. reflexivity. Qed.

End Steering.

Ltac steer :=
  repeat match goal with
         | H : Rgtb _ _ = true |- _ => apply Rgtb_true in H
         | H : Rgtb _ _ = false |- _ => apply Rgtb_false in H
         | H : Rltb _ _ = true |- _ => apply Rltb_true in H
         | H : Rltb _ _ = false |- _ => apply Rltb_false in H
         | H : Rneb _ _ = true |- _ => apply Rneb_true in H
         | H : Rneb _ _ = false |- _ => apply Rneb_false in H
         end.

(** X4. A sword hit that connects stuns the enemy, so the next [update()]
    of that enemy returns at once: it changes nothing, plays no animation,
    and the velocity stays the knockback [hitEnemy] wrote. *)
Theorem update_keeps_knockback_while_stunned
    (position : sprite -> R * R) (currentTime : Z) (p : Player.t)
    (enemy : Enemy.t) :
  Player.isAttacking p = true ->
  let enemy' := snd (fst (Player.hitEnemy currentTime p enemy)) in
  EnemyUpdate.update position enemy' = (enemy', EnemyUpdate.mkPose None None)
  /\ Enemy.velocity (fst (EnemyUpdate.update position enemy'))
     = Enemy.velocity (struck p enemy).
Proof.
  intros H enemy'.
  assert (Hs : Enemy.stunned enemy' = true /\
               Enemy.velocity enemy' = Enemy.velocity (struck p enemy)).
  { unfold enemy'. rewrite (hitEnemy_attacking currentTime p enemy H).
    cbn [fst snd].
    pose proof (takeDamage_frame (Player.attackDamage p) currentTime
                  (struck p enemy)) as (_ & Hv & Hst & _).
    cbv zeta in Hv, Hst. rewrite Hst, Hv. split; reflexivity. }
  destruct Hs as [Hs Hv].
  rewrite (update_stunned position enemy' Hs). split; [reflexivity|exact Hv].
Qed.

Lemma update_keeps_knockback_while_stunned_witness :
  Enemy.velocity
    (fst (EnemyUpdate.update (fun _ => (100, 280)%R)
            (snd (fst (Player.hitEnemy 1000 Sample.knight Sample.goblin)))))
  = Enemy.velocity (struck Sample.knight Sample.goblin).
Proof.
  destruct (update_keeps_knockback_while_stunned (fun _ => (100, 280)%R) 1000
              Sample.knight Sample.goblin eq_refl) as [_ H].
  exact H.
Defined.

(** X5. Whenever [update()] steers an enemy (it is neither stunned nor
    dying and its target is more than 5 away horizontally or not level with
    it), the velocity it sets has magnitude [speed]: diagonal movement is
    normalised. *)
Theorem update_chases_at_full_speed
    (position : sprite -> R * R) (e : Enemy.t) (target : sprite) :
  Enemy.stunned e = false ->
  Enemy.isDying e = false ->
  Enemy.target e = Some target ->
  let diffX := (fst (position target) - Enemy.x e)%R in
  let diffY := (snd (position target) - Enemy.y e)%R in
  (5 < Rabs diffX \/ diffY <> 0)%R ->
  let v := Enemy.velocity (fst (EnemyUpdate.update position e)) in
  (fst v * fst v + snd v * snd v = Enemy.speed e * Enemy.speed e)%R.
Proof.
  destruct e as [o x y v b sp cd tg ak st htk ht lh hc dy tn].
  intros H1 H2 H3 diffX diffY Hmove.
  cbn in H1, H2, H3, diffX, diffY. subst st dy tg.
  pose proof SQRT1_2_sqr as Hq.
  unfold EnemyUpdate.update.
  cbn [Enemy.stunned Enemy.isDying Enemy.target Enemy.x Enemy.y Enemy.speed
       Enemy.currentDirection Enemy.velocity Enemy.animKeys orb].
  fold diffX diffY.
  assert (Hy : Rgtb (Rabs diffY) 0 = false -> diffY = 0%R).
  { intros E. apply Rgtb_false in E. pose proof (Rabs_pos diffY).
    destruct (Req_dec diffY 0) as [|Hne]; [assumption|].
    apply Rabs_pos_lt in Hne. lra. }
  destruct (Rgtb (Rabs diffX) 5) eqn:Ex; destruct (Rltb diffX 0) eqn:Ex0;
    destruct (Rgtb (Rabs diffY) 0) eqn:Ey; destruct (Rltb diffY 0) eqn:Ey0;
    try (exfalso; apply Rgtb_false in Ex; specialize (Hy eq_refl); lra);
    cbn [orb andb];
    repeat match goal with
           | |- context [Rneb ?a ?b] => destruct (Rneb a b) eqn:?
           end;
    steer; cbn [orb andb fst snd Enemy.set_motion Enemy.velocity];
    try nra.
Qed.

Lemma update_chases_at_full_speed_witness :
  let v := Enemy.velocity
             (fst (EnemyUpdate.update (fun _ => (100, 280)%R) Sample.goblin)) in
  (fst v * fst v + snd v * snd v = 50 * 50)%R.
Proof.
  apply (update_chases_at_full_speed (fun _ => (100, 280)%R) Sample.goblin
           ThePlayer); [reflexivity | reflexivity | reflexivity |].
  right. cbn. lra.
Defined.

(** X6. An enemy with positive speed is steered at its target: the
    horizontal velocity and the facing follow the sign of the horizontal
    offset outside the dead zone of 5, inside it the facing is kept and no
    horizontal velocity is set; the vertical velocity follows the sign of
    the vertical offset, which has no dead zone. [update()] never moves the
    enemy itself. *)
Theorem update_steers_toward_target
    (position : sprite -> R * R) (e : Enemy.t) (target : sprite) :
  Enemy.stunned e = false ->
  Enemy.isDying e = false ->
  Enemy.target e = Some target ->
  (0 < Enemy.speed e)%R ->
  let diffX := (fst (position target) - Enemy.x e)%R in
  let diffY := (snd (position target) - Enemy.y e)%R in
  let e' := fst (EnemyUpdate.update position e) in
  let v := Enemy.velocity e' in
  (diffX < -5 -> fst v < 0 /\ Enemy.currentDirection e' = DLeft)%R
  /\ (5 < diffX -> 0 < fst v /\ Enemy.currentDirection e' = DRight)%R
  /\ (-5 <= diffX <= 5 ->
      Enemy.currentDirection e' = Enemy.currentDirection e
      /\ (diffY <> 0 -> fst v = 0))%R
  /\ (diffY < 0 -> snd v < 0)%R
  /\ (0 < diffY -> 0 < snd v)%R
  /\ (diffY = 0 -> 5 < Rabs diffX -> snd v = 0)%R
  /\ Enemy.x e' = Enemy.x e /\ Enemy.y e' = Enemy.y e.
Proof.
  destruct e as [o x y v0 b sp cd tg ak st htk ht lh hc dy tn].
  intros H1 H2 H3 Hsp diffX diffY.
  cbn in H1, H2, H3, Hsp, diffX, diffY. subst st dy tg.
  pose proof SQRT1_2_pos as Hq.
  unfold EnemyUpdate.update.
  cbn [Enemy.stunned Enemy.isDying Enemy.target Enemy.x Enemy.y Enemy.speed
       Enemy.currentDirection Enemy.velocity Enemy.animKeys orb].
  fold diffX diffY.
  assert (Hy : Rgtb (Rabs diffY) 0 = false -> diffY = 0%R).
  { intros E. apply Rgtb_false in E. pose proof (Rabs_pos diffY).
    destruct (Req_dec diffY 0) as [|Hne]; [assumption|].
    apply Rabs_pos_lt in Hne. lra. }
  assert (Hy' : Rgtb (Rabs diffY) 0 = true -> diffY <> 0%R).
  { intros E. apply Rgtb_true in E. intros ->. rewrite Rabs_R0 in E. lra. }
  assert (Hx : Rgtb (Rabs diffX) 5 = true -> (diffX < -5 \/ 5 < diffX)%R).
  { intros E. apply Rgtb_true in E. unfold Rabs in E.
    destruct (Rcase_abs diffX); lra. }
  assert (Hx' : Rgtb (Rabs diffX) 5 = false -> (-5 <= diffX <= 5)%R).
  { intros E. apply Rgtb_false in E. unfold Rabs in E.
    destruct (Rcase_abs diffX); lra. }
  assert (Ha : forall a : R, (5 < Rabs a -> a < -5 \/ 5 < a)%R).
  { intros a. unfold Rabs. destruct (Rcase_abs a); lra. }
  destruct (Rgtb (Rabs diffX) 5) eqn:Ex; destruct (Rltb diffX 0) eqn:Ex0;
    destruct (Rgtb (Rabs diffY) 0) eqn:Ey; destruct (Rltb diffY 0) eqn:Ey0;
    try specialize (Hx eq_refl); try specialize (Hx' eq_refl);
    try specialize (Hy eq_refl); try specialize (Hy' eq_refl);
    cbn [orb andb];
    repeat match goal with
           | |- context [Rneb ?a ?b] => destruct (Rneb a b) eqn:?
           end;
    steer; cbn [orb andb fst snd];
    repeat match goal with
           | |- context [if ?c then _ else _] => destruct c eqn:?
           end;
    cbn [orb andb fst snd Enemy.set_motion Enemy.velocity
         Enemy.currentDirection Enemy.x Enemy.y];
    repeat split; intros; try reflexivity; try (exfalso; lra); try nra;
    try (match goal with H : (5 < Rabs _)%R |- _ => apply Ha in H end;
         exfalso; lra).
Qed.

Lemma update_steers_toward_target_witness :
  let e' := fst (EnemyUpdate.update (fun _ => (100, 280)%R) Sample.goblin) in
  (0 < fst (Enemy.velocity e') /\ Enemy.currentDirection e' = DRight)%R
  /\ (0 < snd (Enemy.velocity e'))%R.
Proof.
  destruct (update_steers_toward_target (fun _ => (100, 280)%R) Sample.goblin
              ThePlayer eq_refl eq_refl eq_refl)
    as (_ & H1 & _ & _ & H2 & _).
  - cbn. lra.
  - split; [apply H1 | apply H2]; cbn; lra.
Defined.

Section Braking.

Lemma snap_idem a : snap (snap a) = snap a.
Proof.
  unfold snap. destruct (Rltb (Rabs a) 5) eqn:E; [|rewrite E; reflexivity].
  rewrite Rabs_R0.
  destruct (Rltb 0 5) eqn:E'; [reflexivity|].
  apply Rltb_false in E'. lra.
Qed.

Lemma snap_small a : (Rabs a <= 10 -> Rabs (snap a) <= 10)%R.
Proof.
  unfold snap. destruct (Rltb (Rabs a) 5); [|auto].
  rewrite Rabs_R0. lra.
Qed.

End Braking.

(** X7. An enemy that has no target, or is level with its target and within
    the horizontal dead zone, is not steered: [update()] keeps position and
    facing, never calls [setFlipX], keeps the velocity when a component
    exceeds 10 and otherwise zeroes exactly the components below 5; a second
    [update()] changes nothing more. *)
Theorem update_at_rest_only_brakes
    (position : sprite -> R * R) (e : Enemy.t) :
  Enemy.stunned e = false ->
  Enemy.isDying e = false ->
  match Enemy.target e with
  | None => True
  | Some target =>
    (Rabs (fst (position target) - Enemy.x e) <= 5)%R
    /\ snd (position target) = Enemy.y e
  end ->
  let e' := fst (EnemyUpdate.update position e) in
  let vx := fst (Enemy.velocity e) in
  let vy := snd (Enemy.velocity e) in
  Enemy.velocity e'
  = (if Rgtb (Rabs vx) 10 || Rgtb (Rabs vy) 10 then (vx, vy)
     else (snap vx, snap vy))
  /\ Enemy.x e' = Enemy.x e /\ Enemy.y e' = Enemy.y e
  /\ Enemy.currentDirection e' = Enemy.currentDirection e
  /\ EnemyUpdate.flipX (snd (EnemyUpdate.update position e)) = None
  /\ EnemyUpdate.update position e'
     = (e', snd (EnemyUpdate.update position e)).
Proof.
  destruct e as [o x y [vx vy] b sp cd tg ak st htk ht lh hc dy tn].
  intros H1 H2 H3 e' vx' vy'.
  cbn in H1, H2, H3, vx', vy'. subst st dy vx' vy'.
  assert (E : EnemyUpdate.update position
                (Enemy.mk o x y (vx, vy) b sp cd tg ak false htk ht lh hc
                   false tn)
              = if Rgtb (Rabs vx) 10 || Rgtb (Rabs vy) 10
                then (Enemy.mk o x y (vx, vy) b sp cd tg ak false htk ht lh hc
                        false tn,
                      EnemyUpdate.mkPose None
                        (Some (match cd with
                               | DLeft => Enemy.runLeft ak
                               | _ => Enemy.runRight ak
                               end)))
                else (Enemy.mk o x y (snap vx, snap vy) b sp cd tg ak false
                        htk ht lh hc false tn,
                      EnemyUpdate.mkPose None
                        (Some (match cd with
                               | DLeft => Enemy.idleLeft ak
                               | _ => Enemy.idleRight ak
                               end)))).
  { unfold EnemyUpdate.update.
    cbn [Enemy.stunned Enemy.isDying Enemy.target Enemy.x Enemy.y Enemy.speed
         Enemy.currentDirection Enemy.velocity Enemy.animKeys orb].
    destruct tg as [target|].
    - destruct H3 as [Hx Hy].
      assert (Ex : Rgtb (Rabs (fst (position target) - x)) 5 = false)
        by (apply Rgtb_false; exact Hx).
      assert (Ey : Rgtb (Rabs (snd (position target) - y)) 0 = false).
      { apply Rgtb_false. rewrite Hy.
        replace (y - y)%R with 0%R by lra. rewrite Rabs_R0. lra. }
      rewrite Ex, Ey. cbn [orb andb].
      assert (E0 : Rneb 0 0 = false) by (apply Rneb_false; reflexivity).
      try rewrite E0. cbn [orb andb fst snd].
      destruct (Rgtb (Rabs vx) 10 || Rgtb (Rabs vy) 10); reflexivity.
    - cbn [orb andb fst snd].
      destruct (Rgtb (Rabs vx) 10 || Rgtb (Rabs vy) 10); reflexivity. }
  unfold e'. clear e'. rewrite E.
  destruct (Rgtb (Rabs vx) 10 || Rgtb (Rabs vy) 10) eqn:Ev.
  - cbn [fst snd]. rewrite E. try rewrite Ev. repeat split; reflexivity.
  - cbn [fst snd Enemy.velocity Enemy.x Enemy.y Enemy.currentDirection
         EnemyUpdate.flipX].
    repeat split; try reflexivity.
    unfold EnemyUpdate.update.
    cbn [Enemy.stunned Enemy.isDying Enemy.target Enemy.x Enemy.y Enemy.speed
         Enemy.currentDirection Enemy.velocity Enemy.animKeys orb].
    apply orb_false_iff in Ev as [Evx Evy].
    apply Rgtb_false in Evx, Evy.
    apply snap_small in Evx, Evy. apply Rgtb_false in Evx, Evy.
    destruct tg as [target|].
    + destruct H3 as [Hx Hy].
      assert (Ex : Rgtb (Rabs (fst (position target) - x)) 5 = false)
        by (apply Rgtb_false; exact Hx).
      assert (Ey : Rgtb (Rabs (snd (position target) - y)) 0 = false).
      { apply Rgtb_false. rewrite Hy.
        replace (y - y)%R with 0%R by lra. rewrite Rabs_R0. lra. }
      rewrite Ex, Ey. cbn [orb andb].
      assert (E0 : Rneb 0 0 = false) by (apply Rneb_false; reflexivity).
      try rewrite E0. cbn [orb andb fst snd].
      rewrite Evx, Evy. cbn [orb]. unfold Enemy.set_motion; cbn.
      rewrite !snap_idem. reflexivity.
    + cbn [orb andb fst snd]. rewrite Evx, Evy. cbn [orb].
      unfold Enemy.set_motion; cbn. rewrite !snap_idem. reflexivity.
Qed.

Lemma update_at_rest_only_brakes_witness :
  Enemy.velocity
    (fst (EnemyUpdate.update (fun _ => (3, 0)%R)
            (Enemy.set_velocity (4, 8)%R Sample.goblin)))
  = (if Rgtb (Rabs 4) 10 || Rgtb (Rabs 8) 10 then (4, 8)%R
     else (snap 4, snap 8)).
Proof.
  destruct (update_at_rest_only_brakes (fun _ => (3, 0)%R)
              (Enemy.set_velocity (4, 8)%R Sample.goblin) eq_refl eq_refl)
    as (H & _).
  - cbn. split; [|reflexivity].
    replace (3 - 0)%R with 3%R by lra.
    rewrite Rabs_right; lra.
  - exact H.
Defined.

(** ** Player input, sword and swing *)

Section PlayerFrame.

Local Arguments SQRT1_2 : simpl never.
Local Arguments snap : simpl never.

Lemma attack_velocity p :
  Player.velocity (fst (Player.attack p)) = Player.velocity p
  /\ Player.currentDirection (fst (Player.attack p)) = Player.currentDirection p
  /\ Player.attackDirection (fst (Player.attack p)) = Player.attackDirection p
  /\ Player.isKnockedBack (fst (Player.attack p)) = Player.isKnockedBack p
  /\ Player.x (fst (Player.attack p)) = Player.x p
  /\ Player.y (fst (Player.attack p)) = Player.y p.
Proof.
  unfold Player.attack. destruct (Player.isAttacking p); [repeat split|].
  destruct (Player.attackDirection p) eqn:E; cbn; rewrite ?E; repeat split.
Qed.

Lemma updateSwordPosition_frame p :
  let p' := fst (PlayerUpdate.updateSwordPosition p) in
  Player.velocity p' = Player.velocity p
  /\ Player.currentDirection p' = Player.currentDirection p
  /\ Player.attackDirection p' = Player.attackDirection p
  /\ Player.isKnockedBack p' = Player.isKnockedBack p
  /\ Player.isAttacking p' = Player.isAttacking p
  /\ Player.swordVisible p' = Player.swordVisible p
  /\ Player.hitboxEnable p' = Player.hitboxEnable p
  /\ Player.attackDuration p' = Player.attackDuration p
  /\ Player.x p' = Player.x p /\ Player.y p' = Player.y p.
Proof.
  unfold PlayerUpdate.updateSwordPosition.
  destruct (Player.attackDirection p) eqn:E; cbn; rewrite ?E; repeat split.
Qed.

End PlayerFrame.

(** X8. While the player is not knocked back, [update()] with any cursor
    key down sets a velocity of magnitude 150, whatever the combination of
    keys and whether or not an attack starts in the same frame. *)
Theorem update_moves_at_fixed_speed (keys : PlayerUpdate.Keys) (p : Player.t) :
  Player.isKnockedBack p = false ->
  PlayerUpdate.left keys || PlayerUpdate.right keys
  || PlayerUpdate.up keys || PlayerUpdate.down keys = true ->
  let v := Player.velocity (fst (fst (PlayerUpdate.update keys p))) in
  (fst v * fst v + snd v * snd v = 150 * 150)%R.
Proof.
  intros Hk Hd.
  pose proof SQRT1_2_sqr as Hq.
  unfold PlayerUpdate.update. rewrite Hk. cbn [negb].
  destruct keys as [l r u d a].
  cbn [PlayerUpdate.left PlayerUpdate.right PlayerUpdate.up PlayerUpdate.down
       PlayerUpdate.attackJustDown] in *.
  destruct l, r, u, d; try discriminate Hd;
    cbn -[SQRT1_2 snap Player.attack PlayerUpdate.updateSwordPosition Rmult Ropp IZR].
  all: match goal with
  | |- context [PlayerUpdate.updateSwordPosition ?q] =>
    pose proof (updateSwordPosition_frame q) as (Hv & _);
    destruct (PlayerUpdate.updateSwordPosition q) as [p3 placed] eqn:E3
  end.
  all: cbn [fst] in Hv.
  all: destruct a;
    [pose proof (attack_velocity p3) as (Hv' & _);
     destruct (Player.attack p3) as [p4 cmds]; cbn [fst] in Hv' |- *;
     rewrite Hv', Hv
    |cbn [fst]; rewrite Hv].
  all: cbn [Player.velocity Player.set_motion fst snd].
  all: nra.
Qed.

Lemma update_moves_at_fixed_speed_witness :
  let v := Player.velocity
             (fst (fst (PlayerUpdate.update
                          (PlayerUpdate.mkKeys true false false true false)
                          (Player.constructor 100 280)))) in
  (fst v * fst v + snd v * snd v = 150 * 150)%R.
Proof.
  apply (update_moves_at_fixed_speed
           (PlayerUpdate.mkKeys true false false true false)
           (Player.constructor 100 280)); reflexivity.
Defined.

Section KnockedBack.

Local Arguments snap : simpl never.

Lemma update_knocked_back keys p :
  Player.isKnockedBack p = true ->
  PlayerUpdate.update keys p
  = let p2 :=
      Player.set_velocity
        (snap (fst (Player.velocity p)), snap (snd (Player.velocity p))) p in
    let anim :=
      match Player.currentDirection p with
      | DLeft => "knight-idle-left"
      | _ => "knight-idle-right"
      end%string in
    let '(p3, placed) := PlayerUpdate.updateSwordPosition p2 in
    let '(p4, cmds) :=
      if PlayerUpdate.attackJustDown keys then Player.attack p3
      else (p3, []) in
    (p4, PlayerUpdate.mkFrame None anim placed, cmds).
Proof.
  intros H. unfold PlayerUpdate.update. rewrite H. reflexivity.
Qed.

End KnockedBack.

(** X9. While the player is knocked back the cursor keys are ignored:
    [update()] gives the same result as with all four released; facing and
    attack direction are kept, [setFlipX] is not called, and the velocity is
    the knockback velocity with the components below 5 zeroed. The attack
    key is still read. *)
Theorem update_ignores_cursors_while_knocked_back
    (keys : PlayerUpdate.Keys) (p : Player.t) :
  Player.isKnockedBack p = true ->
  let released :=
    PlayerUpdate.mkKeys false false false false
      (PlayerUpdate.attackJustDown keys) in
  let p' := fst (fst (PlayerUpdate.update keys p)) in
  PlayerUpdate.update keys p = PlayerUpdate.update released p
  /\ Player.velocity p'
     = (snap (fst (Player.velocity p)), snap (snd (Player.velocity p)))
  /\ Player.currentDirection p' = Player.currentDirection p
  /\ Player.attackDirection p' = Player.attackDirection p
  /\ Player.isKnockedBack p' = true
  /\ PlayerUpdate.flipX (snd (fst (PlayerUpdate.update keys p))) = None.
Proof.
  intros H released p'. unfold p'. clear p'.
  rewrite !(update_knocked_back _ p H). split; [reflexivity|].
  cbv zeta.
  match goal with
  | |- context [PlayerUpdate.updateSwordPosition ?q] =>
    pose proof (updateSwordPosition_frame q)
      as (Hv & Hc & Ha & Hk & _);
    destruct (PlayerUpdate.updateSwordPosition q) as [p3 placed]
  end.
  cbn [fst] in Hv, Hc, Ha, Hk.
  cbn [Player.set_velocity Player.velocity Player.currentDirection
       Player.attackDirection Player.isKnockedBack] in Hv, Hc, Ha, Hk.
  destruct (PlayerUpdate.attackJustDown keys).
  - pose proof (attack_velocity p3) as (Hv' & Hc' & Ha' & Hk' & _).
    destruct (Player.attack p3) as [p4 cmds]. cbn [fst snd] in *.
    rewrite Hv', Hc', Ha', Hk', Hv, Hc, Ha, Hk. auto.
  - cbn [fst snd]. rewrite Hv, Hc, Ha, Hk. auto.
Qed.

Lemma update_ignores_cursors_while_knocked_back_witness :
  Player.velocity
    (fst (fst (PlayerUpdate.update
                 (PlayerUpdate.mkKeys true false true false false)
                 (fst (Player.knockback 300 0 (Player.constructor 100 280))))))
  = (snap 300, snap 0).
Proof.
  destruct (update_ignores_cursors_while_knocked_back
              (PlayerUpdate.mkKeys true false true false false)
              (fst (Player.knockback 300 0 (Player.constructor 100 280)))
              eq_refl) as (_ & H & _).
  exact H.
Defined.

(** X10. A swing and its completion form a round trip: [attack()] on an
    idle player (sword hidden, hitbox off) raises the three flags, sets the
    sword 60 degrees before the base angle and schedules the completion
    after [attackDuration]; running that completion gives exactly the
    player [updateSwordPosition()] produces from the idle one. *)
Theorem attack_then_completion_restores_rest_pose
    (p : Player.t) (baseAngle delay : Z) (slash : cmd) :
  Player.isAttacking p = false ->
  Player.swordVisible p = false ->
  Player.hitboxEnable p = false ->
  snd (Player.attack p) = [slash; Schedule delay (AttackComplete baseAngle)] ->
  delay = Player.attackDuration p
  /\ Player.isAttacking (fst (Player.attack p)) = true
  /\ Player.swordVisible (fst (Player.attack p)) = true
  /\ Player.hitboxEnable (fst (Player.attack p)) = true
  /\ Player.swordAngle (fst (Player.attack p)) = baseAngle - 60
  /\ Player.attackComplete baseAngle (fst (Player.attack p))
     = fst (PlayerUpdate.updateSwordPosition p).
Proof.
  destruct p as [x y v cd ad ia kb kd sv sa sf he adur dmg kf tn al].
  cbn [Player.isAttacking Player.swordVisible Player.hitboxEnable].
  intros -> -> ->.
  unfold Player.attack, PlayerUpdate.updateSwordPosition, Player.attackComplete.
  cbn [Player.isAttacking Player.attackDirection].
  destruct ad; cbn; intros E; inversion E; subst; repeat split.
Qed.

Lemma attack_then_completion_restores_rest_pose_witness :
  Player.attackComplete 0 (fst (Player.attack (Player.constructor 100 280)))
  = fst (PlayerUpdate.updateSwordPosition (Player.constructor 100 280)).
Proof.
  destruct (attack_then_completion_restores_rest_pose
              (Player.constructor 100 280) 0 200
              (Emit (SlashEffect (100 + 20) (280 + 0) 0 false))
              eq_refl eq_refl eq_refl eq_refl) as (_ & _ & _ & _ & _ & H).
  exact H.
Defined.

Section Swing.

Lemma attack_idle p :
  Player.isAttacking p = false ->
  Player.isAttacking (fst (Player.attack p)) = true
  /\ Player.swordVisible (fst (Player.attack p)) = true
  /\ Player.hitboxEnable (fst (Player.attack p)) = true
  /\ exists slash baseAngle,
       snd (Player.attack p)
       = [Emit slash; Schedule (Player.attackDuration p) (AttackComplete baseAngle)].
Proof.
  intros H. unfold Player.attack. rewrite H.
  destruct (Player.attackDirection p); cbn; repeat split; eauto.
Qed.

Lemma attack_busy p :
  Player.isAttacking p = true -> Player.attack p = (p, []).
Proof. intros H. unfold Player.attack. rewrite H. reflexivity. Qed.

Lemma update_before_attack keys p :
  exists p3 frame,
    PlayerUpdate.update keys p
    = (let '(p4, cmds) :=
         if PlayerUpdate.attackJustDown keys then Player.attack p3
         else (p3, []) in
       (p4, frame, cmds))
    /\ Player.isAttacking p3 = Player.isAttacking p
    /\ Player.swordVisible p3 = Player.swordVisible p
    /\ Player.hitboxEnable p3 = Player.hitboxEnable p
    /\ Player.attackDuration p3 = Player.attackDuration p.
Proof.
  unfold PlayerUpdate.update.
  destruct keys as [l r u d a].
  cbn [PlayerUpdate.left PlayerUpdate.right PlayerUpdate.up PlayerUpdate.down
       PlayerUpdate.attackJustDown].
  destruct (Player.isKnockedBack p); [|destruct l, r, u, d];
    cbn -[SQRT1_2 snap Player.attack PlayerUpdate.updateSwordPosition
          Rmult Ropp IZR].
  all: match goal with
  | |- context [PlayerUpdate.updateSwordPosition ?q] =>
    pose proof (updateSwordPosition_frame q)
      as (_ & _ & _ & _ & Ha3 & Hs3 & Hh3 & Hd3 & _);
    destruct (PlayerUpdate.updateSwordPosition q) as [p3 placed]
  end.
  all: cbn [fst] in Ha3, Hs3, Hh3, Hd3.
  all: cbn [Player.set_velocity Player.set_motion Player.isAttacking
            Player.swordVisible Player.hitboxEnable Player.attackDuration]
         in Ha3, Hs3, Hh3, Hd3.
  all: eexists p3, _; split; [reflexivity|]; auto.
Qed.

End Swing.

(** X11. [update()] starts a swing only on a fresh press of the attack key
    while no swing is in progress: otherwise it issues no command and keeps
    [isAttacking], the sword visibility and the hitbox as they are; when it
    does start one, the three are set and exactly one completion is
    scheduled after [attackDuration]. Calling [attack()] again during the
    swing does nothing. *)
Theorem update_starts_a_swing_only_when_idle
    (keys : PlayerUpdate.Keys) (p : Player.t) :
  let p' := fst (fst (PlayerUpdate.update keys p)) in
  let cmds := snd (PlayerUpdate.update keys p) in
  (Player.isAttacking p = true \/ PlayerUpdate.attackJustDown keys = false ->
   cmds = []
   /\ Player.isAttacking p' = Player.isAttacking p
   /\ Player.swordVisible p' = Player.swordVisible p
   /\ Player.hitboxEnable p' = Player.hitboxEnable p)
  /\ (Player.isAttacking p = false ->
      PlayerUpdate.attackJustDown keys = true ->
      Player.isAttacking p' = true
      /\ Player.swordVisible p' = true
      /\ Player.hitboxEnable p' = true
      /\ exists slash baseAngle,
           cmds = [Emit slash;
                   Schedule (Player.attackDuration p)
                     (AttackComplete baseAngle)])
  /\ Player.attack (fst (Player.attack p)) = (fst (Player.attack p), []).
Proof.
  intros p' cmds. unfold p', cmds. clear p' cmds.
  destruct (update_before_attack keys p)
    as (p3 & frame & -> & Ha & Hs & Hh & Hd).
  split; [|split].
  - intros [H|H].
    + destruct (PlayerUpdate.attackJustDown keys).
      * rewrite attack_busy by congruence. cbn. auto.
      * cbn. auto.
    + rewrite H. cbn. auto.
  - intros H1 H2. rewrite H2.
    destruct (attack_idle p3) as (H3 & H4 & H5 & slash & b & H6);
      [congruence|].
    destruct (Player.attack p3) as [p4 c]. cbn [fst snd] in *.
    repeat split; auto. exists slash, b. rewrite H6, Hd. reflexivity.
  - destruct (Player.isAttacking p) eqn:E.
    + rewrite (attack_busy p E). cbn. apply attack_busy. exact E.
    + apply attack_busy. apply attack_idle. exact E.
Qed.

Lemma update_starts_a_swing_only_when_idle_witness :
  snd (PlayerUpdate.update
         (PlayerUpdate.mkKeys false false false false true) Sample.knight)
  = [].
Proof.
  destruct (update_starts_a_swing_only_when_idle
              (PlayerUpdate.mkKeys false false false false true) Sample.knight)
    as (H & _).
  destruct H as (H & _); [left; reflexivity | exact H].
Defined.

(** X12. Sword, hitbox, slash effect and knockback all follow
    [attackDirection]: [updateSwordPosition()] puts the sword 13 and the
    hitbox 19.5 from the player along it, [attack()] plays the slash 20
    along it with the angle and flip [updateSwordPosition()] gives the sword,
    and [hitEnemy()] knocks the enemy back along it with [knockbackForce]. *)
Theorem sword_slash_and_knockback_follow_attackDirection
    (currentTime : Z) (p : Player.t) (enemy : Enemy.t) :
  let u := toward (Player.attackDirection p) in
  let placed := snd (PlayerUpdate.updateSwordPosition p) in
  (PlayerUpdate.swordX placed = Player.x p + 13 * fst u
   /\ PlayerUpdate.swordY placed = Player.y p + 13 * snd u
   /\ PlayerUpdate.hitboxX placed = Player.x p + (39 / 2) * fst u
   /\ PlayerUpdate.hitboxY placed = Player.y p + (39 / 2) * snd u)%R
  /\ (Player.isAttacking p = false ->
      exists angle flip x y,
        snd (Player.attack p)
        = [Emit (SlashEffect x y angle flip);
           Schedule (Player.attackDuration p) (AttackComplete angle)]
        /\ (x = Player.x p + 20 * fst u /\ y = Player.y p + 20 * snd u)%R
        /\ angle = Player.swordAngle (fst (PlayerUpdate.updateSwordPosition p))
        /\ flip = Player.swordFlipX (fst (PlayerUpdate.updateSwordPosition p)))
  /\ (Player.isAttacking p = true ->
      let v := Enemy.velocity
                 (snd (fst (Player.hitEnemy currentTime p enemy))) in
      (fst v = Player.knockbackForce p * fst u
       /\ snd v = Player.knockbackForce p * snd u)%R).
Proof.
  intros u placed. unfold u, placed. clear u placed.
  split; [|split].
  - unfold PlayerUpdate.updateSwordPosition.
    destruct (Player.attackDirection p); cbn; repeat split; lra.
  - intros H. unfold Player.attack, PlayerUpdate.updateSwordPosition.
    rewrite H.
    destruct (Player.attackDirection p); cbn;
      do 4 eexists; (split; [reflexivity|]); repeat split; lra.
  - intros H. cbv zeta.
    rewrite (hitEnemy_attacking currentTime p enemy H). cbn [fst snd].
    pose proof (takeDamage_frame (Player.attackDamage p) currentTime
                  (struck p enemy)) as (_ & Hv & _).
    cbv zeta in Hv. rewrite Hv. unfold struck.
    destruct (Player.attackDirection p); cbn; split; lra.
Qed.

Lemma sword_slash_and_knockback_follow_attackDirection_witness :
  let v := Enemy.velocity
             (snd (fst (Player.hitEnemy 1000 Sample.knight Sample.goblin))) in
  (fst v = Player.knockbackForce Sample.knight
           * fst (toward (Player.attackDirection Sample.knight))
   /\ snd v = Player.knockbackForce Sample.knight
              * snd (toward (Player.attackDirection Sample.knight)))%R.
Proof.
  destruct (sword_slash_and_knockback_follow_attackDirection 1000
              Sample.knight Sample.goblin) as (_ & _ & H).
  apply H. reflexivity.
Defined.

(** ** Waves of a session *)

Section WaveBounds.

Import GameScene.
Implicit Types (s : GameScene.t) (cb : callback) (r : ref).

Lemma pending_without_timer i s :
  pending (without_timer i s) = delete i (pending s).
Proof. unfold pending, without_timer. cbn. apply list_fmap_delete. Qed.

Lemma without_timer_fields i s :
  currentWave (without_timer i s) = currentWave s
  /\ enemies (without_timer i s) = enemies s
  /\ maxWaves (without_timer i s) = maxWaves s.
Proof. repeat split. Qed.

Lemma quiet_next s s' :
  quiet s s' ->
  currentWave s' = currentWave s /\ enemies s' = enemies s
  /\ (NextWave ∈ pending s' -> NextWave ∈ pending s).
Proof.
  intros (Q1 & Q2 & _ & k & Q3 & Q4). repeat split; auto.
  unfold pending. rewrite Q3, fmap_app. intros [H|H]%elem_of_app; [exact H|].
  contradiction.
Qed.

Lemma maxWaves_invariant s : wave_invariant s -> maxWaves s = 5%nat.
Proof.
  intros H. pose proof (inv_constants s H) as E. unfold constants in E.
  congruence.
Qed.

Lemma startNextWave_enemies s :
  enemies s = [] ->
  let s' := state_of (startNextWave s) in
  if (maxWaves s <? S (currentWave s))%nat then enemies s' = []
  else enemies s' = seq (nextRef s) (S (currentWave s)).
Proof.
  intros He. pose proof (startNextWave_normal s) as H. cbv zeta in H |- *.
  destruct (maxWaves s <? S (currentWave s))%nat.
  - rewrite H. cbn. exact He.
  - destruct H as (d & objs & -> & _). cbn. rewrite He. reflexivity.
Qed.

Lemma handle_wave_bounds ev s s' :
  wave_invariant s -> wave_bounds s -> handle ev s = Some s' ->
  wave_bounds s' /\ (currentWave s <= currentWave s')%nat.
Proof.
  intros Hinv (Hcw & Hlen & Hnd & Hwon) Hstep.
  pose proof (handle_invariant ev s s' Hinv Hstep) as Hinv'.
  pose proof (maxWaves_invariant s Hinv) as Hm.
  pose proof (maxWaves_invariant s' Hinv') as Hm'.
  unfold wave_bounds. rewrite Hm'. rewrite Hm in Hcw, Hwon.
  assert (Hsame :
            currentWave s' = currentWave s -> enemies s' = enemies s ->
            (NextWave ∈ pending s' -> NextWave ∈ pending s) ->
            ((1 <= currentWave s' <= 6)%nat
             /\ (length (enemies s') <= currentWave s')%nat
             /\ NoDup (enemies s')
             /\ ((5 < currentWave s')%nat ->
                 enemies s' = [] /\ NextWave ∉ pending s'))
            /\ (currentWave s <= currentWave s')%nat).
  { intros E1 E2 E3. rewrite E1, E2. repeat split; auto; try lia.
    - apply Hwon. lia.
    - intros Hin. apply (proj2 (Hwon H)). auto. }
  assert (Hev : (exists i, ev = Fire i) \/ forall i, ev <> Fire i)
    by (destruct ev; eauto; right; discriminate).
  destruct Hev as [[i ->]|Hne].
  2:{ destruct (quiet_next s s') as (E1 & E2 & E3); auto.
      apply (handle_quiet ev); assumption. }
  destruct (handle_fire i s s' Hstep) as (due & cb & Hi & _ & ->).
  clear Hstep.
  assert (Hcb : pending s !! i = Some cb).
  { unfold pending. rewrite list_lookup_fmap, Hi. reflexivity. }
  assert (Hin : cb ∈ pending s) by (eapply list_elem_of_lookup_2; eauto).
  destruct (tracked cb) eqn:Ht.
  2:{ destruct (quiet_next (without_timer i s)
                  (state_of (runCallback cb (without_timer i s))))
        as (E1 & E2 & E3); [apply runCallback_quiet; exact Ht|].
      apply Hsame; auto. intros H. apply E3 in H.
      rewrite pending_without_timer in H.
      eapply list_elem_of_delete_inv, H. }
  destruct cb; try discriminate Ht.
  - (* an enemy is destroyed *)
    destruct (inv_destroy s Hinv r Hin) as (Hr & _).
    pose proof (onEnemyDestroy_facts r (without_timer i s)) as H.
    cbv zeta in H. destruct H as (E1 & E2 & _ & _).
    cbn [runCallback state_of]. rewrite E1, E2. cbn [enemies currentWave without_timer].
    change (enemies (without_timer i s)) with (enemies s).
    change (currentWave (without_timer i s)) with (currentWave s).
    assert (Hlow : (currentWave s <= 5)%nat).
    { destruct (le_lt_dec (currentWave s) 5) as [|Hgt]; [assumption|].
      destruct (Hwon Hgt) as [He _]. rewrite He in Hr.
      apply elem_of_nil in Hr. contradiction. }
    repeat split; try lia.
    + pose proof (length_filter (fun e => e ≠ r) (enemies s)). lia.
    + apply NoDup_filter. exact Hnd.
  - (* the invincibility ends *)
    apply Hsame; try reflexivity.
    change (NextWave ∈ pending (without_timer i s) -> NextWave ∈ pending s).
    rewrite pending_without_timer. apply list_elem_of_delete_inv.
  - (* the next wave starts *)
    pose proof (inv_next s Hinv Hin) as He.
    assert (Hlow : (currentWave s <= 5)%nat).
    { destruct (le_lt_dec (currentWave s) 5) as [|Hgt]; [assumption|].
      destruct (Hwon Hgt) as [_ Hn]. contradiction. }
    pose proof (startNextWave_facts (without_timer i s)) as H.
    cbv zeta in H. destruct H as (E1 & _ & E3 & _).
    pose proof (startNextWave_enemies (without_timer i s) He) as E4.
    cbv zeta in E4. cbn [runCallback].
    change (currentWave (without_timer i s)) with (currentWave s) in E1, E4.
    change (maxWaves (without_timer i s)) with (maxWaves s) in E4.
    change (nextRef (without_timer i s)) with (nextRef s) in E4.
    rewrite Hm in E4. rewrite E1.
    assert (Hp : NextWave ∉ pending (state_of (startNextWave (without_timer i s)))).
    { unfold pending at 1. rewrite E3.
      change (NextWave ∉ pending (without_timer i s)).
      rewrite pending_without_timer.
      apply (fired_absent _ i NextWave); auto. apply (inv_nodup s Hinv). }
    destruct (5 <? S (currentWave s))%nat eqn:E5.
    + apply Nat.ltb_lt in E5. rewrite E4.
      repeat split; auto; try (cbn; lia). constructor.
    + apply Nat.ltb_ge in E5. rewrite E4. rewrite length_seq.
      repeat split; auto; try lia. apply NoDup_seq.
Qed.

Lemma first_wave_bounds s :
  enemies s = [] -> currentWave s = 0%nat -> maxWaves s = 5%nat ->
  pending s = [] ->
  wave_bounds (state_of (startNextWave s)).
Proof.
  intros He Hc Hm Hp.
  pose proof (startNextWave_facts s) as H. cbv zeta in H.
  destruct H as (E1 & _ & E3 & _).
  pose proof (startNextWave_enemies s He) as E4. cbv zeta in E4.
  rewrite Hm, Hc in E4. rewrite Hc in E1.
  change (5 <? 1)%nat with false in E4. cbv iota in E4.
  assert (Hm' : maxWaves (state_of (startNextWave s)) = 5%nat).
  { pose proof (startNextWave_normal s) as H. cbv zeta in H.
    rewrite Hm, Hc in H. change (5 <? 1)%nat with false in H. cbv iota in H.
    destruct H as (d & objs & -> & _). exact Hm. }
  unfold wave_bounds. rewrite Hm', E1, E4. cbn [length seq].
  repeat split; try lia; apply NoDup_singleton.
Qed.

Lemma create_wave_bounds g m walls items :
  Engine.timers g = [] ->
  wave_bounds (state_of (create g m walls items)).
Proof.
  intros Ht. unfold create. apply first_wave_bounds; try reflexivity.
  unfold pending. cbn. rewrite Ht. reflexivity.
Qed.

Lemma reachable_wave_bounds s : reachable s -> wave_bounds s.
Proof.
  induction 1 as [g m walls items Ht|s ev s' Hr IH Hstep].
  - now apply create_wave_bounds.
  - exact (proj1 (handle_wave_bounds ev s s' (reachable_invariant s Hr) IH
                    Hstep)).
Qed.

Lemma replay_cons ev evs s :
  replay (ev :: evs) s
  = match handle ev s with Some s1 => replay evs s1 | None => None end.
Proof.
  unfold replay. cbn [fold_left]. destruct (handle ev s); [reflexivity|].
  induction evs; [reflexivity|assumption].
Qed.

Lemma replay_wave evs s s' :
  reachable s -> replay evs s = Some s' ->
  (currentWave s <= currentWave s')%nat.
Proof.
  revert s. induction evs as [|ev evs IH]; intros s Hr H.
  - injection H as <-. lia.
  - rewrite replay_cons in H. destruct (handle ev s) as [s1|] eqn:E;
      [|discriminate].
    pose proof (handle_wave_bounds ev s s1 (reachable_invariant s Hr)
                  (reachable_wave_bounds s Hr) E) as [_ Hle].
    specialize (IH s1 (reach_step s ev s1 Hr E) H). lia.
Qed.

End WaveBounds.

(** X13. Throughout a session the wave counter lies between 1 and 6 (the
    victory state), at most as many enemies are registered as the wave
    number, no enemy is registered twice, and in the victory state no enemy
    is registered and no further wave is pending. *)
Theorem reachable_wave_within_bounds (s : GameScene.t) :
  GameScene.reachable s ->
  (1 <= GameScene.currentWave s <= 6)%nat
  /\ (length (GameScene.enemies s) <= GameScene.currentWave s)%nat
  /\ NoDup (GameScene.enemies s)
  /\ (GameScene.currentWave s = 6%nat ->
      GameScene.enemies s = [] /\ NextWave ∉ pending s).
Proof.
  intros Hr.
  pose proof (maxWaves_invariant s (reachable_invariant s Hr)) as Hm.
  destruct (reachable_wave_bounds s Hr) as (H1 & H2 & H3 & H4).
  rewrite Hm in H1, H4. repeat split; auto; try lia; apply H4; lia.
Qed.

Lemma reachable_wave_within_bounds_witness :
  (length (GameScene.enemies Sample.cleared)
   <= GameScene.currentWave Sample.cleared)%nat
  /\ NoDup (GameScene.enemies Sample.touched).
Proof.
  destruct (reachable_wave_within_bounds Sample.cleared cleared_reachable)
    as (_ & H & _).
  destruct (reachable_wave_within_bounds Sample.touched touched_reachable)
    as (_ & _ & H' & _).
  split; assumption.
Defined.

(** X14. Victory is final: once the wave counter has passed [maxWaves],
    no sequence of engine events changes it, registers an enemy or makes a
    further wave pending. *)
Theorem victory_is_final
    (s s' : GameScene.t) (evs : list GameScene.event) :
  GameScene.reachable s ->
  (GameScene.maxWaves s < GameScene.currentWave s)%nat ->
  replay evs s = Some s' ->
  GameScene.currentWave s' = GameScene.currentWave s
  /\ GameScene.enemies s' = []
  /\ NextWave ∉ pending s'.
Proof.
  intros Hr Hwon Hrep.
  pose proof (reachable_replay evs s s' Hr Hrep) as Hr'.
  pose proof (replay_wave evs s s' Hr Hrep) as Hle.
  pose proof (maxWaves_invariant s (reachable_invariant s Hr)) as Hm.
  pose proof (maxWaves_invariant s' (reachable_invariant s' Hr')) as Hm'.
  destruct (reachable_wave_bounds s Hr) as (H1 & _).
  destruct (reachable_wave_bounds s' Hr') as (H1' & _ & _ & H4').
  rewrite Hm in *. rewrite Hm' in *.
  assert (E : GameScene.currentWave s' = GameScene.currentWave s) by lia.
  split; [exact E|]. apply H4'. lia.
Qed.

Lemma won_reachable : GameScene.reachable Campaign.won.
Proof.
  apply (reachable_replay Campaign.script Sample.started);
    [exact started_reachable|].
  unfold Campaign.won.
  destruct (replay Campaign.script Sample.started) eqn:E; [reflexivity|].
  exfalso. vm_compute in E. discriminate.
Qed.

Lemma victory_is_final_witness :
  GameScene.currentWave
    (default Campaign.won (replay Campaign.aftermath Campaign.won))
  = GameScene.currentWave Campaign.won.
Proof.
  destruct (replay Campaign.aftermath Campaign.won) as [s'|] eqn:E.
  - cbn [default].
    destruct (victory_is_final Campaign.won s' Campaign.aftermath
                won_reachable) as [H _]; [vm_compute; lia | exact E | exact H].
  - exfalso. vm_compute in E. discriminate.
Defined.

(** ** Breakable items and the tile layer *)

Section Tiles.

Import GameScene.
Implicit Types (s : GameScene.t) (cb : callback) (r : ref).

Lemma hitBreakableItem_tiles key item s :
  breakableItems s !! key = Some item ->
  let now := Engine.now (engine s) in
  let item1 :=
    {| tile := tile item; hits := hits item + 1; maxHits := maxHits item;
       lastHitTime := now |} in
  let tinted := alter (set_tileTint 16711680) (tile item) (itemsLayer s) in
  exists s',
    hitBreakableItem key s = Normal s'
    /\ tiles_of s'
       = if debounced now item then tiles_of s
         else if maxHits item <=? hits item + 1
              then (delete key tinted, delete key (<[key := item1]> (breakableItems s)))
              else (tinted, <[key := item1]> (breakableItems s)).
Proof.
  intros Hi. cbv zeta. unfold hitBreakableItem. rewrite Hi.
  destruct key as [tileX tileY]. unfold debounced.
  destruct (negb (lastHitTime item =? 0) && _); [eauto|].
  cbn [maxHits hits tile].
  destruct (maxHits item <=? hits item + 1); eexists; (split; [reflexivity|]);
    destruct s as [[] m w i b mh it inv p u cw mw en ob nr];
    reflexivity.
Qed.

Lemma lacks_alter (flag : TileProps -> bool) (c : Z) (k key : Z * Z)
    (l : layer) :
  lacks flag (alter (set_tileTint c) k l !! key) = lacks flag (l !! key).
Proof.
  rewrite lookup_alter. destruct (decide (k = key)) as [->|]; [|reflexivity].
  destruct (l !! key); reflexivity.
Qed.

Lemma hitBreakableItem_in_sync key s :
  in_sync s -> in_sync (state_of (hitBreakableItem key s)).
Proof.
  intros Hs. destruct (breakableItems s !! key) as [item|] eqn:Hi.
  2:{ unfold hitBreakableItem. rewrite Hi. exact Hs. }
  destruct (hitBreakableItem_tiles key item s Hi) as (s' & -> & Ht).
  cbv zeta in Ht. cbn [state_of].
  pose proof (Hs key) as Hk. rewrite Hi in Hk.
  destruct Hk as (Htile & Hmax & Hhits & Hlay).
  unfold tiles_of in Ht.
  destruct (debounced _ item).
  { injection Ht as E1 E2. intros k. rewrite E1, E2. apply Hs. }
  destruct (maxHits item <=? hits item + 1) eqn:Hb; injection Ht as E1 E2;
    intros k; rewrite E1, E2; rewrite Htile.
  - destruct (decide (k = key)) as [->|Hne].
    + rewrite !lookup_delete_eq. reflexivity.
    + rewrite !lookup_delete_ne, lookup_insert_ne by congruence.
      rewrite lacks_alter. apply Hs.
  - apply Z.leb_gt in Hb.
    destruct (decide (k = key)) as [->|Hne].
    + rewrite lookup_insert_eq, lacks_alter. cbn. repeat split; auto; lia.
    + rewrite lookup_insert_ne by congruence. rewrite lacks_alter. apply Hs.
Qed.

Lemma checkTiles_in_sync (tiles : list (option (Z * Z)))
    (checked : gset (Z * Z)) s :
  in_sync s -> in_sync (state_of (checkTiles tiles checked s)).
Proof.
  revert checked s.
  induction tiles as [|[key|] tiles IH]; intros checked s Hs;
    cbn [checkTiles]; auto.
  destruct (decide (key ∈ checked)); [auto|].
  destruct (breakableItems s !! key); [|auto].
  pose proof (hitBreakableItem_in_sync key s Hs) as H.
  destruct (hitBreakableItem key s) as [s1|msg s1]; [|exact H].
  apply IH. exact H.
Qed.

Lemma in_sync_same s s' : tiles_of s' = tiles_of s -> in_sync s -> in_sync s'.
Proof.
  unfold tiles_of. intros E Hs k. injection E as E1 E2. rewrite E1, E2.
  apply Hs.
Qed.

Lemma run_tiles cmds s : tiles_of (run cmds s) = tiles_of s.
Proof. reflexivity. Qed.

Lemma swordHit_tiles currentTime r s :
  tiles_of (swordHit currentTime r s) = tiles_of s.
Proof.
  unfold swordHit. destruct (objects s !! r) as [e|]; [|reflexivity].
  destruct (Player.hitEnemy currentTime (player s) e) as [[hit e1] cmds].
  destruct hit; reflexivity.
Qed.

Lemma damagePlayer_tiles s : tiles_of (damagePlayer s) = tiles_of s.
Proof.
  unfold damagePlayer. destruct (playerInvincible s); [reflexivity|].
  destruct (UI.damagePlayer 1 _) as [[newHealth u] cmds].
  destruct (newHealth <=? 0); reflexivity.
Qed.

Lemma playerHit_tiles enemy s : tiles_of (playerHit enemy s) = tiles_of s.
Proof. rewrite playerHit_spec. cbv zeta. rewrite damagePlayer_tiles. reflexivity. Qed.

Lemma startNextWave_tiles s :
  tiles_of (state_of (startNextWave s)) = tiles_of s.
Proof.
  pose proof (startNextWave_normal s) as H. cbv zeta in H.
  destruct (maxWaves s <? S (currentWave s))%nat.
  - rewrite H. reflexivity.
  - destruct H as (d & objs & -> & _). reflexivity.
Qed.

Lemma onEnemyDestroy_tiles r s : tiles_of (onEnemyDestroy r s) = tiles_of s.
Proof.
  unfold onEnemyDestroy. destruct (_ =? _)%nat; reflexivity.
Qed.

Lemma runCallback_in_sync cb s :
  in_sync s -> in_sync (state_of (runCallback cb s)).
Proof.
  intros Hs.
  destruct cb; cbn [runCallback state_of];
    try (apply (in_sync_same s); [reflexivity|exact Hs]).
  - apply (in_sync_same s); [apply onEnemyDestroy_tiles|exact Hs].
  - intros k. cbn. rewrite lacks_alter. apply Hs.
  - apply (in_sync_same s); [apply startNextWave_tiles|exact Hs].
Qed.

Lemma handle_in_sync ev s s' :
  in_sync s -> handle ev s = Some s' -> in_sync s'.
Proof.
  intros Hs. destruct ev; cbn [handle]; intros H.
  - destruct (_ <=? _); [|discriminate]. injection H as <-.
    apply (in_sync_same s); [reflexivity|exact Hs].
  - destruct (Engine.timers (engine s) !! i) as [[due cb]|]; [|discriminate].
    destruct (due <=? _); [|discriminate]. injection H as <-.
    apply runCallback_in_sync. apply (in_sync_same s); [reflexivity|exact Hs].
  - injection H as <-. apply (in_sync_same s); [reflexivity|exact Hs].
  - destruct (bool_decide _); [|discriminate]. injection H as <-.
    apply (in_sync_same s); [reflexivity|exact Hs].
  - destruct (Player.attack (player s)) as [p cmds]. injection H as <-.
    apply (in_sync_same s); [reflexivity|exact Hs].
  - destruct (bool_decide _); [|discriminate]. injection H as <-.
    apply (in_sync_same s); [apply swordHit_tiles|exact Hs].
  - destruct (bool_decide _); [|discriminate].
    destruct (objects s !! r); [|discriminate]. injection H as <-.
    apply (in_sync_same s); [apply playerHit_tiles|exact Hs].
  - injection H as <-. unfold checkSwordItemCollisions.
    destruct (_ || _); [exact Hs|apply checkTiles_in_sync; exact Hs].
Qed.

Lemma initBreakableItems_lookup s key :
  breakableItems (initBreakableItems s) !! key
  = match itemsLayer s !! key with
    | Some tl =>
      if has_flag breakable tl
      then Some {| tile := key; hits := 0; maxHits := 2; lastHitTime := 0 |}
      else breakableItems s !! key
    | None => breakableItems s !! key
    end.
Proof.
  unfold initBreakableItems.
  change (breakableItems (run _ (set_breakableItems ?b s))) with b.
  rewrite lookup_union, map_lookup_imap.
  destruct (itemsLayer s !! key) as [tl|]; cbn.
  - unfold track. destruct (has_flag breakable tl); cbn.
    + destruct (breakableItems s !! key); reflexivity.
    + destruct (breakableItems s !! key); reflexivity.
  - destruct (breakableItems s !! key); reflexivity.
Qed.

Lemma create_in_sync g m walls items :
  in_sync (state_of (create g m walls items)).
Proof.
  unfold create. apply (in_sync_same (initBreakableItems (boot g m walls items)));
    [apply startNextWave_tiles|].
  intros key. rewrite initBreakableItems_lookup.
  change (itemsLayer (initBreakableItems (boot g m walls items))) with items.
  change (itemsLayer (boot g m walls items)) with items.
  change (breakableItems (boot g m walls items)) with (∅ : gmap (Z * Z) Item).
  rewrite lookup_empty.
  destruct (items !! key) as [tl|]; [|reflexivity].
  destruct (has_flag breakable tl) eqn:E; cbn [lacks tile maxHits hits];
    rewrite E; [|reflexivity].
  repeat split; lia.
Qed.

Lemma reachable_in_sync s : reachable s -> in_sync s.
Proof.
  induction 1 as [g m walls items Ht|s ev s' _ IH Hstep].
  - apply create_in_sync.
  - exact (handle_in_sync ev s s' IH Hstep).
Qed.

End Tiles.

(** X15. Throughout a session the tracking map and the items layer agree:
    a cell is tracked exactly when the layer holds a breakable tile there,
    and every record names its own cell, breaks at two hits and has taken
    fewer than two. *)
Theorem breakable_items_stay_in_sync (s : GameScene.t) (key : Z * Z) :
  GameScene.reachable s ->
  (is_Some (GameScene.breakableItems s !! key) <->
   exists tl,
     GameScene.itemsLayer s !! key = Some tl
     /\ GameScene.has_flag GameScene.breakable tl = true)
  /\ forall item,
       GameScene.breakableItems s !! key = Some item ->
       GameScene.tile item = key /\ GameScene.maxHits item = 2
       /\ 0 <= GameScene.hits item < 2.
Proof.
  intros Hr. pose proof (reachable_in_sync s Hr key) as H.
  destruct (GameScene.breakableItems s !! key) as [item|].
  - destruct H as (H1 & H2 & H3 & H4). split.
    + split; [intros _|eauto].
      unfold GameScene.lacks in H4.
      destruct (GameScene.itemsLayer s !! key) as [tl|]; [|discriminate].
      exists tl. split; [reflexivity|].
      destruct (GameScene.has_flag GameScene.breakable tl);
        [reflexivity|discriminate].
    + intros ? [= <-]. auto.
  - split; [|discriminate]. split; [intros [? ?]; discriminate|].
    intros (tl & E & F). rewrite E in H. cbn in H. rewrite F in H.
    discriminate.
Qed.

Lemma breakable_items_stay_in_sync_witness :
  is_Some (GameScene.breakableItems Sample.cleared !! (5, 5))
  /\ ~ is_Some (GameScene.breakableItems Sample.cleared !! (3, 3)).
Proof.
  destruct (breakable_items_stay_in_sync Sample.cleared (5, 5)
              cleared_reachable) as [H _].
  destruct (breakable_items_stay_in_sync Sample.cleared (3, 3)
              cleared_reachable) as [H' _].
  split.
  - apply H. exists Sample.crate. split; reflexivity.
  - intros Hs. apply H' in Hs as (tl & E & _). vm_compute in E. discriminate.
Defined.
(** X16. [initBreakableItems()] tracks exactly the breakable cells of the
    items layer: each gets a fresh record (0 hits of 2, never hit),
    replacing a record already stored under its key; records under other
    keys are kept; the layer is not touched, and running it again changes
    nothing more. *)
Theorem initBreakableItems_tracks_breakable_tiles
    (s : GameScene.t) (key : Z * Z) :
  let s' := GameScene.initBreakableItems s in
  GameScene.breakableItems s' !! key
  = match GameScene.itemsLayer s !! key with
    | Some tl =>
      if GameScene.has_flag GameScene.breakable tl
      then Some {| GameScene.tile := key; GameScene.hits := 0;
                   GameScene.maxHits := 2; GameScene.lastHitTime := 0 |}
      else GameScene.breakableItems s !! key
    | None => GameScene.breakableItems s !! key
    end
  /\ GameScene.itemsLayer s' = GameScene.itemsLayer s
  /\ GameScene.breakableItems (GameScene.initBreakableItems s')
     = GameScene.breakableItems s'.
Proof.
  cbv zeta. split; [apply initBreakableItems_lookup|]. split; [reflexivity|].
  apply map_eq. intros k. rewrite !initBreakableItems_lookup.
  change (GameScene.itemsLayer (GameScene.initBreakableItems s))
    with (GameScene.itemsLayer s).
  destruct (GameScene.itemsLayer s !! k) as [tl|]; [|reflexivity].
  destruct (GameScene.has_flag GameScene.breakable tl); reflexivity.
Qed.

(** ** The sword on breakable items *)

Section SwordOnTiles.

Import GameScene.
Implicit Types (s : GameScene.t).

Lemma hitBreakableItem_effect key item s :
  breakableItems s !! key = Some item ->
  let now := Engine.now (engine s) in
  let item1 :=
    {| tile := tile item; hits := hits item + 1; maxHits := maxHits item;
       lastHitTime := now |} in
  exists s',
    hitBreakableItem key s = Normal s'
    /\ Engine.now (engine s') = now
    /\ breakableItems s'
       = if debounced now item then breakableItems s
         else if maxHits item <=? hits item + 1
              then delete key (<[key := item1]> (breakableItems s))
              else <[key := item1]> (breakableItems s).
Proof.
  intros Hi. cbv zeta. unfold hitBreakableItem. rewrite Hi.
  destruct key as [tileX tileY]. unfold debounced.
  destruct (negb (lastHitTime item =? 0) && _); [eauto|].
  cbn [maxHits hits tile].
  destruct (maxHits item <=? hits item + 1); eexists; (split; [reflexivity|]);
    destruct s as [[] m w i b mh it inv p u cw mw en ob nr];
    split; reflexivity.
Qed.

Lemma hitBreakableItem_untracked key s :
  breakableItems s !! key = None ->
  hitBreakableItem key s = Thrown "TypeError: item is undefined" s.
Proof. intros H. unfold hitBreakableItem. rewrite H. reflexivity. Qed.

Lemma checkTiles_normal (tiles : list (option (Z * Z)))
    (checked : gset (Z * Z)) s :
  exists s', checkTiles tiles checked s = Normal s'.
Proof.
  revert checked s.
  induction tiles as [|[key|] tiles IH]; intros checked s;
    cbn [checkTiles]; eauto.
  destruct (decide (key ∈ checked)); [auto|].
  destruct (breakableItems s !! key) as [item|] eqn:Hi; [|auto].
  destruct (hitBreakableItem_effect key item s Hi) as (s1 & -> & _). auto.
Qed.

Lemma checkTiles_checked (tiles : list (option (Z * Z)))
    (checked : gset (Z * Z)) s key :
  key ∈ checked \/ breakableItems s !! key = None ->
  breakableItems (state_of (checkTiles tiles checked s)) !! key
  = breakableItems s !! key
  /\ Engine.now (engine (state_of (checkTiles tiles checked s)))
     = Engine.now (engine s).
Proof.
  revert checked s.
  induction tiles as [|[k|] tiles IH]; intros checked s Hk;
    cbn [checkTiles]; auto.
  destruct (decide (k ∈ checked)); [auto|].
  assert (Hk' : key ∈ {[k]} ∪ checked \/ breakableItems s !! key = None).
  { destruct Hk as [Hk|Hk];
      [left; apply elem_of_union; right; exact Hk | right; exact Hk]. }
  destruct (breakableItems s !! k) as [item|] eqn:Hi; [|auto].
  destruct (hitBreakableItem_effect k item s Hi) as (s1 & -> & Hn & Hb).
  cbv zeta in Hb.
  assert (Hne : k <> key).
  { intros ->. destruct Hk as [Hk|Hk]; [contradiction|congruence]. }
  assert (E : breakableItems s1 !! key = breakableItems s !! key).
  { rewrite Hb. destruct (debounced _ item); [reflexivity|].
    destruct (_ <=? _).
    - rewrite lookup_delete_ne, lookup_insert_ne by assumption. reflexivity.
    - rewrite lookup_insert_ne by assumption. reflexivity. }
  destruct (IH ({[k]} ∪ checked) s1) as [IH1 IH2].
  { destruct Hk' as [Hk'|Hk']; [left; assumption|right; congruence]. }
  rewrite IH1, IH2, E, Hn. auto.
Qed.

Lemma checkTiles_once (tiles : list (option (Z * Z)))
    (checked : gset (Z * Z)) s key item :
  breakableItems s !! key = Some item ->
  let s' := state_of (checkTiles tiles checked s) in
  let item1 :=
    {| tile := tile item; hits := hits item + 1; maxHits := maxHits item;
       lastHitTime := Engine.now (engine s) |} in
  breakableItems s' !! key = Some item
  \/ breakableItems s' !! key = Some item1
  \/ (breakableItems s' !! key = None /\ maxHits item <= hits item + 1).
Proof.
  cbv zeta. revert checked s.
  induction tiles as [|[k|] tiles IH]; intros checked s Hk;
    cbn [checkTiles]; auto.
  destruct (decide (k ∈ checked)); [auto|].
  destruct (breakableItems s !! k) as [it|] eqn:Hi; [|auto].
  destruct (hitBreakableItem_effect k it s Hi) as (s1 & -> & Hn & Hb).
  cbv zeta in Hb.
  destruct (decide (k = key)) as [->|Hne].
  - assert (it = item) by congruence. subst it.
    destruct (checkTiles_checked tiles ({[key]} ∪ checked) s1 key) as [-> _];
      [left; apply elem_of_union; left; apply elem_of_singleton; reflexivity|].
    rewrite Hb. destruct (debounced _ item); [auto|].
    destruct (_ <=? _) eqn:E.
    + right. right. rewrite lookup_delete_eq. apply Z.leb_le in E. auto.
    + right. left. apply lookup_insert_eq.
  - assert (E : breakableItems s1 !! key = Some item).
    { rewrite Hb. destruct (debounced _ it); [assumption|].
      destruct (_ <=? _).
      - rewrite lookup_delete_ne, lookup_insert_ne by assumption. assumption.
      - rewrite lookup_insert_ne by assumption. assumption. }
    specialize (IH ({[k]} ∪ checked) s1 E). rewrite Hn in IH. exact IH.
Qed.

End SwordOnTiles.

(** X17. [hitBreakableItem] throws exactly when its key is not tracked
    (a TypeError that leaves the scene as it was);
    [checkSwordItemCollisions()] asks [breakableItems.has] first and so never
    throws, whatever tiles the sword overlaps. *)
Theorem checkSwordItemCollisions_never_throws
    (tiles : list (option (Z * Z))) (s : GameScene.t) (key : Z * Z) :
  (exists s', GameScene.checkSwordItemCollisions tiles s = GameScene.Normal s')
  /\ (GameScene.breakableItems s !! key = None ->
      GameScene.hitBreakableItem key s
      = GameScene.Thrown "TypeError: item is undefined" s)
  /\ (is_thrown (GameScene.hitBreakableItem key s) = true <->
      GameScene.breakableItems s !! key = None).
Proof.
  split; [|split].
  - unfold GameScene.checkSwordItemCollisions.
    destruct (_ || _); [eauto|apply checkTiles_normal].
  - apply hitBreakableItem_untracked.
  - destruct (GameScene.breakableItems s !! key) as [item|] eqn:Hi.
    + destruct (hitBreakableItem_effect key item s Hi) as (s' & -> & _).
      cbn. split; discriminate.
    + rewrite (hitBreakableItem_untracked key s Hi). cbn. split; auto.
Qed.

Lemma checkSwordItemCollisions_never_throws_witness :
  GameScene.hitBreakableItem (3, 3) Sample.started
  = GameScene.Thrown "TypeError: item is undefined" Sample.started.
Proof.
  destruct (checkSwordItemCollisions_never_throws [] Sample.started (3, 3))
    as (_ & H & _).
  apply H. vm_compute. reflexivity.
Defined.

(** X18. One call of [checkSwordItemCollisions()] hits a tracked cell at
    most once, however often the cell is listed among the overlapped tiles
    and even at clock value 0, where the debounce is off: its record is
    unchanged, or has one more hit stamped with the current time, or is gone
    because that hit reached [maxHits]. An untracked cell stays
    untracked. *)
Theorem checkSwordItemCollisions_hits_each_item_once
    (tiles : list (option (Z * Z))) (s : GameScene.t) (key : Z * Z) :
  let s' := GameScene.state_of (GameScene.checkSwordItemCollisions tiles s) in
  (GameScene.breakableItems s !! key = None ->
   GameScene.breakableItems s' !! key = None)
  /\ forall item,
       GameScene.breakableItems s !! key = Some item ->
       GameScene.breakableItems s' !! key = Some item
       \/ GameScene.breakableItems s' !! key
          = Some {| GameScene.tile := GameScene.tile item;
                    GameScene.hits := GameScene.hits item + 1;
                    GameScene.maxHits := GameScene.maxHits item;
                    GameScene.lastHitTime := Engine.now (GameScene.engine s) |}
       \/ (GameScene.breakableItems s' !! key = None
           /\ GameScene.maxHits item <= GameScene.hits item + 1).
Proof.
  cbv zeta. unfold GameScene.checkSwordItemCollisions.
  destruct (_ || _); cbn [GameScene.state_of]; [auto|]. split.
  - intros H. destruct (checkTiles_checked tiles ∅ s key) as [-> _]; auto.
  - intros item H. exact (checkTiles_once tiles ∅ s key item H).
Qed.

Lemma checkSwordItemCollisions_hits_each_item_once_witness :
  GameScene.hits
  <$> GameScene.breakableItems
        (GameScene.state_of
           (GameScene.checkSwordItemCollisions
              [Some (5, 5); None; Some (5, 5); Some (5, 5)] swinging))
      !! (5, 5)
  = Some 1.
Proof.
  destruct (checkSwordItemCollisions_hits_each_item_once
              [Some (5, 5); None; Some (5, 5); Some (5, 5)] swinging (5, 5))
    as [_ H].
  destruct (H {| GameScene.tile := (5, 5); GameScene.hits := 0;
                 GameScene.maxHits := 2; GameScene.lastHitTime := 0 |})
    as [E|[E|[E _]]].
  - vm_compute. reflexivity.
  - exfalso. vm_compute in E. discriminate.
  - rewrite E. reflexivity.
  - exfalso. vm_compute in E. discriminate.
Defined.

(** ** Accepted spawn points *)

Section FirstAcceptable.

Import GameScene.
Implicit Types (s : GameScene.t).

Lemma search_first_acceptable s k :
  (k < 50)%nat ->
  (forall j, (j < k)%nat -> acceptable s (candidate s j) = false) ->
  acceptable s (candidate s k) = true ->
  search 50 s (search_start s)
  = {| pos := Some (candidate s k); validPosition := true;
       attempts := S k;
       drawn := (Engine.draws (engine s) + 2 * S k)%nat |}.
Proof.
  intros Hk Hrej Hacc.
  replace 50%nat with (k + S (49 - k))%nat at 1 by lia.
  rewrite search_add.
  destruct (search_all_rejected k s (search_start s) 0) as (Hv & Ha & Hd);
    try reflexivity; try (cbn; lia).
  { intros j Hj. apply Hrej. lia. }
  cbn [Nat.add] in Ha, Hd.
  rewrite search_S, Hv, Ha. cbn [negb andb].
  rewrite (proj2 (Nat.ltb_lt k 50) Hk).
  rewrite (attempt_unfold s _ k Hd), Hacc, Ha.
  apply search_stable. reflexivity.
Qed.

Lemma acceptable_true s c :
  acceptable s c = true ->
  let cell := (worldToTileX (map s) (fst c), worldToTileY (map s) (snd c)) in
  lacks collides (wallsLayer s !! cell) = true
  /\ lacks breakable (itemsLayer s !! cell) = true
  /\ (100 < Engine.distanceBetween (IZR (fst c)) (IZR (snd c))
              (Player.x (player s)) (Player.y (player s)))%R.
Proof.
  unfold acceptable. cbv zeta.
  intros H. apply andb_true_iff in H as [H H3].
  apply andb_true_iff in H as [H1 H2].
  repeat split; auto. destruct (Rgt_dec _ _); [lra|discriminate].
Qed.

End FirstAcceptable.

(** X19. When one of the 50 sampled points passes the test,
    [getValidSpawnPoint()] returns the first that does, having consumed two
    draws per point sampled; the returned point is on no colliding wall
    tile, on no breakable tile, and farther than 100 from the player. *)
Theorem getValidSpawnPoint_takes_first_acceptable
    (s : GameScene.t) (k : nat) :
  (k < 50)%nat ->
  (forall j, (j < k)%nat -> acceptable s (candidate s j) = false) ->
  acceptable s (candidate s k) = true ->
  let c := candidate s k in
  let cell :=
    (GameScene.worldToTileX (GameScene.map s) (fst c),
     GameScene.worldToTileY (GameScene.map s) (snd c)) in
  GameScene.getValidSpawnPoint s
  = (Some (IZR (fst c), IZR (snd c)),
     GameScene.set_engine
       (Engine.set_draws (Engine.draws (GameScene.engine s) + 2 * S k)%nat
          (GameScene.engine s)) s)
  /\ GameScene.lacks GameScene.collides (GameScene.wallsLayer s !! cell) = true
  /\ GameScene.lacks GameScene.breakable (GameScene.itemsLayer s !! cell)
     = true
  /\ (100 < Engine.distanceBetween (IZR (fst c)) (IZR (snd c))
              (Player.x (GameScene.player s)) (Player.y (GameScene.player s)))%R.
Proof.
  intros Hk Hrej Hacc. cbv zeta. split; [|exact (acceptable_true s _ Hacc)].
  unfold GameScene.getValidSpawnPoint.
  rewrite (search_first_acceptable s k Hk Hrej Hacc). reflexivity.
Qed.

Lemma open_field_acceptable :
  acceptable open_field (candidate open_field 0) = true.
Proof.
  unfold acceptable. cbv zeta.
  replace (GameScene.lacks _ _) with true by (vm_compute; reflexivity).
  replace (GameScene.lacks _ _) with true by (vm_compute; reflexivity).
  cbn [andb].
  change (candidate open_field 0) with (50, 50).
  change (Player.x (GameScene.player open_field)) with 100%R.
  change (Player.y (GameScene.player open_field)) with 280%R.
  cbn [fst snd]. unfold Engine.distanceBetween.
  destruct (Rgt_dec _ _) as [|Hn]; [reflexivity|]. exfalso. apply Hn.
  apply Rlt_gt. rewrite <- (sqrt_square 100) at 1 by lra.
  apply sqrt_lt_1; lra.
Qed.

Lemma getValidSpawnPoint_takes_first_acceptable_witness :
  fst (GameScene.getValidSpawnPoint open_field) = Some (50, 50)%R.
Proof.
  destruct (getValidSpawnPoint_takes_first_acceptable open_field 0) as [H _].
  - lia.
  - intros j Hj. lia.
  - exact open_field_acceptable.
  - rewrite H. reflexivity.
Defined.

(** ** Touches and idle sword overlaps *)

Section Touch.

Import GameScene.
Implicit Types (s : GameScene.t).

Lemma damagePlayer_motion s :
  Player.velocity (player (damagePlayer s)) = Player.velocity (player s)
  /\ Player.x (player (damagePlayer s)) = Player.x (player s)
  /\ Player.y (player (damagePlayer s)) = Player.y (player s)
  /\ Player.isKnockedBack (player (damagePlayer s))
     = Player.isKnockedBack (player s)
  /\ exists more,
       Engine.effects (engine (damagePlayer s))
       = Engine.effects (engine s) ++ more.
Proof.
  destruct (playerInvincible s) eqn:Hi.
  { rewrite (damagePlayer_invincible s Hi). repeat split.
    exists []. now rewrite app_nil_r. }
  destruct (Z_lt_le_dec 0 (fst (fst (UI.damagePlayer 1 (ui s))))) as [Hh|Hh].
  - rewrite (damagePlayer_survive s Hi Hh). repeat split.
    eexists. reflexivity.
  - rewrite (damagePlayer_death s Hi Hh). repeat split.
    eexists. reflexivity.
Qed.

Lemma swordHit_idle currentTime r s :
  Player.isAttacking (player s) = false -> swordHit currentTime r s = s.
Proof.
  intros H. unfold swordHit.
  destruct (objects s !! r) as [e|] eqn:E; [|reflexivity].
  rewrite (hitEnemy_idle currentTime (player s) e H).
  rewrite (insert_id _ _ _ E).
  destruct s as [[] m w i b mh it inv p u cw mw en ob nr]. reflexivity.
Qed.

End Touch.

(** X20. [playerHit] always knocks the player back at speed 300, whatever
    the angle the engine reports, and plays the hit effect 10 away from the
    player on the opposite side: the knockback velocity is -30 times the
    offset of the effect. This holds whether or not damage is taken. *)
Theorem playerHit_knocks_back_at_fixed_speed
    (enemy : Enemy.t) (s : GameScene.t) :
  let p := GameScene.player s in
  let angle :=
    Engine.angleBetween (GameScene.engine s) (Enemy.x enemy) (Enemy.y enemy)
      (Player.x p) (Player.y p) in
  let s' := GameScene.playerHit enemy s in
  let v := Player.velocity (GameScene.player s') in
  let hx := (Player.x p - cos angle * 10)%R in
  let hy := (Player.y p - sin angle * 10)%R in
  sqrt (fst v * fst v + snd v * snd v) = 300%R
  /\ Player.isKnockedBack (GameScene.player s') = true
  /\ (exists more,
        Engine.effects (GameScene.engine s')
        = Engine.effects (GameScene.engine s) ++ HitEffect hx hy :: more)
  /\ Engine.distanceBetween hx hy (Player.x p) (Player.y p) = 10%R
  /\ (fst v = -30 * (hx - Player.x p) /\ snd v = -30 * (hy - Player.y p))%R.
Proof.
  cbv zeta. rewrite playerHit_spec. cbv zeta.
  match goal with
  | |- context [GameScene.damagePlayer ?s0] =>
    destruct (damagePlayer_motion s0) as (Hv & _ & _ & Hk & more & He)
  end.
  rewrite Hv, Hk, He.
  cbn [GameScene.player GameScene.set_player GameScene.set_engine
       Player.velocity Player.set_velocity Player.isKnockedBack
       Player.set_isKnockedBack Player.set_tint
       GameScene.engine Engine.effects Engine.set_timers Engine.set_effects
       fst snd].
  set (a := Engine.angleBetween _ _ _ _ _).
  pose proof (sin2_cos2 a) as Hsc. unfold Rsqr in Hsc.
  repeat split.
  - replace (cos a * 300 * (cos a * 300) + sin a * 300 * (sin a * 300))%R
      with (300 * 300 * (sin a * sin a + cos a * cos a))%R by ring.
    rewrite Hsc, Rmult_1_r. apply sqrt_square. lra.
  - exists more. rewrite <- app_assoc. reflexivity.
  - unfold Engine.distanceBetween.
    replace ((Player.x (GameScene.player s) - cos a * 10
              - Player.x (GameScene.player s))
             * (Player.x (GameScene.player s) - cos a * 10
                - Player.x (GameScene.player s))
             + (Player.y (GameScene.player s) - sin a * 10
                - Player.y (GameScene.player s))
               * (Player.y (GameScene.player s) - sin a * 10
                  - Player.y (GameScene.player s)))%R
      with (10 * 10 * (sin a * sin a + cos a * cos a))%R by ring.
    rewrite Hsc, Rmult_1_r. apply sqrt_square. lra.
  - ring.
  - ring.
Qed.

(** X21. A sword overlap reported while no swing is in progress leaves
    the scene exactly as it was: no knockback, no stun, no command, no
    camera shake. *)
Theorem swordHit_outside_a_swing_is_a_no_op
    (currentTime : Z) (r : ref) (s : GameScene.t) :
  Player.isAttacking (GameScene.player s) = false ->
  GameScene.swordHit currentTime r s = s
  /\ (r ∈ GameScene.enemies s ->
      GameScene.handle (GameScene.SwordOverlap r currentTime) s = Some s).
Proof.
  intros H. split; [exact (swordHit_idle currentTime r s H)|].
  intros Hr. cbn [GameScene.handle].
  rewrite bool_decide_eq_true_2 by exact Hr.
  rewrite (swordHit_idle currentTime r s H). reflexivity.
Qed.

Lemma swordHit_outside_a_swing_is_a_no_op_witness :
  GameScene.handle (GameScene.SwordOverlap 0%nat 1000) Sample.started
  = Some Sample.started.
Proof.
  destruct (swordHit_outside_a_swing_is_a_no_op 1000 0%nat Sample.started)
    as [_ H].
  - reflexivity.
  - apply H. vm_compute. left.
Defined.

(** ** The health display *)

(** X22. [UI.damagePlayer] as written stores the same health as the
    clamped health model of the specification, and also shakes the camera
    for 200ms; the value it returns is the difference before clamping, which
    agrees with the model whenever it lies within [0, maxHealth] and, for a
    positive [maxHealth], always agrees on the test [newHealth <= 0] that
    selects the death branch of the scene. *)
Theorem ui_damagePlayer_refines_health_model (amount : Z) (u : UI.t) :
  let newHealth := fst (fst (UI.damagePlayer amount u)) in
  let u' := snd (fst (UI.damagePlayer amount u)) in
  let model := HealthModel.damagePlayer amount (gauge u) in
  gauge u' = snd model
  /\ newHealth = UI.currentHealth u - amount
  /\ snd (UI.damagePlayer amount u) = [Emit (CameraShake 200 (1 / 100)%R)]
  /\ (0 <= newHealth <= UI.maxHealth u -> newHealth = fst model)
  /\ (0 < UI.maxHealth u -> (newHealth <=? 0) = (fst model <=? 0))
  /\ gauge (UI.constructor (Some (UI.maxHealth u)))
     = HealthModel.constructor (UI.maxHealth u).
Proof.
  cbv zeta. unfold UI.damagePlayer, HealthModel.damagePlayer, gauge.
  cbn [fst snd HealthModel.health HealthModel.maxHealth].
  destruct (updateHealth_fields (UI.currentHealth u - amount) u)
    as (E1 & E2 & _).
  rewrite E1, E2. repeat split.
  - f_equal. lia.
  - intros H. lia.
  - intros H.
    destruct (Z.leb_spec (UI.currentHealth u - amount) 0);
      destruct (Z.leb_spec
                  (Z.max 0 (Z.min (UI.maxHealth u)
                              (UI.currentHealth u - amount))) 0); lia.
Qed.

Lemma ui_damagePlayer_refines_health_model_witness :
  (fst (fst (UI.damagePlayer 1 (damaged 5))) <=? 0)
  = (fst (HealthModel.damagePlayer 1 (gauge (damaged 5))) <=? 0)
  /\ fst (fst (UI.damagePlayer 1 (damaged 5))) = -1
  /\ fst (HealthModel.damagePlayer 1 (gauge (damaged 5))) = 0.
Proof.
  destruct (ui_damagePlayer_refines_health_model 1 (damaged 5))
    as (_ & _ & _ & _ & H & _).
  split; [apply H; vm_compute; reflexivity|].
  split; vm_compute; reflexivity.
Defined.

(** X23. The health shown stays within [0, maxHealth] under damage and
    healing; inside that range healing undoes damage and damage undoes
    healing, while healing at full health is lost (heal then damage leaves
    the player below full health). *)
Theorem ui_health_is_clamped_and_heal_undoes_damage
    (amount : Z) (u : UI.t) :
  0 <= UI.currentHealth u <= UI.maxHealth u ->
  0 <= amount ->
  let hurt := snd (fst (UI.damagePlayer amount u)) in
  let healed := snd (UI.healPlayer amount u) in
  (0 <= UI.currentHealth hurt <= UI.maxHealth u
   /\ 0 <= UI.currentHealth healed <= UI.maxHealth u
   /\ UI.maxHealth hurt = UI.maxHealth u
   /\ UI.maxHealth healed = UI.maxHealth u)
  /\ (amount <= UI.currentHealth u ->
      UI.currentHealth (snd (UI.healPlayer amount hurt))
      = UI.currentHealth u)
  /\ (UI.currentHealth u + amount <= UI.maxHealth u ->
      UI.currentHealth (snd (fst (UI.damagePlayer amount healed)))
      = UI.currentHealth u)
  /\ (UI.currentHealth u = UI.maxHealth u -> amount <= UI.maxHealth u ->
      UI.currentHealth (snd (fst (UI.damagePlayer amount healed)))
      = UI.maxHealth u - amount).
Proof.
  intros Hr Ha. cbv zeta. unfold UI.damagePlayer, UI.healPlayer.
  cbn [fst snd].
  destruct (updateHealth_fields (UI.currentHealth u - amount) u)
    as (E1 & E2 & _).
  destruct (updateHealth_fields (UI.currentHealth u + amount) u)
    as (F1 & F2 & _).
  destruct (updateHealth_fields
              (UI.currentHealth
                 (UI.updateHealth (UI.currentHealth u - amount) u) + amount)
              (UI.updateHealth (UI.currentHealth u - amount) u))
    as (G1 & _).
  destruct (updateHealth_fields
              (UI.currentHealth
                 (UI.updateHealth (UI.currentHealth u + amount) u) - amount)
              (UI.updateHealth (UI.currentHealth u + amount) u))
    as (K1 & _).
  rewrite G1, K1, E1, E2, F1, F2. repeat split; intros; lia.
Qed.

Lemma ui_health_is_clamped_and_heal_undoes_damage_witness :
  UI.currentHealth
    (snd (fst (UI.damagePlayer 1
                 (snd (UI.healPlayer 1 (UI.constructor (Some 5)))))))
  = 5 - 1.
Proof.
  destruct (ui_health_is_clamped_and_heal_undoes_damage 1
              (UI.constructor (Some 5))) as (_ & _ & _ & H).
  - cbn. lia.
  - lia.
  - apply H; [reflexivity|cbn; lia].
Defined.

Section Hearts.

Import UI.

Lemma createHealthDisplay_visible_aux (l : list nat) (acc : list Heart) :
  Forall (fun h => visible h = true) acc ->
  Forall (fun h => visible h = true)
    (fold_left
       (fun hearts i =>
          mkHeart (200 + 35 + Z.of_nat i * 12) true 1 (7 / 10) :: hearts)
       l acc).
Proof.
  revert acc. induction l as [|i l IH]; intros acc H; cbn; [exact H|].
  apply IH. constructor; [reflexivity|exact H].
Qed.

Lemma createHealthDisplay_visible n :
  Forall (fun h => visible h = true) (createHealthDisplay n).
Proof. apply createHealthDisplay_visible_aux. constructor. Qed.

End Hearts.

(** X24. When [updateHealth] leaves the health different from 1 no pulse
    tween is left running; if none was running, heart [i] is opaque exactly
    when [i] is below the health and faded to 0.3 otherwise; if one was
    running, stopping it resets every visible heart to full opacity and
    scale 1, whatever the health. *)
Theorem ui_hearts_after_updateHealth (health : Z) (u : UI.t) :
  let u' := UI.updateHealth health u in
  let current := UI.currentHealth u' in
  current <> 1 ->
  UI.heartPulseTween u' = false
  /\ (UI.heartPulseTween u = false ->
      forall i heart, UI.hearts u' !! i = Some heart ->
        UI.alpha heart = (if Z.of_nat i <? current then 1 else 3 / 10)%R)
  /\ (UI.heartPulseTween u = true ->
      Forall (fun h => UI.visible h = true) (UI.hearts u) ->
      forall i heart, UI.hearts u' !! i = Some heart ->
        UI.alpha heart = 1%R /\ UI.scale heart = 1%R).
Proof.
  cbv zeta. intros Hc.
  destruct (updateHealth_fields health u) as (E & _).
  rewrite E in Hc |- *. unfold UI.updateHealth.
  apply Z.eqb_neq in Hc. rewrite Hc.
  unfold UI.stopHeartPulse. cbn [UI.heartPulseTween UI.hearts].
  destruct (UI.heartPulseTween u) eqn:Ep; cbn [UI.heartPulseTween UI.hearts].
  - split; [reflexivity|]. split; [discriminate|].
    intros _ Hv i heart. rewrite list_lookup_fmap, list_lookup_imap.
    destruct (UI.hearts u !! i) as [h|] eqn:Eh; [|discriminate].
    cbn. intros [= <-]. cbn.
    assert (Hh : UI.visible h = true).
    { rewrite Forall_forall in Hv. apply Hv.
      eapply list_elem_of_lookup_2. exact Eh. }
    destruct (Z.of_nat i <? _); cbn; rewrite ?Hh; auto.
  - split; [reflexivity|]. split; [|discriminate].
    intros _ i heart. rewrite list_lookup_imap.
    destruct (UI.hearts u !! i) as [h|]; [|discriminate].
    cbn. intros [= <-].
    destruct (Z.of_nat i <? _); reflexivity.
Qed.

Lemma ui_hearts_after_updateHealth_witness :
  UI.currentHealth (damaged 5) = 0
  /\ UI.alpha <$> UI.hearts (damaged 5) = [1; 1; 1; 1; 1]%R.
Proof.
  split; [vm_compute; reflexivity|].
  assert (H : forall i heart, UI.hearts (damaged 5) !! i = Some heart ->
                UI.alpha heart = 1%R).
  { destruct (ui_hearts_after_updateHealth (1 - 1) (damaged 4))
      as (_ & _ & H).
    - vm_compute. discriminate.
    - intros i heart Hi. apply (H eq_refl) in Hi; [apply Hi|].
      vm_compute. repeat constructor. }
  apply list_eq. intros i.
  rewrite list_lookup_fmap.
  destruct (UI.hearts (damaged 5) !! i) as [heart|] eqn:E.
  - cbn. rewrite (H i heart E).
    assert (Hl : (i < 5)%nat).
    { apply lookup_lt_Some in E. vm_compute in E. lia. }
    destruct i as [|[|[|[|[|i]]]]]; try reflexivity. lia.
  - cbn. apply lookup_ge_None in E.
    assert (Hl : (5 <= i)%nat) by (vm_compute in E; lia).
    symmetry. apply lookup_ge_None. cbn. lia.
Defined.

(** ** Torches *)

Section Torches.

Import SpriteItem.

Lemma byte_components (n : Z) :
  let r := Z.land (Z.shiftr n 16) 255 in
  let g := Z.land (Z.shiftr n 8) 255 in
  let b := Z.land n 255 in
  (0 <= r <= 255 /\ 0 <= g <= 255 /\ 0 <= b <= 255)
  /\ r * 65536 + g * 256 + b = n mod 16777216.
Proof.
  cbv zeta.
  change 255 with (Z.ones 8). rewrite !Z.land_ones by lia.
  rewrite !Z.shiftr_div_pow2 by lia.
  change (2 ^ 8) with 256. change (2 ^ 16) with 65536.
  change (Z.ones 8) with 255.
  pose proof (Z.mod_pos_bound (n / 65536) 256 ltac:(lia)).
  pose proof (Z.mod_pos_bound (n / 256) 256 ltac:(lia)).
  pose proof (Z.mod_pos_bound n 256 ltac:(lia)).
  split; [lia|].
  pose proof (Z.div_mod n 256 ltac:(lia)).
  pose proof (Z.div_mod (n / 256) 256 ltac:(lia)).
  pose proof (Z.div_mod (n / 256 / 256) 256 ltac:(lia)).
  pose proof (Z.div_mod n 16777216 ltac:(lia)).
  pose proof (Z.mod_pos_bound n 16777216 ltac:(lia)).
  pose proof (Z.mod_pos_bound (n / 256 / 256) 256 ltac:(lia)).
  replace (n / 65536) with (n / 256 / 256) in *
    by (rewrite Z.div_div by lia; reflexivity).
  replace (n / 16777216) with (n / 256 / 256 / 256) in *
    by (rewrite !Z.div_div by lia; reflexivity).
  lia.
Qed.

Lemma int_or_nonzero a d : d <> 0 -> int_or a d <> 0.
Proof.
  intros Hd. unfold int_or. destruct a as [v|]; [|exact Hd].
  destruct (Z.eqb_spec v 0); assumption.
Qed.

Lemma update_light it l delta random1 random2 :
  lightEffect it = Some l ->
  exists l',
    lightEffect (fst (update delta random1 random2 it)) = Some l'
    /\ lightX l' = x it /\ lightY l' = y it
    /\ baseAlpha l' = baseAlpha l.
Proof.
  intros Hl. unfold update. rewrite Hl.
  destruct (_ && _); [unfold updateLightFlicker; cbn [lightEffect]|];
    eexists; (split; [reflexivity|]); cbn; auto.
Qed.

Lemma update_kind it delta random1 random2 :
  let it' := fst (update delta random1 random2 it) in
  itemType it' = itemType it /\ textureKey it' = textureKey it
  /\ x it' = x it /\ y it' = y it
  /\ flickerIntensity it' = flickerIntensity it.
Proof.
  cbv zeta. unfold update. destruct (lightEffect it) as [l|]; [|auto].
  destruct (_ && _); [unfold updateLightFlicker; cbn [lightEffect]|];
    cbn; auto.
Qed.

Lemma update_without_delta it l random1 random2 :
  lightEffect it = Some l ->
  itemType it = "decoration"%string -> textureKey it = "torch"%string ->
  let it' := fst (update None random1 random2 it) in
  flickerTimer it' = NaN /\ lightAlpha <$> lightEffect it' = Some NaN.
Proof.
  intros Hl E1 E2. cbv zeta. unfold update. rewrite Hl, E1, E2.
  cbn [String.eqb Ascii.eqb Bool.eqb andb].
  unfold updateLightFlicker. cbn [lightEffect]. cbn [fst flickerTimer].
  destruct (flickerTimer it); cbn; auto.
Qed.

Lemma placeTorches_lit it : it ∈ placeTorches -> lit_torch it.
Proof.
  unfold placeTorches. rewrite !elem_of_cons, elem_of_nil.
  intros [->|[->|[->|[->|[->|[->|[]]]]]]];
    (split; [reflexivity|split; [reflexivity|eexists; reflexivity]]).
Qed.

Lemma torch_frames_lit random n torches :
  Forall lit_torch torches -> Forall lit_torch (torch_frames random n torches).
Proof.
  intros H. induction n as [|n IH]; [exact H|].
  cbn [torch_frames]. unfold updateTorches.
  rewrite Forall_forall in IH |- *. intros it Hin.
  apply list_elem_of_fmap in Hin as ([it' cmds] & -> & Hin).
  apply list_elem_of_lookup_1 in Hin as (i & Hi).
  rewrite list_lookup_imap in Hi.
  destruct (torch_frames random n torches !! i) as [it0|] eqn:E;
    [|discriminate].
  cbn in Hi. injection Hi as Hi.
  apply list_elem_of_lookup_2 in E. apply IH in E.
  destruct E as (E1 & E2 & l & Hl).
  pose proof (update_kind it0 None (fst (random n i)) (snd (random n i)))
    as (K1 & K2 & _).
  destruct (update_light it0 l None (fst (random n i)) (snd (random n i)) Hl)
    as (l' & Hl' & _).
  rewrite Hi in *. cbn [fst] in *.
  split; [congruence|split; [congruence|eauto]].
Qed.

Lemma torch_frames_dark random n torches it :
  Forall lit_torch torches ->
  it ∈ torch_frames random (S n) torches ->
  flickerTimer it = NaN /\ lightAlpha <$> lightEffect it = Some NaN.
Proof.
  intros H Hin. cbn [torch_frames] in Hin. unfold updateTorches in Hin.
  apply list_elem_of_fmap in Hin as ([it' cmds] & -> & Hin).
  apply list_elem_of_lookup_1 in Hin as (i & Hi).
  rewrite list_lookup_imap in Hi.
  destruct (torch_frames random n torches !! i) as [it0|] eqn:E;
    [|discriminate].
  cbn in Hi. injection Hi as Hi.
  apply list_elem_of_lookup_2 in E.
  pose proof (torch_frames_lit random n torches H) as Hall.
  rewrite Forall_forall in Hall. apply Hall in E.
  destruct E as (E1 & E2 & l & Hl).
  pose proof (update_without_delta it0 l (fst (random n i))
                (snd (random n i)) Hl E1 E2) as Hd.
  cbv zeta in Hd. rewrite Hi in Hd. exact Hd.
Qed.

End Torches.

(** X25. [addLightEffect] splits the light colour into three bytes that
    recompose its low 24 bits (the colour itself when it is below 2^24);
    a colour left out or given as 0 becomes yellow (0xffff00), so the colour
    used is never 0; the light sits at the item's position and its base
    alpha is its intensity. *)
Theorem addLightEffect_colour_components
    (lightConfig : SpriteItem.LightConfig) (it : SpriteItem.t) :
  exists l,
    SpriteItem.lightEffect (SpriteItem.addLightEffect lightConfig it) = Some l
    /\ (let '(r, g, b) := SpriteItem.fill l in
        0 <= r <= 255 /\ 0 <= g <= 255 /\ 0 <= b <= 255
        /\ r * 65536 + g * 256 + b
           = SpriteItem.to_int32 (SpriteItem.lightColor l) mod 16777216
        /\ (0 <= SpriteItem.lightColor l < 16777216 ->
            r * 65536 + g * 256 + b = SpriteItem.lightColor l))
    /\ SpriteItem.lightColor l <> 0
    /\ (SpriteItem.color lightConfig = None
        \/ SpriteItem.color lightConfig = Some 0 ->
        SpriteItem.lightColor l = 16776960
        /\ SpriteItem.fill l = (255, 255, 0))
    /\ SpriteItem.lightX l = SpriteItem.x it
    /\ SpriteItem.lightY l = SpriteItem.y it
    /\ SpriteItem.baseAlpha l = SpriteItem.lightIntensity l.
Proof.
  unfold SpriteItem.addLightEffect. cbn [SpriteItem.lightEffect].
  eexists. split; [reflexivity|].
  cbn [SpriteItem.fill SpriteItem.lightColor SpriteItem.lightX
       SpriteItem.lightY SpriteItem.baseAlpha SpriteItem.lightIntensity].
  set (c := SpriteItem.int_or (SpriteItem.color lightConfig) 16776960).
  destruct (byte_components (SpriteItem.to_int32 c)) as ((Hr & Hg & Hb) & E).
  split; [|split; [|split]].
  - repeat split; try lia.
    intros Hc. rewrite E. unfold SpriteItem.to_int32.
    rewrite (Z.mod_small (c + 2147483648)) by lia.
    replace (c + 2147483648 - 2147483648) with c by lia.
    apply Z.mod_small. lia.
  - apply int_or_nonzero. lia.
  - intros [H|H]; unfold c; rewrite H; split; reflexivity.
  - auto.
Qed.

Lemma addLightEffect_colour_components_witness :
  SpriteItem.fill
  <$> SpriteItem.lightEffect
        (SpriteItem.addLightEffect
           (SpriteItem.mkLightConfig true None (Some 0) None)
           (SpriteItem.torch 40 20))
  = Some (255, 255, 0).
Proof.
  destruct (addLightEffect_colour_components
              (SpriteItem.mkLightConfig true None (Some 0) None)
              (SpriteItem.torch 40 20))
    as (l & -> & _ & _ & H & _).
  destruct H as [_ H]; [right; reflexivity|].
  cbn [fmap option_fmap option_map]. rewrite H. reflexivity.
Defined.

(** X26. [update(time, delta)] of an item with a light moves the light to
    the item. For a torch decoration given a numeric [delta] and holding a
    numeric timer, it advances the timer by [delta] in seconds and sets the
    light's alpha to the flicker value clamped into [0.1, 1]; when [delta]
    is left out or the timer is already [NaN], timer and alpha become
    [NaN]. The scale changes only when the first random draw is below 0.01
    (then to a value within [0.9, 1.1], with a reset to 1 scheduled 100ms
    later, which touches neither alpha nor timer). For any other item
    alpha, scale and timer are left alone. The scene calls [torch.update()]
    without arguments, so from its first frame on every torch of
    [placeTorches()] has a [NaN] timer and a [NaN] light alpha. *)
Theorem update_torch_light_flicker
    (delta : option R) (random1 random2 : R) (it : SpriteItem.t)
    (l : SpriteItem.Light) :
  SpriteItem.lightEffect it = Some l ->
  let it' := fst (SpriteItem.update delta random1 random2 it) in
  let scheduled := snd (SpriteItem.update delta random1 random2 it) in
  (exists l',
    SpriteItem.lightEffect it' = Some l'
    /\ SpriteItem.lightX l' = SpriteItem.x it
    /\ SpriteItem.lightY l' = SpriteItem.y it
    /\ SpriteItem.x it' = SpriteItem.x it /\ SpriteItem.y it' = SpriteItem.y it
    /\ (SpriteItem.itemType it = "decoration"%string ->
        SpriteItem.textureKey it = "torch"%string ->
        (forall d timer,
            delta = Some d -> SpriteItem.flickerTimer it = Num timer ->
            SpriteItem.flickerTimer it' = Num (timer + d * (1 / 1000))
            /\ exists a,
                SpriteItem.lightAlpha l' = Num a
                /\ (1 / 10 <= a <= 1)%R
                /\ a = Rmax (1 / 10)
                         (Rmin 1
                            (SpriteItem.baseAlpha l
                             + sin ((timer + d * (1 / 1000)) * 5)
                               * SpriteItem.flickerIntensity it)))
        /\ (delta = None \/ SpriteItem.flickerTimer it = NaN ->
            SpriteItem.flickerTimer it' = NaN
            /\ SpriteItem.lightAlpha l' = NaN)
        /\ ((random1 < 1 / 100)%R ->
            scheduled = [(100, SpriteItem.ResetScale)]
            /\ SpriteItem.lightScale l'
               = (1 + (random2 * (2 / 10) - 1 / 10))%R
            /\ ((0 <= random2 <= 1)%R ->
                (9 / 10 <= SpriteItem.lightScale l' <= 11 / 10)%R))
        /\ (~ (random1 < 1 / 100)%R ->
            scheduled = []
            /\ SpriteItem.lightScale l' = SpriteItem.lightScale l)
        /\ (let it2 := SpriteItem.runCallback SpriteItem.ResetScale it' in
            SpriteItem.lightScale <$> SpriteItem.lightEffect it2 = Some 1%R
            /\ SpriteItem.lightAlpha <$> SpriteItem.lightEffect it2
               = Some (SpriteItem.lightAlpha l')
            /\ SpriteItem.flickerTimer it2 = SpriteItem.flickerTimer it'))
    /\ (SpriteItem.itemType it <> "decoration"%string
        \/ SpriteItem.textureKey it <> "torch"%string ->
        scheduled = []
        /\ SpriteItem.lightAlpha l' = SpriteItem.lightAlpha l
        /\ SpriteItem.lightScale l' = SpriteItem.lightScale l
        /\ SpriteItem.flickerTimer it' = SpriteItem.flickerTimer it))
  /\ (forall random n torch,
        torch ∈ torch_frames random (S n) SpriteItem.placeTorches ->
        SpriteItem.flickerTimer torch = NaN
        /\ SpriteItem.lightAlpha <$> SpriteItem.lightEffect torch = Some NaN).
Proof.
  intros Hl. cbv zeta. split.
  2:{ intros random n torch. apply torch_frames_dark.
      apply Forall_forall. exact placeTorches_lit. }
  unfold SpriteItem.update. rewrite Hl.
  destruct (String.eqb_spec (SpriteItem.itemType it) "decoration") as [E1|E1];
    destruct (String.eqb_spec (SpriteItem.textureKey it) "torch") as [E2|E2];
    cbn [andb].
  2-4: eexists; (split; [reflexivity|]); cbn; repeat split; auto;
       try contradiction; intros [H|H]; contradiction.
  unfold SpriteItem.updateLightFlicker. cbn [SpriteItem.lightEffect].
  eexists. split; [reflexivity|].
  cbn [fst snd SpriteItem.lightX SpriteItem.lightY
    SpriteItem.x SpriteItem.y SpriteItem.lightAlpha SpriteItem.lightScale
    SpriteItem.flickerTimer SpriteItem.baseAlpha SpriteItem.flickerIntensity].
  do 4 (split; [reflexivity|]).
  split; [|intros [H|H]; contradiction].
  intros _ _. split; [|split; [|split; [|split]]].
  - intros d timer -> ->. cbn [to_number num_map num_map2].
    split; [reflexivity|]. eexists. split; [reflexivity|].
    split; [|reflexivity].
    split; [apply Rmax_l|apply Rmax_lub; [lra|apply Rmin_l]].
  - intros [->| ->]; [destruct (SpriteItem.flickerTimer it)|];
      cbn [to_number num_map num_map2]; auto.
  - intros Hr. unfold Rltb. destruct (Rlt_dec random1 (1 / 100)); [|contradiction].
    split; [reflexivity|]. split; [reflexivity|]. intros Hb. lra.
  - intros Hr. unfold Rltb. destruct (Rlt_dec random1 (1 / 100)); [contradiction|].
    split; reflexivity.
  - cbn. auto.
Qed.

Lemma update_torch_light_flicker_witness :
  let it' := fst (SpriteItem.update None (1 / 2) 0 (SpriteItem.torch 40 20)) in
  SpriteItem.flickerTimer (SpriteItem.torch 40 20) = Num 0
  /\ SpriteItem.lightAlpha <$> SpriteItem.lightEffect (SpriteItem.torch 40 20)
     = Some (Num 1)
  /\ SpriteItem.flickerTimer it' = NaN
  /\ SpriteItem.lightAlpha <$> SpriteItem.lightEffect it' = Some NaN.
Proof.
  cbv zeta. split; [reflexivity|]. split; [reflexivity|].
  destruct (update_torch_light_flicker None (1 / 2) 0
              (SpriteItem.torch 40 20)
              (default (SpriteItem.mkLight 0 0 (0, 0, 0) 0 NaN 0 0 0 0 0)
                 (SpriteItem.lightEffect (SpriteItem.torch 40 20))))
    as ((l' & H1 & _ & _ & _ & _ & H2 & _) & _).
  - reflexivity.
  - destruct H2 as (_ & H2 & _); [reflexivity|reflexivity|].
    destruct H2 as [H2 H3]; [left; reflexivity|].
    split; [exact H2|]. rewrite H1. cbn [fmap option_fmap option_map].
    rewrite H3. reflexivity.
Defined.
